(** * Support-engineering utilities: incident tracker, log parser, API health check

  A shallow embedding of [src/incidentTracker.js], [src/logParser.js] and the
  [checkAPIHealth] helper, with the properties their specification states.

  Conventions of the embedding.
  - A JavaScript string is a [string] (a sequence of 8-bit code units).  All
    patterns searched by the code are ASCII, so searching the UTF-8 bytes of
    a line finds the same occurrences.
  - Integral JavaScript numbers (identifiers, counters, epoch milliseconds)
    are [Z] or [nat].  The hit rate of [analyzeCachePerformance], one
    quotient of two counters, is a [JsNumber.number]: an exact rational, an
    infinity or [NaN] (the code's double is the one nearest to it).
  - [calculateMTTR] adds and divides doubles, and rounds after each
    operation: [IncidentTracker.calculateMTTR] computes on IEEE binary64
    numbers (the primitive floats), and
    [IncidentTracker.generateMarkdownReport] prints its result.  What the
    properties need of the binary64 operations is proved from their
    specification in the standard library.  [calculateMTTR_exact] and
    [generateMarkdownReport_exact] are the same computations without
    rounding, on exact rationals: the reading of the specification, not the
    code.
  - [new Date()] and [Date.now()] read the wall clock: every operation that
    reads it takes the reading as an argument ([now]) or from the [World].
  - [this.incidents] is a [list Incident]; an incident object is identified
    by its position in the array, which never changes (the code only pushes
    and updates in place).
  - A promise is the way it ends: pending for ever, or settled at an instant
    with a value or an error.

  The embedding comes first, then the vocabulary of the properties, then the
  properties. *)

From Stdlib Require Import ZArith QArith Qabs Qround List Sorted String Ascii DecimalPos DecimalString Lia.
From Stdlib Require Import Floats Uint63.
From stdpp Require Import base list.

Local Open Scope string_scope.
Local Open Scope bool_scope.

(** ** JavaScript string primitives used by the code *)

Module JsString.

(** The line feed character, ['\n']. *)
Definition lf : ascii := ascii_of_nat 10.
Definition nl : string := String lf EmptyString.

(** [s.startsWith(p)]. *)
Fixpoint startsWith (s p : string) {struct p} : bool :=
  match p with
  | EmptyString => true
  | String a p' =>
      match s with
      | String b s' => Ascii.eqb a b && startsWith s' p'
      | EmptyString => false
      end
  end.

(** [s.includes(p)]: some position of [s] starts an occurrence of [p]. *)
Fixpoint includes (s p : string) : bool :=
  startsWith s p ||
  match s with
  | EmptyString => false
  | String _ s' => includes s' p
  end.

(** [s.split(c)] for a one-character separator: the maximal pieces between
    separators, in order; the empty string gives one empty piece. *)
Fixpoint split (sep : ascii) (s : string) : list string :=
  match s with
  | EmptyString => [EmptyString]
  | String c rest =>
      if Ascii.eqb c sep then EmptyString :: split sep rest
      else match split sep rest with
           | piece :: pieces => String c piece :: pieces
           | [] => [String c EmptyString]
           end
  end.

(** [pieces.join(sep)]. *)
Fixpoint join (sep : string) (pieces : list string) : string :=
  match pieces with
  | [] => EmptyString
  | [p] => p
  | p :: rest => p ++ sep ++ join sep rest
  end.

(** Occurrence of [p] inside [s], as a proposition. *)
Definition contains (p s : string) : Prop :=
  exists a b, s = a ++ p ++ b.

End JsString.

(** ** The regular expression [/\b503\b/] *)

Module Regex503.

(** [\w]: ASCII letters, digits and the underscore. *)
Definition is_word (c : ascii) : bool :=
  let n := nat_of_ascii c in
  ((48 <=? n)%nat && (n <=? 57)%nat) || ((65 <=? n)%nat && (n <=? 90)%nat)
  || (n =? 95)%nat || ((97 <=? n)%nat && (n <=? 122)%nat).

(** The character on one side of a position; [None] at either end of the
    input, which counts as a non-word character. *)
Definition side_is_word (c : option ascii) : bool :=
  match c with Some a => is_word a | None => false end.

(** [\b]: exactly one of the two neighbours is a word character. *)
Definition boundary (prev next : option ascii) : bool :=
  xorb (side_is_word prev) (side_is_word next).

Definition first_char (s : string) : option ascii :=
  match s with String c _ => Some c | EmptyString => None end.

(** What is left of [s] after the literal [p], when [s] starts with it. *)
Fixpoint after_literal (p s : string) : option string :=
  match p with
  | EmptyString => Some s
  | String a p' =>
      match s with
      | String b s' => if Ascii.eqb a b then after_literal p' s' else None
      | EmptyString => None
      end
  end.

(** The pattern matched at the head of [s], [prev] being the character just
    before [s]: [\b], then the literal [503], then [\b]. *)
Definition match_here (prev : option ascii) (s : string) : bool :=
  boundary prev (first_char s) &&
  match after_literal "503" s with
  | Some rest => boundary (Some "3"%char) (first_char rest)
  | None => false
  end.

(** The search tries every start position from left to right. *)
Fixpoint match_from (prev : option ascii) (s : string) : bool :=
  match_here prev s ||
  match s with
  | EmptyString => false
  | String c rest => match_from (Some c) rest
  end.

(** Truthiness of [line.match(/\b503\b/)]. *)
Definition matches (line : string) : bool := match_from None line.

End Regex503.

(** ** JavaScript numbers that result from a division *)

Module JsNumber.

(** A number is a finite value or one of the three non-finite ones.  Finite
    values are exact rationals; signed zeros are not distinguished. *)
Inductive number :=
| Finite (q : Q)
| PosInfinity
| NegInfinity
| NaN.

Definition of_Z (z : Z) : number := Finite (inject_Z z).

Definition is_negative (x : number) : bool :=
  match x with
  | Finite q => negb (Qle_bool 0 q)
  | NegInfinity => true
  | PosInfinity | NaN => false
  end.

Definition infinity (negative : bool) : number :=
  if negative then NegInfinity else PosInfinity.

(** [a / b].  A zero divisor gives [NaN] or an infinity, never an exception. *)
Definition div (a b : number) : number :=
  match a, b with
  | NaN, _ | _, NaN => NaN
  | Finite x, Finite y =>
      if Qeq_bool y 0
      then (if Qeq_bool x 0 then NaN else infinity (is_negative a))
      else Finite (x / y)
  | Finite _, (PosInfinity | NegInfinity) => Finite 0
  | (PosInfinity | NegInfinity), Finite _ =>
      infinity (xorb (is_negative a) (is_negative b))
  | (PosInfinity | NegInfinity), (PosInfinity | NegInfinity) => NaN
  end.

(** Decimal digits of a natural number, without leading zeros (["0"] for 0). *)
Definition decimal (n : N) : string :=
  NilEmpty.string_of_uint (N.to_uint n).

(** [count] copies of the digit zero. *)
Fixpoint zeros (count : nat) : string :=
  match count with
  | O => EmptyString
  | S k => String "0" (zeros k)
  end.

(** [padStart(width, "0")]. *)
Definition pad (width : nat) (s : string) : string :=
  zeros (width - String.length s) ++ s.

(** How the platform prints the numbers this development does not print: those
    of magnitude 10^21 or more and those that are not integers (both involve
    the digits of the nearest double). *)
Class Platform := number_to_string_other : Q -> string.

Definition ten21 : Z := 10 ^ 21.

Section WithPlatform.
Context {platform : Platform}.

(** [String(x)] for a finite number: integers below 10^21 in magnitude print
    in decimal. *)
Definition toString (q : Q) : string :=
  let n := (Qnum q / Zpos (Qden q))%Z in
  if Qeq_bool q (inject_Z n) && (Z.abs n <? ten21)%Z
  then ((if (n <? 0)%Z then "-" else "") ++ decimal (Z.abs_N n))
  else number_to_string_other q.

(** [x.toFixed(2)], following Number.prototype.toFixed with fractionDigits 2:
    the sign, then the integer [n] nearest to [|x| * 100] (the larger one on a
    tie), printed with the point before its last two digits. *)
Definition toFixed2 (x : number) : string :=
  match x with
  | NaN => "NaN"
  | PosInfinity => "Infinity"
  | NegInfinity => "-Infinity"
  | Finite q =>
      let s := if is_negative x then "-" else "" in
      let q := Qabs q in
      if Qle_bool (inject_Z ten21) q then s ++ toString q
      else
        let n := Qfloor (q * 100 + (1 # 2))%Q in
        let m := if (n =? 0)%Z then "0" else decimal (Z.to_N n) in
        let m := if (String.length m <=? 2)%nat then pad 3 m else m in
        let k := String.length m in
        let a := substring 0 (k - 2) m in
        let b := substring (k - 2) 2 m in
        s ++ a ++ "." ++ b
  end.

End WithPlatform.

End JsNumber.

(** ** IEEE binary64 numbers

  The numbers [calculateMTTR] computes with are doubles; the primitive
  floats are the binary64 format, with the operations rounded to nearest,
  ties to even, as in JavaScript. *)

Module Binary64.

(** The double of an integer, exact below 2^53 in magnitude (every valid
    time value and every array length is). *)
Definition of_Z (z : Z) : float :=
  if (z <? 0)%Z then PrimFloat.opp (PrimFloat.of_uint63 (Uint63.of_Z (- z)))
  else PrimFloat.of_uint63 (Uint63.of_Z z).

(** The power of two [2^e] as a rational. *)
Definition pow2 (e : Z) : Q :=
  if (0 <=? e)%Z then inject_Z (2 ^ e) else 1 # Z.to_pos (2 ^ (- e)).

(** The exact value of a double: its mantissa times a power of two, an
    infinity, or [NaN]; both zeros are the number 0. *)
Definition to_number (x : float) : JsNumber.number :=
  match Prim2SF x with
  | S754_zero _ => JsNumber.Finite 0
  | S754_infinity negative => JsNumber.infinity negative
  | S754_nan => JsNumber.NaN
  | S754_finite negative m e =>
      JsNumber.Finite (inject_Z (if negative then Zneg m else Zpos m) * pow2 e)
  end.

End Binary64.

(** ** [Date]: the time value and [toISOString] *)

Module JsDate.

(** A [Date] object is its time value, milliseconds since the epoch (UTC).
    Date objects are never [null]: every Date is truthy. *)
Definition msPerDay : Z := 86400000.

(** The largest magnitude of a valid time value. *)
Definition maxTime : Z := 8640000000000000.

Definition valid (t : Z) : Prop := (- maxTime <= t <= maxTime)%Z.

(** Year, month (1-12) and day (1-31) of the proleptic Gregorian calendar for
    a day number counted from 1970-01-01. *)
Definition civil_from_days (day : Z) : Z * Z * Z :=
  let z := (day + 719468)%Z in
  let era := (z / 146097)%Z in
  let doe := (z - era * 146097)%Z in
  let yoe := ((doe - doe / 1460 + doe / 36524 - doe / 146096) / 365)%Z in
  let y := (yoe + era * 400)%Z in
  let doy := (doe - (365 * yoe + yoe / 4 - yoe / 100))%Z in
  let mp := ((5 * doy + 2) / 153)%Z in
  let d := (doy - (153 * mp + 2) / 5 + 1)%Z in
  let m := if (mp <? 10)%Z then (mp + 3)%Z else (mp - 9)%Z in
  (if (m <=? 2)%Z then (y + 1)%Z else y, m, d).

Definition digits (width : nat) (n : Z) : string :=
  JsNumber.pad width (JsNumber.decimal (Z.to_N n)).

(** Years 0 to 9999 print with four digits, the others with a sign and six. *)
Definition year_string (y : Z) : string :=
  if (0 <=? y)%Z && (y <=? 9999)%Z then digits 4 y
  else (if (y <? 0)%Z then "-" else "+") ++ digits 6 (Z.abs y).

(** [d.toISOString()]: [YYYY-MM-DDTHH:mm:ss.sssZ]. *)
Definition toISOString (t : Z) : string :=
  let day := (t / msPerDay)%Z in
  let ms := (t mod msPerDay)%Z in
  let '(y, m, d) := civil_from_days day in
  year_string y ++ "-" ++ digits 2 m ++ "-" ++ digits 2 d ++ "T"
  ++ digits 2 (ms / 3600000) ++ ":" ++ digits 2 (ms / 60000 mod 60) ++ ":"
  ++ digits 2 (ms / 1000 mod 60) ++ "." ++ digits 3 (ms mod 1000) ++ "Z".

End JsDate.

(** ** [src/logParser.js] *)

Module LogParser.
Import JsString JsNumber.

Definition parseOriginErrors (logContent : string) : list string :=
  let lines := split lf logContent in
  let originErrors :=
    List.filter (fun line => includes line " 503 " || Regex503.matches line) lines in
  originErrors.

Record CachePerformance := {
  hitRate : number;
  hitCount : nat;
  missCount : nat
}.

(** One iteration of the [forEach] body on the two counters. *)
Definition tally (counts : nat * nat) (line : string) : nat * nat :=
  let '(hitCount, missCount) := counts in
  if includes line "HIT" then (S hitCount, missCount)
  else if includes line "MISS" then (hitCount, S missCount)
  else (hitCount, missCount).

Definition analyzeCachePerformance (logs : list string) : CachePerformance :=
  let '(hitCount, missCount) := fold_left tally logs (0, 0)%nat in
  let total := (hitCount + missCount)%nat in
  let hitRate :=
    if (0 <? total)%nat
    then div (of_Z (Z.of_nat hitCount)) (of_Z (Z.of_nat total))
    else Finite 0 in
  {| hitRate := hitRate; hitCount := hitCount; missCount := missCount |}.

End LogParser.

(** ** [src/incidentTracker.js] *)

Module IncidentTracker.
Import JsString JsNumber.

(** The incident object literal of [createIncident].  [resolutionTime] and
    [rca] are [null] ([None]) until the incident is resolved. *)
Record Incident := {
  id : Z;
  title : string;
  severity : string;
  affectedServices : list string;
  detectionTime : Z;
  resolutionTime : option Z;
  rca : option string
}.

(** [this.incidents], initialised to the empty array by the constructor. *)
Definition constructor : list Incident := [].

(** The values passed as the [id] argument of [resolveIncident], documented
    as [{string|number}]. *)
Inductive Value :=
| VNumber (n : Z)
| VString (s : string).

(** [stored === v] for a stored numeric identifier: operands of different
    types are never strictly equal. *)
Definition strict_equals (stored : Z) (v : Value) : bool :=
  match v with
  | VNumber n => (stored =? n)%Z
  | VString _ => false
  end.

(** Truthiness of a value that is [null] or a Date object. *)
Definition truthy_date (d : option Z) : bool :=
  match d with Some _ => true | None => false end.

(** Truthiness of a value that is [null] or a string: the empty string is
    falsy. *)
Definition truthy_string (s : option string) : bool :=
  match s with
  | Some (String _ _) => true
  | Some EmptyString | None => false
  end.

(** [resolutionTime - detectionTime]: Dates convert to their time values and
    [null] to 0; the difference is a double. *)
Definition date_minus (resolution : option Z) (detection : Z) : float :=
  (match resolution with Some r => Binary64.of_Z r | None => 0 end
   - Binary64.of_Z detection)%float.

Definition createIncident (now : Z) (title severity : string)
    (affectedServices : list string) (incidents : list Incident)
  : Incident * list Incident :=
  let incident := {|
    id := (Z.of_nat (length incidents) + 1)%Z;
    title := title;
    severity := severity;
    affectedServices := affectedServices;
    detectionTime := now;
    resolutionTime := None;
    rca := None
  |} in
  (incident, (incidents ++ [incident])%list).

(** The assignments of [resolveIncident] to the found object. *)
Definition resolved_at (now : Z) (rca : string) (incident : Incident) : Incident :=
  {|
    id := id incident;
    title := title incident;
    severity := severity incident;
    affectedServices := affectedServices incident;
    detectionTime := detectionTime incident;
    resolutionTime := Some now;
    rca := Some rca
  |}.

(** The result is the found object as it is when the call returns ([None] for
    [undefined]) and the array after the call; the object found at index [i]
    is updated in place. *)
Definition resolveIncident (now : Z) (ident : Value) (rca : string)
    (incidents : list Incident) : option Incident * list Incident :=
  match list_find (fun inc => Is_true (strict_equals (id inc) ident)) incidents with
  | Some (i, incident) =>
      if negb (truthy_date (resolutionTime incident))
      then
        let incident := resolved_at now rca incident in
        (Some incident, <[i := incident]> incidents)
      else (Some incident, incidents)
  | None => (None, incidents)
  end.

(** The differences of the time values, their sum accumulated from 0 by
    [reduce], and the two quotients are doubles, each operation rounded. *)
Definition calculateMTTR (incidents : list Incident) : float :=
  let resolved := List.filter (fun inc => truthy_date (resolutionTime inc)) incidents in
  if (length resolved =? 0)%nat then 0%float
  else
    let totalResolutionTime :=
      fold_left
        (fun sum inc => (sum + date_minus (resolutionTime inc) (detectionTime inc))%float)
        resolved 0%float in
    (totalResolutionTime / Binary64.of_Z (Z.of_nat (length resolved))
     / Binary64.of_Z (1000 * 60 * 60))%float.

Section WithPlatform.
Context {platform : Platform}.

(** The text one [forEach] iteration appends to [report]. *)
Definition incident_section (inc : Incident) : string :=
  ("## Incident #" ++ toString (inject_Z (id inc)) ++ ": " ++ title inc ++ nl)
  ++ ("- **Severity:** " ++ severity inc ++ nl)
  ++ ("- **Affected Services:** " ++ join ", " (affectedServices inc) ++ nl)
  ++ ("- **Detection Time:** " ++ JsDate.toISOString (detectionTime inc) ++ nl)
  ++ ("- **Resolution Time:** "
      ++ match resolutionTime inc with
         | Some r => JsDate.toISOString r
         | None => "Unresolved"
         end ++ nl)
  ++ ("- **RCA:** "
      ++ (if truthy_string (rca inc)
          then match rca inc with Some text => text | None => "" end
          else "Pending") ++ nl ++ nl).

(** [toFixed(2)] prints the exact value of the double [calculateMTTR]
    returns. *)
Definition generateMarkdownReport (incidents : list Incident) : string :=
  let report := "# Incident Report" ++ nl ++ nl in
  let report := fold_left (fun report inc => report ++ incident_section inc) incidents report in
  let report :=
    report ++ "**MTTR:** "
    ++ toFixed2 (Binary64.to_number (calculateMTTR incidents))
    ++ " hours" ++ nl in
  report.

End WithPlatform.

(** *** The computation without rounding

  What [calculateMTTR] and [generateMarkdownReport] would give if the sum
  and the two quotients were exact, as the specification reads them: the
  arithmetic mean as a rational number.  These are not the code; the
  properties below say in which respects the code agrees with them. *)

Definition date_minus_exact (resolution : option Z) (detection : Z) : Z :=
  (match resolution with Some r => r | None => 0 end - detection)%Z.

Definition calculateMTTR_exact (incidents : list Incident) : number :=
  let resolved := List.filter (fun inc => truthy_date (resolutionTime inc)) incidents in
  if (length resolved =? 0)%nat then Finite 0
  else
    let totalResolutionTime :=
      fold_left
        (fun sum inc => (sum + date_minus_exact (resolutionTime inc) (detectionTime inc))%Z)
        resolved 0%Z in
    div (div (of_Z totalResolutionTime) (of_Z (Z.of_nat (length resolved))))
        (of_Z (1000 * 60 * 60)).

Section WithPlatformExact.
Context {platform : Platform}.

Definition generateMarkdownReport_exact (incidents : list Incident) : string :=
  let report := "# Incident Report" ++ nl ++ nl in
  let report := fold_left (fun report inc => report ++ incident_section inc) incidents report in
  let report :=
    report ++ "**MTTR:** " ++ toFixed2 (calculateMTTR_exact incidents) ++ " hours" ++ nl in
  report.

End WithPlatformExact.

(** Sequences of calls on one tracker, each with the clock reading at the
    call. *)
Inductive call :=
| Create (title severity : string) (affectedServices : list string)
| Resolve (ident : Value) (rca : string).

Definition step (incidents : list Incident) (c : Z * call) : list Incident :=
  match c with
  | (now, Create title severity affectedServices) =>
      snd (createIncident now title severity affectedServices incidents)
  | (now, Resolve ident rca) => snd (resolveIncident now ident rca incidents)
  end.

Definition run (calls : list (Z * call)) (incidents : list Incident) : list Incident :=
  fold_left step calls incidents.

End IncidentTracker.

(** ** [checkAPIHealth] *)

Module HealthCheck.

(** A promise is described by the way it ends: it stays pending for ever, or
    it settles at some instant of the event loop, fulfilled with a value or
    rejected with an error. *)
Record Error := { message : string }.

Inductive outcome (A : Type) :=
| Fulfilled (value : A)
| Rejected (reason : Error).

Inductive promise (A : Type) :=
| Pending
| Settled (instant : Z) (result : outcome A).

Arguments Fulfilled {A} value.
Arguments Rejected {A} reason.
Arguments Pending {A}.
Arguments Settled {A} instant result.

(** Of two promises, the one that settles first; the left one when both
    settle at the same instant. *)
Definition first_settled {A} (p q : promise A) : promise A :=
  match p, q with
  | Pending, _ => q
  | Settled _ _, Pending => p
  | Settled tp _, Settled tq _ => if (tp <=? tq)%Z then p else q
  end.

(** [Promise.race(ps)] settles as the first of [ps] to settle does. *)
Definition race {A} (ps : list (promise A)) : promise A :=
  foldr first_settled Pending ps.

(** The earliest rejection among [ps]. *)
Definition rejection_of {A} (p : promise A) : promise (list A) :=
  match p with
  | Settled t (Rejected e) => Settled t (Rejected e)
  | _ => Pending
  end.

(** The values of [ps] and the instant the last one is fulfilled, when all
    are fulfilled; [t0] is the instant of the call. *)
Fixpoint fulfilments {A} (t0 : Z) (ps : list (promise A)) : option (Z * list A) :=
  match ps with
  | [] => Some (t0, [])
  | Settled t (Fulfilled v) :: rest =>
      match fulfilments t0 rest with
      | Some (t', vs) => Some (Z.max t t', v :: vs)
      | None => None
      end
  | _ :: _ => None
  end.

(** [Promise.all(ps)], called at instant [t0]: rejected as soon as one of
    [ps] is, fulfilled with all values in the order of [ps] once every one
    is fulfilled, pending otherwise. *)
Definition all {A} (t0 : Z) (ps : list (promise A)) : promise (list A) :=
  match race (map rejection_of ps) with
  | Settled t r => Settled t r
  | Pending =>
      match fulfilments t0 ps with
      | Some (t, vs) => Settled t (Fulfilled vs)
      | None => Pending
      end
  end.

(** The [Response] of [fetch]; [ok] is true for the statuses 200 to 299. *)
Record Response := { response_status : Z }.

Definition response_ok (r : Response) : bool :=
  (200 <=? response_status r)%Z && (response_status r <=? 299)%Z.

(** What the function sees of the platform during one call: the instant of
    the call, the instant at which the callback of the [k]-th URL starts, the
    reading of [Date.now()] at each instant, how the [k]-th [fetch] ends, and
    the instant at which the [k]-th timer, set with a given delay, fires. *)
Record World := {
  call_instant : Z;
  start_instant : nat -> Z;
  clock : Z -> Z;
  fetch : nat -> string -> promise Response;
  timer_fires : nat -> Z -> Z
}.

Record ApiHealthResult := {
  url : string;
  status : option Z;
  responseTime : Z;
  healthy : bool;
  error : option string
}.

Section WithWorld.
Context (w : World).

(** The promise built around [setTimeout]: rejected with [Error('Timeout')]
    when the timer fires. *)
Definition timeout_promise (k : nat) (timeout : Z) : promise Response :=
  Settled (timer_fires w k timeout) (Rejected {| message := "Timeout" |}).

Definition fetchWithTimeout (k : nat) (url : string) (timeout : Z) : promise Response :=
  race [fetch w k url; timeout_promise k timeout].

(** The [async] callback of [urls.map], for the [k]-th URL: it resumes at the
    instant the awaited promise settles, in the [try] branch or in the
    [catch] branch. *)
Definition probe (timeout : Z) (k : nat) (url : string) : promise ApiHealthResult :=
  let start := clock w (start_instant w k) in
  match fetchWithTimeout k url timeout with
  | Settled t (Fulfilled response) =>
      let responseTime := (clock w t - start)%Z in
      Settled t (Fulfilled {|
        url := url;
        status := Some (response_status response);
        responseTime := responseTime;
        healthy := response_ok response;
        error := None
      |})
  | Settled t (Rejected error) =>
      let responseTime := (clock w t - start)%Z in
      Settled t (Fulfilled {|
        url := url;
        status := None;
        responseTime := responseTime;
        healthy := false;
        error := Some (message error)
      |})
  | Pending => Pending
  end.

(** [timeout] is [None] when the argument is omitted. *)
Definition checkAPIHealth (urls : list string) (timeout : option Z)
  : promise (list ApiHealthResult) :=
  let timeout := default 5000%Z timeout in
  let results := all (call_instant w) (imap (probe timeout) urls) in
  results.

End WithWorld.

End HealthCheck.

(** * Vocabulary of the properties *)

Section StringVocabulary.
Import JsString Regex503.

(** The last character of [pre], or [prev] when [pre] is empty. *)
Fixpoint last_char (prev : option ascii) (pre : string) : option ascii :=
  match pre with
  | EmptyString => prev
  | String c rest => last_char (Some c) rest
  end.

(** The log of the specification's example: three lines, each ended by a line
    feed. *)
Definition sample_log : string :=
  "a 503 b" ++ nl ++ "ok" ++ nl ++ "c503d" ++ nl.

End StringVocabulary.

Section TrackerVocabulary.
Import JsString JsNumber IncidentTracker.
Local Open Scope list_scope.
Local Open Scope Z_scope.

(** The arguments of one [createIncident] call and the clock reading at the
    call. *)
Record creation := {
  at_time : Z;
  with_title : string;
  with_severity : string;
  with_services : list string
}.

Definition create_call (a : creation) : Z * call :=
  (at_time a, Create (with_title a) (with_severity a) (with_services a)).

(** The record the call number [n] (counted from 0) is to return. *)
Definition created (n : nat) (a : creation) : Incident := {|
  id := Z.of_nat n + 1;
  title := with_title a;
  severity := with_severity a;
  affectedServices := with_services a;
  detectionTime := at_time a;
  resolutionTime := None;
  rca := None
|}.

(** The invariant behind the order of the two times: with the clock at [t] or
    later, every incident was detected at [t] or before and, when resolved,
    not before its detection. *)
Definition times_ordered (t : Z) (incidents : list Incident) : Prop :=
  forall inc, inc ∈ incidents ->
    detectionTime inc <= t
    /\ forall r, resolutionTime inc = Some r -> detectionTime inc <= r.

(** A run during which the clock is set back by five seconds: the incident
    is created when it reads 1700000005000 and resolved when it reads
    1700000000000. *)
Definition clock_set_back : list (Z * call) :=
  [(1700000005000, Create "origin down" "high" ["cdn"]);
   (1700000000000, Resolve (VNumber 1) "restarted")].

(** A run with two incidents, the first of them resolved twice. *)
Definition sample_calls : list (Z * call) :=
  [(1000, Create "origin down" "high" ["cdn"; "origin"]);
   (1500, Create "slow cache" "low" ["cache"]);
   (3601000, Resolve (VNumber 1) "bad deploy");
   (3602000, Resolve (VNumber 1) "second opinion")].

(** Three incidents: the first resolved one hour after its detection, the
    second three hours after its detection, the third unresolved. *)
Definition one_and_three_hours : list (Z * call) :=
  [(1700000000000, Create "origin down" "high" ["origin"]);
   (1700000500000, Create "slow cache" "low" ["cache"]);
   (1700003600000, Resolve (VNumber 1) "bad deploy");
   (1700004000000, Create "dns" "medium" ["dns"]);
   (1700011300000, Resolve (VNumber 2) "cold cache")].

(** An incident resolved with the empty string as rca. *)
Definition empty_rca_calls : list (Z * call) :=
  [(1700000000000, Create "origin down" "high" ["cdn"; "origin"]);
   (1700003600000, Resolve (VNumber 1) "")]%Z.

(** Milliseconds from detection to resolution, for a resolved incident. *)
Definition delay (inc : Incident) : option Z :=
  match resolutionTime inc with
  | Some r => Some (r - detectionTime inc)%Z
  | None => None
  end.

(** The delays of the resolved incidents, in the order of the array. *)
Definition delays (incidents : list Incident) : list Z := omap delay incidents.

(** Every time value of the array is one a Date can hold. *)
Definition dates_valid (incidents : list Incident) : Prop :=
  forall inc, inc ∈ incidents ->
    JsDate.valid (detectionTime inc)
    /\ forall r, resolutionTime inc = Some r -> JsDate.valid r.

End TrackerVocabulary.

Section MeanVocabulary.
Import JsNumber.
Local Open Scope list_scope.

Definition hours (ms : Z) : Q := inject_Z ms / inject_Z 3600000.

Definition Zsum (l : list Z) : Z := foldr Z.add 0%Z l.
Definition Qsum (l : list Q) : Q := foldr Qplus 0%Q l.

(** The arithmetic mean of a list of rationals. *)
Definition mean (l : list Q) : Q := Qsum l / inject_Z (Z.of_nat (length l)).

End MeanVocabulary.

Section PrintingVocabulary.
Import JsString JsNumber IncidentTracker.

Definition is_digit (c : ascii) : bool :=
  (48 <=? nat_of_ascii c)%nat && (nat_of_ascii c <=? 57)%nat.

Fixpoint all_digits (s : string) : bool :=
  match s with
  | EmptyString => true
  | String c rest => is_digit c && all_digits rest
  end.

(** The shape of a number printed with two decimals: an optional minus sign,
    one digit or more, a point, two digits. *)
Definition two_decimals (s : string) : Prop :=
  exists sign whole frac,
    s = sign ++ whole ++ "." ++ frac
    /\ (sign = "" \/ sign = "-")
    /\ whole <> "" /\ all_digits whole = true
    /\ String.length frac = 2%nat /\ all_digits frac = true.

(** The text made of the given lines, each ended by a line feed. *)
Definition unlines (lines : list string) : string :=
  foldr (fun line rest => line ++ nl ++ rest) "" lines.

(** A platform for the closed examples below; none of them prints a number
    through it. *)
Definition example_platform : Platform := fun _ => "1e+21".

(** The RCA field as the report shows it: the rca text when there is one and
    it is not empty, and [Pending] otherwise. *)
Definition rca_shown (inc : Incident) : string :=
  match rca inc with
  | Some text => if String.eqb text "" then "Pending" else text
  | None => "Pending"
  end.

(** The RCA field as C6 words it: the rca text, or [Pending] when there is
    none. *)
Definition rca_as_specified (inc : Incident) : string :=
  match rca inc with
  | Some text => text
  | None => "Pending"
  end.

Context {platform : Platform}.

(** The lines of the section of one incident, for a given way to show the
    RCA field; the section ends with an empty line. *)
Definition section_lines_with (show_rca : Incident -> string) (inc : Incident)
  : list string :=
  [ "## Incident #" ++ toString (inject_Z (id inc)) ++ ": " ++ title inc;
    "- **Severity:** " ++ severity inc;
    "- **Affected Services:** " ++ join ", " (affectedServices inc);
    "- **Detection Time:** " ++ JsDate.toISOString (detectionTime inc);
    "- **Resolution Time:** "
      ++ match resolutionTime inc with
         | Some r => JsDate.toISOString r
         | None => "Unresolved"
         end;
    "- **RCA:** " ++ show_rca inc;
    "" ].

Definition section_lines : Incident -> list string := section_lines_with rca_shown.

(** The lines of a whole report without rounding: the title and an empty
    line, the sections in the order of the array, and the MTTR line of
    [calculateMTTR_exact]. *)
Definition report_lines_exact (show_rca : Incident -> string)
    (incidents : list Incident) : list string :=
  (["# Incident Report"; ""]
   ++ concat (map (section_lines_with show_rca) incidents)
   ++ [("**MTTR:** " ++ toFixed2 (calculateMTTR_exact incidents) ++ " hours")%string])%list.

End PrintingVocabulary.

Section Binary64Vocabulary.
Import JsString JsNumber IncidentTracker Binary64.
Local Open Scope list_scope.

(** The difference resolution time - detection time of a resolved incident,
    as the double the code computes; and these doubles for the resolved
    incidents of an array, in the order of the array. *)
Definition delay_binary64 (inc : Incident) : option float :=
  match resolutionTime inc with
  | Some r => Some (Binary64.of_Z r - Binary64.of_Z (detectionTime inc))%float
  | None => None
  end.

Definition delays_binary64 (incidents : list Incident) : list float :=
  omap delay_binary64 incidents.

(** The sum of doubles accumulated from 0, from left to right. *)
Definition sum_binary64 (ds : list float) : float :=
  fold_left (fun sum d => (sum + d)%float) ds 0%float.

(** Three incidents detected at the same time and resolved one, two and four
    seconds later. *)
Definition one_two_four_seconds : list (Z * call) :=
  [(1700000000000, Create "a" "low" []); (1700000000000, Create "b" "low" []);
   (1700000000000, Create "c" "low" []);
   (1700000001000, Resolve (VNumber 1) "x"); (1700000002000, Resolve (VNumber 2) "y");
   (1700000004000, Resolve (VNumber 3) "z")]%Z.

(** One incident, resolved 54 seconds after its detection. *)
Definition fifty_four_seconds : list (Z * call) :=
  [(1700000000000, Create "origin down" "high" ["cdn"]);
   (1700000054000, Resolve (VNumber 1) "restarted")]%Z.

(** Three incidents whose delays are 2^53 ms, 1 ms and 1 ms, in this order;
    every time is a valid Date value and the clock never goes back. *)
Definition long_delay_first : list (Z * call) :=
  [(-4503599627370496, Create "a" "low" []);
   (4503599627370496, Resolve (VNumber 1) "x");
   (4503599627370496, Create "b" "low" []);
   (4503599627370496, Create "c" "low" []);
   (4503599627370497, Resolve (VNumber 2) "y");
   (4503599627370497, Resolve (VNumber 3) "z")]%Z.

(** Three incidents whose delays are 1 ms, 1 ms and 2^53 ms, in this
    order. *)
Definition long_delay_last : list (Z * call) :=
  [(-4503599627370496, Create "b" "low" []);
   (-4503599627370496, Create "c" "low" []);
   (-4503599627370496, Create "a" "low" []);
   (-4503599627370495, Resolve (VNumber 1) "y");
   (-4503599627370495, Resolve (VNumber 2) "z");
   (4503599627370496, Resolve (VNumber 3) "x")]%Z.

Context {platform : Platform}.

(** The lines of the report: the title and an empty line, the sections in
    the order of the array, and the MTTR line, printed from the double
    [calculateMTTR] returns. *)
Definition report_lines_with (show_rca : Incident -> string)
    (incidents : list Incident) : list string :=
  ["# Incident Report"; ""]
  ++ concat (map (section_lines_with show_rca) incidents)
  ++ [("**MTTR:** " ++ toFixed2 (to_number (calculateMTTR incidents))
       ++ " hours")%string].

End Binary64Vocabulary.

Section FloatVocabulary.
Local Open Scope Z_scope.

(** The integer [N], of magnitude below 2^53, as a double. *)
Definition Zcanon (N : Z) : spec_float :=
  match N with
  | Z0 => S754_zero false
  | Zpos p =>
      S754_finite false (Z.to_pos (Zpos p * 2 ^ (53 - Zpos (digits2_pos p))))
        (Zpos (digits2_pos p) - 53)
  | Zneg p =>
      S754_finite true (Z.to_pos (Zpos p * 2 ^ (53 - Zpos (digits2_pos p))))
        (Zpos (digits2_pos p) - 53)
  end.

(** The value of a double in units of 2^-1074, the smallest positive
    double: an integer. *)
Definition SF_scaled (x : spec_float) : Z :=
  match x with
  | S754_finite s m e => cond_Zopp s (Zpos m * 2 ^ (e + 1074))
  | _ => 0
  end.

(** The doubles that are numbers: neither [NaN] nor an infinity. *)
Definition SF_is_finite (x : spec_float) : Prop :=
  match x with
  | S754_zero _ | S754_finite _ _ _ => True
  | _ => False
  end.

(** The same for a primitive float, through its specification. *)
Definition scaled (x : float) : Z := SF_scaled (Prim2SF x).
Definition is_finite (x : float) : Prop := SF_is_finite (Prim2SF x).

End FloatVocabulary.

Section HealthVocabulary.
Import HealthCheck.
Local Open Scope list_scope.
Local Open Scope Z_scope.

(** [p] is fulfilled with the value [v]. *)
Definition fulfilled_with {A} (p : promise A) (v : A) : Prop :=
  exists t, p = Settled t (Fulfilled v).

(** The example of the specification: called at instant 0 with a timeout of
    100, [http://fast] answers 200 after 10 ms and [http://slow] never
    answers. *)
Definition fast_and_slow : World := {|
  call_instant := 0;
  start_instant := fun _ => 0;
  clock := fun t => 1700000000000 + t;
  fetch := fun k _ =>
    match k with
    | O => Settled 10 (Fulfilled {| response_status := 200 |})
    | _ => Pending
    end;
  timer_fires := fun _ delay => 0 + delay
|}.

End HealthVocabulary.

(** * Properties *)

(** ** Strings *)

Section StringFacts.
Import JsString.

Lemma append_assoc (a b c : string) : (a ++ b) ++ c = a ++ b ++ c.
Proof. induction a as [|x a IH]; simpl; [reflexivity | now rewrite IH]. Qed.

Lemma append_empty_r (a : string) : a ++ "" = a.
Proof. induction a as [|x a IH]; simpl; [reflexivity | now rewrite IH]. Qed.

Lemma startsWith_spec (s p : string) :
  startsWith s p = true <-> exists b, s = p ++ b.
Proof.
  revert s; induction p as [|x p IH]; intros s; simpl.
  - split; [intros _; now exists s | reflexivity].
  - destruct s as [|y s].
    + split; [discriminate | intros [b Hb]; discriminate].
    + rewrite andb_true_iff, Ascii.eqb_eq, IH. split.
      * intros [-> [b ->]]. now exists b.
      * intros [b Hb]. injection Hb as -> ->. split; [reflexivity | now exists b].
Qed.

Lemma includes_spec (s p : string) :
  includes s p = true <-> contains p s.
Proof.
  unfold contains. induction s as [|c s IH].
  - simpl. rewrite orb_false_r, startsWith_spec. split.
    + intros [b Hb]. now exists "", b.
    + intros [[|x a] [b Hb]]; [now exists b | discriminate].
  - cbn [includes]. rewrite orb_true_iff, startsWith_spec, IH. split.
    + intros [[b Hb] | (a & b & Hab)].
      * now exists "", b.
      * exists (String c a), b. simpl. now rewrite Hab.
    + intros [[|x a] [b Hb]].
      * left. now exists b.
      * right. injection Hb as -> Hs. now exists a, b.
Qed.

#[global] Instance contains_dec (p s : string) : Decision (contains p s).
Proof.
  destruct (includes s p) eqn:E.
  - left. now apply includes_spec.
  - right. intros H. apply includes_spec in H. congruence.
Defined.

Lemma split_nonempty (c : ascii) (s : string) : split c s <> [].
Proof.
  destruct s as [|x s]; cbn [split]; [discriminate |].
  destruct (Ascii.eqb x c); [discriminate |].
  destruct (split c s); discriminate.
Qed.

Lemma join_cons (sep p : string) (ps : list string) :
  ps <> [] -> join sep (p :: ps) = p ++ sep ++ join sep ps.
Proof. destruct ps; [congruence | reflexivity]. Qed.

(** Splitting and joining with the separator are inverse. *)
Lemma join_split (c : ascii) (s : string) :
  join (String c "") (split c s) = s.
Proof.
  induction s as [|x s IH]; [reflexivity |].
  cbn [split]. pose proof (split_nonempty c s) as Hne.
  destruct (Ascii.eqb_spec x c) as [-> | Hxc].
  - rewrite join_cons by assumption. simpl. now rewrite IH.
  - destruct (split c s) as [|p ps]; [congruence |].
    destruct ps as [|p' ps].
    + simpl in *. now rewrite IH.
    + rewrite join_cons by discriminate. rewrite join_cons in IH by discriminate.
      cbn [append] in *. now f_equal.
Qed.

(** No piece of a split holds the separator. *)
Lemma split_pieces (c : ascii) (s piece : string) :
  In piece (split c s) -> ~ contains (String c "") piece.
Proof.
  revert piece; induction s as [|x s IH]; intros piece.
  - intros [<- | []] (a & b & H). destruct a; discriminate.
  - cbn [split]. destruct (Ascii.eqb_spec x c) as [-> | Hne].
    + intros [<- | Hin]; [| now apply IH].
      intros (a & b & H). destruct a; discriminate.
    + destruct (split c s) as [|p ps] eqn:E.
      * intros [<- | []] (a & b & H).
        destruct a as [|y [|z a]]; try discriminate. injection H as -> _. congruence.
      * intros [<- | Hin]; [| apply IH; now right].
        intros ([|y a] & b & H); injection H as -> H; [congruence |].
        apply (IH p); [now left | now exists a, b].
Qed.

End StringFacts.

(** ** The pattern [/\b503\b/] *)

Section RegexFacts.
Import JsString Regex503.

Lemma after_literal_spec (p s rest : string) :
  after_literal p s = Some rest <-> s = p ++ rest.
Proof.
  revert s; induction p as [|a p IH]; intros s; simpl.
  - split; congruence.
  - destruct s as [|b s]; [split; discriminate |].
    destruct (Ascii.eqb_spec a b) as [<- | Hab].
    + rewrite IH. split; [now intros -> | now intros [= ->]].
    + split; [discriminate | intros [= E _]; congruence].
Qed.

Lemma match_here_spec (prev : option ascii) (s : string) :
  match_here prev s = true <->
  exists post, s = "503" ++ post
    /\ side_is_word prev = false /\ side_is_word (first_char post) = false.
Proof.
  unfold match_here. destruct (after_literal "503" s) as [rest|] eqn:E.
  - apply after_literal_spec in E. subst s. cbn [append first_char].
    unfold boundary. change (side_is_word (Some "5"%char)) with true.
    change (side_is_word (Some "3"%char)) with true.
    split.
    + intros H. exists rest.
      destruct (side_is_word prev), (side_is_word (first_char rest));
        try discriminate H; repeat split.
    + intros (post & [= ->] & -> & ->). reflexivity.
  - rewrite andb_false_r. split; [discriminate |].
    intros (post & Hs & _). apply after_literal_spec in Hs. congruence.
Qed.

(** A line matches exactly when it holds [503] with no word character right
    before it and none right after it. *)
Lemma match_from_spec (prev : option ascii) (s : string) :
  match_from prev s = true <->
  exists pre post, s = pre ++ "503" ++ post
    /\ side_is_word (last_char prev pre) = false
    /\ side_is_word (first_char post) = false.
Proof.
  revert prev; induction s as [|c s IH]; intros prev.
  - cbn [match_from]. rewrite orb_false_r, match_here_spec. split.
    + intros (post & H & _). discriminate.
    + intros ([|x pre] & post & H & _); discriminate.
  - cbn [match_from]. rewrite orb_true_iff, match_here_spec, IH. split.
    + intros [(post & H & H1 & H2) | (pre & post & H & H1 & H2)].
      * now exists "", post.
      * exists (String c pre), post. cbn [append last_char]. now rewrite H.
    + intros ([|x pre] & post & H & H1 & H2).
      * left. now exists post.
      * right. injection H as -> H. now exists pre, post.
Qed.

Lemma last_char_app (prev : option ascii) (a : string) (c : ascii) :
  last_char prev (a ++ String c "") = Some c.
Proof. revert prev; induction a as [|x a IH]; intros prev; cbn; [reflexivity | apply IH]. Qed.

(** The first test of the filter is covered by the second: a line that holds
    [" 503 "] matches the pattern. *)
Lemma includes_503_matches (line : string) :
  includes line " 503 " = true -> matches line = true.
Proof.
  intros (a & b & ->)%includes_spec. apply match_from_spec.
  exists (a ++ " "), (" " ++ b). split; [| split].
  - rewrite append_assoc. reflexivity.
  - now rewrite last_char_app.
  - reflexivity.
Qed.

End RegexFacts.

(** ** The log parser *)

Section LogParserFacts.
Import JsString JsNumber LogParser.

(** C1, as the specification states it, fails: on the sample log
    [parseOriginErrors] does not return the two lines ["a 503 b"] and
    ["c503d"]; the line ["c503d"] is not returned at all. *)
Lemma parseOriginErrors_sample_not_two_lines :
  parseOriginErrors sample_log <> ["a 503 b"; "c503d"]
  /\ ~ In "c503d" (parseOriginErrors sample_log).
Proof.
  split.
  - vm_compute. discriminate.
  - vm_compute. intros [H | []]. discriminate H.
Qed.

(** C1 (amended): on the sample log [parseOriginErrors] returns exactly the
    one line ["a 503 b"]; the lines ["ok"] and ["c503d"] (where [503] stands
    between two word characters, so that neither test of the filter holds)
    and the empty piece after the last line feed are excluded. *)
Theorem parseOriginErrors_sample :
  parseOriginErrors sample_log = ["a 503 b"]
  /\ split lf sample_log = ["a 503 b"; "ok"; "c503d"; ""]
  /\ includes "c503d" " 503 " = false
  /\ Regex503.matches "c503d" = false.
Proof. repeat split; vm_compute; reflexivity. Qed.

(** The counters after the [forEach], started from any values. *)
Lemma fold_tally (logs : list string) (h m : nat) :
  fold_left tally logs (h, m) =
  ((h + length (filter (contains "HIT") logs))%nat,
   (m + length (filter (fun l => ~ contains "HIT" l /\ contains "MISS" l) logs))%nat).
Proof.
  revert h m; induction logs as [|line logs IH]; intros h m.
  - simpl. now rewrite !Nat.add_0_r.
  - cbn [fold_left]. unfold tally at 2. rewrite !filter_cons.
    destruct (includes line "HIT") eqn:Hhit.
    + apply includes_spec in Hhit.
      rewrite IH, decide_True by assumption.
      rewrite decide_False by tauto. cbn [length]. f_equal; lia.
    + assert (~ contains "HIT" line) as Hno
        by (intros H; apply includes_spec in H; congruence).
      rewrite (decide_False (P := contains "HIT" line)) by assumption.
      destruct (includes line "MISS") eqn:Hmiss.
      * apply includes_spec in Hmiss.
        rewrite IH, decide_True by tauto. cbn [length]. f_equal; lia.
      * rewrite IH, decide_False; [reflexivity |].
        intros [_ H]. apply includes_spec in H. congruence.
Qed.

(** C8: [hitCount] is the number of lines that contain ["HIT"], [missCount]
    the number of lines that contain ["MISS"] and not ["HIT"], and [hitRate]
    is [hitCount / (hitCount + missCount)], or 0 when both counts are zero;
    on [["HIT"; "MISS"; "HIT"; "other"]] the result is 2, 1 and 2/3. *)
Theorem analyzeCachePerformance_counts (logs : list string) :
  let r := analyzeCachePerformance logs in
  let hits := length (filter (contains "HIT") logs) in
  let misses :=
    length (filter (fun l => ~ contains "HIT" l /\ contains "MISS" l) logs) in
  hitCount r = hits
  /\ missCount r = misses
  /\ hitRate r =
      (if decide ((hits + misses)%nat = 0%nat) then Finite 0
       else Finite (inject_Z (Z.of_nat hits) / inject_Z (Z.of_nat (hits + misses))))
  /\ analyzeCachePerformance ["HIT"; "MISS"; "HIT"; "other"]
     = {| hitRate := Finite (2 # 3); hitCount := 2; missCount := 1 |}.
Proof.
  intros r hits misses. subst r. unfold analyzeCachePerformance.
  rewrite fold_tally. cbn [Nat.add]. fold hits misses. cbn [hitCount missCount hitRate].
  repeat split.
  destruct (decide ((hits + misses)%nat = 0%nat)) as [E | E].
  - rewrite E. reflexivity.
  - destruct (Nat.ltb_spec 0 (hits + misses)) as [Hlt | Hge]; [| lia].
    unfold div, of_Z.
    destruct (Qeq_bool (inject_Z (Z.of_nat (hits + misses))) 0) eqn:Hz; [| reflexivity].
    apply Qeq_bool_eq in Hz. unfold Qeq in Hz. simpl in Hz. lia.
Qed.

End LogParserFacts.

(** ** The incident tracker: [resolveIncident] *)

Section ResolveFacts.
Import JsString JsNumber IncidentTracker.
Local Open Scope list_scope.

(** An identifier argument that no incident of the array matches. *)
Lemma resolveIncident_not_found (incidents : list Incident) (now : Z)
    (ident : Value) (rca : string) :
  (forall inc, inc ∈ incidents -> strict_equals (id inc) ident = false) ->
  resolveIncident now ident rca incidents = (None, incidents).
Proof.
  intros Hnone. unfold resolveIncident.
  destruct (list_find _ incidents) as [[i inc]|] eqn:E; [| reflexivity].
  apply list_find_Some in E as (Hi & Hp & _).
  apply list_elem_of_lookup_2, Hnone in Hi. rewrite Hi in Hp. contradiction.
Qed.

(** The first incident that matches is the one found. *)
Lemma resolveIncident_find (before after : list Incident) (inc : Incident)
    (ident : Value) :
  (forall other, other ∈ before -> strict_equals (id other) ident = false) ->
  strict_equals (id inc) ident = true ->
  list_find (fun x => Is_true (strict_equals (id x) ident)) (before ++ inc :: after)
  = Some (length before, inc).
Proof.
  intros Hbefore Hinc. apply list_find_Some. split; [| split].
  - now rewrite list_lookup_middle.
  - now rewrite Hinc.
  - intros j y Hj Hlt Hy. rewrite lookup_app_l in Hj by assumption.
    apply list_elem_of_lookup_2, Hbefore in Hj. rewrite Hj in Hy. contradiction.
Qed.

Lemma resolveIncident_unresolved (before after : list Incident) (inc : Incident)
    (now : Z) (ident : Value) (rca : string) :
  (forall other, other ∈ before -> strict_equals (id other) ident = false) ->
  strict_equals (id inc) ident = true ->
  resolutionTime inc = None ->
  resolveIncident now ident rca (before ++ inc :: after)
  = (Some (resolved_at now rca inc), before ++ resolved_at now rca inc :: after).
Proof.
  intros Hbefore Hinc Hres. unfold resolveIncident.
  rewrite resolveIncident_find by assumption. rewrite Hres. cbn [truthy_date negb].
  f_equal. replace (length before) with (length before + 0)%nat by lia.
  now rewrite insert_app_r.
Qed.

Lemma resolveIncident_resolved (before after : list Incident) (inc : Incident)
    (now : Z) (ident : Value) (rca : string) :
  (forall other, other ∈ before -> strict_equals (id other) ident = false) ->
  strict_equals (id inc) ident = true ->
  is_Some (resolutionTime inc) ->
  resolveIncident now ident rca (before ++ inc :: after)
  = (Some inc, before ++ inc :: after).
Proof.
  intros Hbefore Hinc [r Hres]. unfold resolveIncident.
  rewrite resolveIncident_find by assumption. now rewrite Hres.
Qed.

(** The array splits at the incident that [find] returns. *)
Lemma find_split (incidents : list Incident) (ident : Value) (i : nat) (inc : Incident) :
  list_find (fun x => Is_true (strict_equals (id x) ident)) incidents = Some (i, inc) ->
  exists before after,
    incidents = before ++ inc :: after
    /\ length before = i
    /\ (forall other, other ∈ before -> strict_equals (id other) ident = false)
    /\ strict_equals (id inc) ident = true.
Proof.
  intros (Hi & Hp & Hleast)%list_find_Some.
  exists (take i incidents), (drop (S i) incidents).
  assert (i < length incidents)%nat as Hlt by eauto using lookup_lt_Some.
  split; [| split; [| split]].
  - now rewrite <- (take_drop_middle incidents i inc) at 1.
  - rewrite length_take. lia.
  - intros other (j & Hj)%list_elem_of_lookup.
    apply lookup_take_Some in Hj as [Hj Hji].
    specialize (Hleast j other Hj Hji).
    destruct (strict_equals (id other) ident); [exfalso; now apply Hleast | reflexivity].
  - destruct (strict_equals (id inc) ident); [reflexivity | contradiction].
Qed.

(** Resolving twice: the second call returns what the first returned and
    changes nothing. *)
Lemma resolveIncident_twice (incidents : list Incident) (now now' : Z)
    (ident : Value) (rca rca' : string) :
  resolveIncident now' ident rca' (snd (resolveIncident now ident rca incidents))
  = resolveIncident now ident rca incidents.
Proof.
  destruct (list_find (fun x => Is_true (strict_equals (id x) ident)) incidents)
    as [[i inc]|] eqn:E.
  - apply find_split in E as (before & after & -> & _ & Hbefore & Hinc).
    destruct (resolutionTime inc) as [r|] eqn:Hres.
    + rewrite (resolveIncident_resolved _ _ _ now) by (rewrite ?Hres; eauto).
      cbn [snd]. apply resolveIncident_resolved; rewrite ?Hres; eauto.
    + rewrite (resolveIncident_unresolved _ _ _ now) by assumption.
      cbn [snd]. apply resolveIncident_resolved; cbn; eauto.
  - assert (resolveIncident now ident rca incidents = (None, incidents)) as ->.
    { unfold resolveIncident. now rewrite E. }
    unfold resolveIncident. cbn [snd]. now rewrite E.
Qed.

(** A stored identifier is strictly equal to a number when it is that
    number. *)
Lemma strict_equals_number (stored n : Z) :
  strict_equals stored (VNumber n) = true <-> stored = n.
Proof. cbn. apply Z.eqb_eq. Qed.

Lemma strict_equals_other_number (stored n : Z) :
  stored <> n -> strict_equals stored (VNumber n) = false.
Proof. cbn. apply Z.eqb_neq. Qed.

(** C2: [resolveIncident(id, rca)] on any array.  When no incident has the
    number [n] as identifier, the call with [n] returns [undefined] and
    leaves the array as it is; so does every call with a string, which no
    stored identifier equals.  When some incident has identifier [n], the
    call finds the first such incident: when that one is unresolved, it gets
    the current time as resolution time and the given text as rca, at its
    place in the array, and is returned; when it is resolved already, it is
    returned as it is and the array is unchanged (the new rca is dropped).
    A second call with the same identifier, at any time and with any rca,
    changes nothing and returns the same record. *)
Theorem resolveIncident_contract (incidents : list Incident) (now : Z) (rca : string) :
  (forall n : Z,
     (forall inc, inc ∈ incidents -> id inc <> n) ->
     resolveIncident now (VNumber n) rca incidents = (None, incidents))
  /\ (forall s : string,
       resolveIncident now (VString s) rca incidents = (None, incidents))
  /\ (forall (n : Z) before inc after,
       incidents = before ++ inc :: after ->
       (forall other, other ∈ before -> id other <> n) ->
       id inc = n ->
       (resolutionTime inc = None ->
        let updated := {|
          id := n;
          title := title inc;
          severity := severity inc;
          affectedServices := affectedServices inc;
          detectionTime := detectionTime inc;
          resolutionTime := Some now;
          IncidentTracker.rca := Some rca
        |} in
        resolveIncident now (VNumber n) rca incidents
        = (Some updated, before ++ updated :: after))
       /\ (is_Some (resolutionTime inc) ->
           resolveIncident now (VNumber n) rca incidents = (Some inc, incidents)))
  /\ (forall (ident : Value) now' rca',
       resolveIncident now' ident rca' (snd (resolveIncident now ident rca incidents))
       = resolveIncident now ident rca incidents).
Proof.
  split; [| split; [| split]].
  - intros n Hnone. apply resolveIncident_not_found.
    intros inc Hin. now apply strict_equals_other_number, Hnone.
  - intros s. now apply resolveIncident_not_found.
  - intros n before inc after -> Hbefore Hinc.
    assert (forall other, other ∈ before -> strict_equals (id other) (VNumber n) = false)
      as Hbefore' by (intros other Hin; now apply strict_equals_other_number, Hbefore).
    assert (strict_equals (id inc) (VNumber n) = true) as Hinc'
      by now apply strict_equals_number.
    split.
    + intros Hres. cbn zeta. subst n. now apply resolveIncident_unresolved.
    + intros Hres. now apply resolveIncident_resolved.
  - intros ident now' rca'. apply resolveIncident_twice.
Qed.

(** Two incidents, created at 1000 and 1500.  No incident has identifier 3;
    resolving number 2 at 5000 updates the second record in place; resolving
    it again at 6000 with another rca returns that record as it is. *)
Lemma resolveIncident_contract_witness :
  let first := created 0 {| at_time := 1000; with_title := "origin down";
                            with_severity := "high";
                            with_services := ["cdn"; "origin"]%string |} in
  let second := created 1 {| at_time := 1500; with_title := "slow cache";
                             with_severity := "low";
                             with_services := ["cache"]%string |} in
  let resolved := {|
    id := 2;
    title := "slow cache";
    severity := "low";
    affectedServices := ["cache"]%string;
    detectionTime := 1500;
    resolutionTime := Some 5000%Z;
    IncidentTracker.rca := Some "cold cache"
  |} in
  resolveIncident 5000 (VNumber 3) "cold cache" [first; second] = (None, [first; second])
  /\ resolveIncident 5000 (VNumber 2) "cold cache" [first; second]
     = (Some resolved, [first; resolved])
  /\ resolveIncident 6000 (VNumber 2) "second opinion" [first; resolved]
     = (Some resolved, [first; resolved]).
Proof.
  cbn zeta.
  set (first := created 0 {| at_time := 1000; with_title := "origin down";
                             with_severity := "high";
                             with_services := ["cdn"; "origin"]%string |}).
  set (second := created 1 {| at_time := 1500; with_title := "slow cache";
                              with_severity := "low";
                              with_services := ["cache"]%string |}).
  set (resolved := {|
    id := 2;
    title := "slow cache";
    severity := "low";
    affectedServices := ["cache"]%string;
    detectionTime := 1500;
    resolutionTime := Some 5000%Z;
    IncidentTracker.rca := Some "cold cache"
  |}).
  assert (forall inc, inc ∈ [first; second] -> id inc <> 3%Z) as Hnone.
  { intros inc Hin. apply elem_of_cons in Hin as [-> | Hin]; [discriminate |].
    apply elem_of_cons in Hin as [-> | Hin]; [discriminate |].
    now apply elem_of_nil in Hin. }
  assert (forall other, other ∈ [first] -> id other <> 2%Z) as Hbefore.
  { intros other Hin. apply elem_of_cons in Hin as [-> | Hin]; [discriminate |].
    now apply elem_of_nil in Hin. }
  split; [| split].
  - exact (proj1 (resolveIncident_contract [first; second] 5000 "cold cache") 3%Z Hnone).
  - exact (proj1 (proj1 (proj2 (proj2 (resolveIncident_contract
             [first; second] 5000 "cold cache")))
             2%Z [first] second [] eq_refl Hbefore eq_refl) eq_refl).
  - exact (proj2 (proj1 (proj2 (proj2 (resolveIncident_contract
             [first; resolved] 6000 "second opinion")))
             2%Z [first] resolved [] eq_refl Hbefore eq_refl)
             (ex_intro _ 5000%Z eq_refl)).
Defined.

Context {platform : Platform}.

(** C9: the identifier is compared with [===], so a string never equals a
    stored (numeric) identifier: called with a string, and in particular with
    the decimal form of the identifier of an incident of the array (which the
    number itself does find), [resolveIncident] returns [undefined] and
    leaves every incident as it is. *)
Theorem resolveIncident_string_identifier (incidents : list Incident) (now : Z)
    (rca : string) :
  (forall s, resolveIncident now (VString s) rca incidents = (None, incidents))
  /\ (forall inc, inc ∈ incidents ->
       resolveIncident now (VString (toString (inject_Z (id inc)))) rca incidents
       = (None, incidents)
       /\ is_Some (fst (resolveIncident now (VNumber (id inc)) rca incidents))).
Proof.
  assert (forall s, resolveIncident now (VString s) rca incidents = (None, incidents))
    as Hstring by (intros s; now apply resolveIncident_not_found).
  split; [exact Hstring |]. intros inc Hin. split; [apply Hstring |].
  unfold resolveIncident.
  destruct (list_find _ incidents) as [[i found]|] eqn:E.
  - destruct (negb _); cbn; eauto.
  - apply list_find_None in E. rewrite Forall_forall in E.
    exfalso. apply (E inc Hin). cbn. now rewrite Z.eqb_refl.
Qed.

End ResolveFacts.

(** ** The incident tracker: sequences of calls *)

Section TraceFacts.
Import JsString JsNumber IncidentTracker.
Local Open Scope list_scope.
Local Open Scope Z_scope.

Lemma run_app (calls more : list (Z * call)) (incidents : list Incident) :
  run (calls ++ more) incidents = run more (run calls incidents).
Proof. unfold run. apply fold_left_app. Qed.

(** What one call does to the object at index [i]: a resolved incident is
    never touched again, and a call only ever changes the resolution time and
    the rca of an unresolved one. *)
Lemma step_lookup (incidents : list Incident) (c : Z * call) (i : nat) (inc : Incident) :
  incidents !! i = Some inc ->
  step incidents c !! i = Some inc
  \/ (resolutionTime inc = None
      /\ exists rca, step incidents c !! i = Some (resolved_at (fst c) rca inc)).
Proof.
  intros Hi. destruct c as [now [t s a | ident text]]; cbn [step fst].
  - left. cbn. now apply lookup_app_l_Some.
  - unfold resolveIncident.
    destruct (list_find _ incidents) as [[j found]|] eqn:E; [| now left].
    apply list_find_Some in E as (Hj & _ & _).
    destruct (resolutionTime found) as [r|] eqn:Hres; cbn [truthy_date negb snd];
      [now left |].
    destruct (decide (j = i)) as [-> | Hne].
    + right. assert (found = inc) as -> by congruence. split; [assumption |].
      exists text. apply list_lookup_insert_eq. eauto using lookup_lt_Some.
    + left. now rewrite list_lookup_insert_ne.
Qed.

Lemma step_resolved (incidents : list Incident) (c : Z * call) (i : nat) (inc : Incident) :
  incidents !! i = Some inc -> is_Some (resolutionTime inc) ->
  step incidents c !! i = Some inc.
Proof.
  intros Hi [r Hr]. destruct (step_lookup incidents c i inc Hi) as [H | [H _]];
    [assumption | congruence].
Qed.

Lemma run_resolved (calls : list (Z * call)) (incidents : list Incident)
    (i : nat) (inc : Incident) :
  incidents !! i = Some inc -> is_Some (resolutionTime inc) ->
  run calls incidents !! i = Some inc.
Proof.
  revert incidents; induction calls as [|c calls IH]; intros incidents Hi Hr;
    [assumption |].
  cbn. apply IH; [| assumption]. now apply step_resolved.
Qed.

(** Every object of the array after a call was there before it, possibly
    just resolved by this call, or was created by this call. *)
Lemma step_elem_of (incidents : list Incident) (c : Z * call) (inc' : Incident) :
  inc' ∈ step incidents c ->
  inc' ∈ incidents
  \/ (exists inc rca, inc ∈ incidents /\ resolutionTime inc = None
        /\ inc' = resolved_at (fst c) rca inc)
  \/ (detectionTime inc' = fst c /\ resolutionTime inc' = None).
Proof.
  destruct c as [now [t s a | ident text]]; cbn [step fst].
  - cbn. rewrite elem_of_app, list_elem_of_singleton.
    intros [H | ->]; [now left | right; right; now split].
  - unfold resolveIncident.
    destruct (list_find _ incidents) as [[j found]|] eqn:E; [| now left].
    apply list_find_Some in E as (Hj & _ & _).
    destruct (resolutionTime found) as [r|] eqn:Hres; cbn [truthy_date negb snd];
      [now left |].
    intros (k & Hk)%list_elem_of_lookup.
    apply list_lookup_insert_Some in Hk as [(-> & <- & _) | (Hne & Hk)].
    + right; left. exists found, text. eauto using list_elem_of_lookup_2.
    + left. eauto using list_elem_of_lookup_2.
Qed.

Lemma step_times_ordered (t : Z) (incidents : list Incident) (c : Z * call) :
  t <= fst c -> times_ordered t incidents -> times_ordered (fst c) (step incidents c).
Proof.
  intros Ht Hinv inc' Hin.
  apply step_elem_of in Hin as [Hin | [(inc & rca & Hin & Hres & ->) | [Hd Hr]]].
  - destruct (Hinv _ Hin) as [Hd Hr]. split; [lia | assumption].
  - destruct (Hinv _ Hin) as [Hd _]. cbn. split; [lia |]. intros r [= <-]. lia.
  - split; [lia |]. intros r Hsome. congruence.
Qed.

Lemma run_times_ordered (calls : list (Z * call)) (t : Z) (incidents : list Incident) :
  Sorted Z.le (t :: map fst calls) ->
  times_ordered t incidents ->
  exists t', times_ordered t' (run calls incidents).
Proof.
  revert t incidents; induction calls as [|c calls IH]; intros t incidents Hs Hinv.
  - now exists t.
  - cbn [map] in Hs. apply Sorted_inv in Hs as [Hs Hhd].
    apply HdRel_inv in Hhd. cbn [run fold_left].
    apply (IH (fst c)); [assumption |]. now apply (step_times_ordered t).
Qed.

(** C3, as the specification states it, fails: [new Date()] reads the wall
    clock, which can be set back between two calls; the incident of
    [clock_set_back] has a resolution time before its detection time. *)
Lemma resolution_before_detection :
  exists inc r,
    inc ∈ run clock_set_back constructor
    /\ resolutionTime inc = Some r /\ r < detectionTime inc.
Proof.
  eexists _, 1700000000000. split; [apply list_elem_of_here |].
  split; [reflexivity |]. vm_compute. reflexivity.
Qed.

(** C3 (amended): after any sequence of [createIncident] and
    [resolveIncident] calls on a fresh tracker during which the clock
    readings never decrease, every incident with a resolution time has it at
    or after its detection time; and, whatever the clock does, once an
    incident has a resolution time no further call changes that incident:
    its resolution time and its rca are assigned once and never reset. *)
Theorem resolution_time_invariant (calls : list (Z * call)) :
  (Sorted Z.le (map fst calls) ->
   forall inc r,
     inc ∈ run calls constructor -> resolutionTime inc = Some r ->
     detectionTime inc <= r)
  /\ (forall (more : list (Z * call)) i inc,
       run calls constructor !! i = Some inc -> is_Some (resolutionTime inc) ->
       run (calls ++ more) constructor !! i = Some inc).
Proof.
  split.
  - intros Hsorted inc r Hin Hr.
    destruct calls as [|c calls]; [now apply elem_of_nil in Hin |].
    destruct (run_times_ordered calls (fst c) (step constructor c)) as [t' Hinv].
    + exact Hsorted.
    + apply (step_times_ordered (fst c)); [lia |]. intros x Hx. now apply elem_of_nil in Hx.
    + now apply (Hinv inc Hin).
  - intros more i inc Hi Hr. rewrite run_app. now apply run_resolved.
Qed.

(** The theorem at [sample_calls], whose clock readings increase, and at
    [clock_set_back], whose clock readings do not: there the incident,
    resolved at 1700000000000, stays as it is when it is resolved again
    later with another rca. *)
Lemma resolution_time_invariant_witness :
  Sorted Z.le (map fst sample_calls)
  /\ (forall inc r,
       inc ∈ run sample_calls constructor -> resolutionTime inc = Some r ->
       detectionTime inc <= r)
  /\ run sample_calls constructor !! 0%nat
     = Some {| id := 1; title := "origin down"; severity := "high";
               affectedServices := ["cdn"; "origin"]; detectionTime := 1000;
               resolutionTime := Some 3601000; rca := Some "bad deploy" |}
  /\ ~ Sorted Z.le (map fst clock_set_back)
  /\ run (clock_set_back ++ [(1700000009000, Resolve (VNumber 1) "second opinion")])
       constructor !! 0%nat
     = Some {| id := 1; title := "origin down"; severity := "high";
               affectedServices := ["cdn"]; detectionTime := 1700000005000;
               resolutionTime := Some 1700000000000; rca := Some "restarted" |}.
Proof.
  assert (Sorted Z.le (map fst sample_calls)) as Hs
    by (repeat constructor; cbn; lia).
  split; [exact Hs |]. split; [| split; [| split]].
  - exact (proj1 (resolution_time_invariant sample_calls) Hs).
  - reflexivity.
  - intros Hsorted. cbn in Hsorted. apply Sorted_inv in Hsorted as [_ Hhd].
    apply HdRel_inv in Hhd. lia.
  - exact (proj2 (resolution_time_invariant clock_set_back)
             [(1700000009000, Resolve (VNumber 1) "second opinion")] 0%nat
             {| id := 1; title := "origin down"; severity := "high";
                affectedServices := ["cdn"]; detectionTime := 1700000005000;
                resolutionTime := Some 1700000000000; rca := Some "restarted" |}
             eq_refl (ex_intro _ 1700000000000 eq_refl)).
Defined.

End TraceFacts.

(** ** The incident tracker: [createIncident] *)

Section CreateFacts.
Import JsString JsNumber IncidentTracker.
Local Open Scope list_scope.
Local Open Scope Z_scope.

Lemma run_creates (args : list creation) (incidents : list Incident) :
  run (map create_call args) incidents
  = incidents ++ imap (fun n => created (length incidents + n)) args.
Proof.
  revert incidents; induction args as [|a args IH]; intros incidents.
  - cbn. now rewrite app_nil_r.
  - cbn [map run fold_left]. fold (run (map create_call args)).
    cbn [step create_call createIncident snd]. rewrite IH, imap_cons, <- app_assoc.
    cbn [app]. f_equal. f_equal.
    + unfold created. now rewrite Nat.add_0_r.
    + apply imap_ext. intros n b _. cbn. rewrite length_app. cbn [length].
      f_equal. lia.
Qed.

Lemma run_creates_fresh (args : list creation) :
  run (map create_call args) constructor = imap created args.
Proof. rewrite run_creates. reflexivity. Qed.

(** C5: on a fresh tracker, the [n]-th [createIncident] call (the first being
    number 1) returns a record with identifier [n], the clock reading of the
    call as detection time, no resolution time and no rca, and pushes it at
    the end of the array; so the array holds the returned records in the
    order of the calls, with identifiers that increase along it and are
    pairwise distinct. *)
Theorem createIncident_sequence (args : list creation) :
  let incidents := run (map create_call args) constructor in
  incidents = imap created args
  /\ (forall n a, args !! n = Some a ->
       let before := run (map create_call (take n args)) constructor in
       createIncident (at_time a) (with_title a) (with_severity a) (with_services a) before
       = ({| id := Z.of_nat (S n);
             title := with_title a;
             severity := with_severity a;
             affectedServices := with_services a;
             detectionTime := at_time a;
             resolutionTime := None;
             rca := None |},
          before ++ [created n a]))
  /\ (forall i j x y,
       incidents !! i = Some x -> incidents !! j = Some y -> (i < j)%nat ->
       id x < id y)
  /\ NoDup (map id incidents).
Proof.
  intros incidents. subst incidents. rewrite run_creates_fresh.
  assert (forall i x, imap created args !! i = Some x -> id x = Z.of_nat i + 1) as Hid.
  { intros i x. rewrite list_lookup_imap. destruct (args !! i); [| discriminate].
    now intros [= <-]. }
  split; [reflexivity | split; [| split]].
  - intros n a Hn before. subst before. rewrite run_creates_fresh.
    unfold createIncident.
    assert (length (imap created (take n args)) = n) as ->.
    { rewrite length_imap, length_take. apply lookup_lt_Some in Hn. lia. }
    replace (Z.of_nat (S n)) with (Z.of_nat n + 1) by lia. reflexivity.
  - intros i j x y Hi Hj Hlt. rewrite (Hid i x Hi), (Hid j y Hj). lia.
  - apply NoDup_alt. intros i j v. rewrite !list_lookup_fmap.
    destruct (imap created args !! i) as [x|] eqn:Hi; [| discriminate].
    destruct (imap created args !! j) as [y|] eqn:Hj; [| discriminate].
    cbn. intros [= <-] [= Hv]. rewrite (Hid i x Hi), (Hid j y Hj) in Hv. lia.
Qed.

End CreateFacts.

(** ** The incident tracker: the mean time to recovery without rounding *)

Section MttrFacts.
Import JsString JsNumber IncidentTracker.
Local Open Scope list_scope.

Lemma delays_cons (inc : Incident) (incidents : list Incident) :
  delays (inc :: incidents) =
  match delay inc with
  | Some d => d :: delays incidents
  | None => delays incidents
  end.
Proof. reflexivity. Qed.

Lemma filter_resolved_length (incidents : list Incident) :
  length (List.filter (fun inc => truthy_date (resolutionTime inc)) incidents)
  = length (delays incidents).
Proof.
  induction incidents as [|inc incidents IH]; [reflexivity |].
  cbn [List.filter]. rewrite delays_cons. unfold delay.
  destruct (resolutionTime inc); cbn [truthy_date length]; [f_equal |]; exact IH.
Qed.

Lemma filter_resolved_total (incidents : list Incident) (start : Z) :
  fold_left
    (fun sum inc => (sum + date_minus_exact (resolutionTime inc) (detectionTime inc))%Z)
    (List.filter (fun inc => truthy_date (resolutionTime inc)) incidents) start
  = (start + Zsum (delays incidents))%Z.
Proof.
  revert start; induction incidents as [|inc incidents IH]; intros start.
  - cbn. lia.
  - cbn [List.filter]. rewrite delays_cons. unfold delay.
    destruct (resolutionTime inc) as [r|] eqn:Hr; cbn [truthy_date fold_left].
    + rewrite IH, Hr. unfold Zsum, date_minus_exact. cbn [foldr]. lia.
    + apply IH.
Qed.

(** The value of [calculateMTTR_exact], in terms of the delays. *)
Lemma calculateMTTR_delays (incidents : list Incident) :
  calculateMTTR_exact incidents =
  match delays incidents with
  | [] => Finite 0
  | ds => Finite (inject_Z (Zsum ds) / inject_Z (Z.of_nat (length ds))
                  / inject_Z 3600000)
  end.
Proof.
  unfold calculateMTTR_exact. rewrite filter_resolved_length, filter_resolved_total.
  destruct (delays incidents) as [|d ds] eqn:E; [reflexivity |].
  cbn [length Nat.eqb]. cbn [Z.add]. unfold div, of_Z.
  assert (Qeq_bool (inject_Z (Z.of_nat (S (length ds)))) 0 = false) as ->.
  { apply not_true_is_false. intros H%Qeq_bool_eq. unfold Qeq in H. cbn in H. lia. }
  reflexivity.
Qed.

Lemma Qsum_hours (ds : list Z) :
  Qsum (map hours ds) == inject_Z (Zsum ds) / inject_Z 3600000.
Proof.
  induction ds as [|d ds IH].
  - reflexivity.
  - cbn [map Qsum Zsum foldr]. fold (Qsum (map hours ds)). fold (Zsum ds).
    rewrite IH, inject_Z_plus. unfold hours. field.
Qed.

(** Without rounding, that is with the sum and the two quotients taken
    exactly, the result would be 0 when no incident is resolved, and
    otherwise the arithmetic mean, over the incidents with a resolution
    time, of (resolution time - detection time) / 3,600,000. *)
Lemma calculateMTTR_mean (incidents : list Incident) :
  (delays incidents = [] -> calculateMTTR_exact incidents = Finite 0)
  /\ (exists q,
       calculateMTTR_exact incidents = Finite q
       /\ (delays incidents <> [] -> q == mean (map hours (delays incidents))))
  /\ (delays incidents = [3600000; 10800000]%Z
      \/ delays incidents = [10800000; 3600000]%Z ->
      exists q, calculateMTTR_exact incidents = Finite q /\ q == 2).
Proof.
  rewrite calculateMTTR_delays. split; [| split].
  - now intros ->.
  - destruct (delays incidents) as [|d ds] eqn:E.
    + exists 0%Q. split; [reflexivity | congruence].
    + eexists. split; [reflexivity |]. intros _.
      unfold mean. rewrite Qsum_hours, length_map.
      assert (~ inject_Z (Z.of_nat (length (d :: ds))) == 0) as Hn
        by (unfold Qeq; cbn; lia).
      field. exact Hn.
  - intros [-> | ->]; eexists; (split; [reflexivity | reflexivity]).
Qed.

(** The value of the specification's example: exactly 2 without rounding,
    and the double 2 as the code computes it. *)
Lemma calculateMTTR_one_and_three_hours :
  delays (run one_and_three_hours constructor) = [3600000; 10800000]%Z
  /\ calculateMTTR_exact (run one_and_three_hours constructor) = Finite (14400000 # 7200000)
  /\ calculateMTTR (run one_and_three_hours constructor) = 2%float.
Proof. repeat split; vm_compute; reflexivity. Qed.

End MttrFacts.

(** ** Binary64 arithmetic: exact integers and bounds

  What the properties of [calculateMTTR] need of the IEEE binary64
  operations, from their specification in the standard library
  ([SpecFloat], [FloatAxioms]): integers of magnitude below 2^53 are doubles
  and add and subtract without rounding; and rounding never passes a number
  the format holds, so sums and quotients stay within such bounds. *)

Section Binary64Arithmetic.
Local Open Scope Z_scope.

Lemma digits2_size p : digits2_pos p = Pos.size p.
Proof. induction p; cbn; congruence. Qed.

Lemma digits2_log2 p : Zpos (digits2_pos p) = Z.log2 (Zpos p) + 1.
Proof. rewrite digits2_size. destruct p; cbn; lia. Qed.

Lemma digits2_bounds p :
  2 ^ (Zpos (digits2_pos p) - 1) <= Zpos p < 2 ^ Zpos (digits2_pos p).
Proof.
  rewrite digits2_log2. replace (Z.log2 (Z.pos p) + 1 - 1) with (Z.log2 (Z.pos p)) by lia.
  pose proof (Z.log2_spec (Zpos p) ltac:(lia)). unfold Z.succ in *. lia.
Qed.

Lemma iter_pos_nat {A} (f : A -> A) p x :
  SpecFloat.iter_pos f p x = Nat.iter (Pos.to_nat p) f x.
Proof.
  revert x; induction p as [p IH|p IH|]; intros x; cbn [SpecFloat.iter_pos].
  - rewrite !IH, Pos2Nat.inj_xI. 
    replace (S (2 * Pos.to_nat p))%nat with (Pos.to_nat p + (Pos.to_nat p + 1))%nat by lia.
    rewrite !Nat.iter_add. reflexivity.
  - rewrite !IH, Pos2Nat.inj_xO.
    replace (2 * Pos.to_nat p)%nat with (Pos.to_nat p + Pos.to_nat p)%nat by lia.
    rewrite Nat.iter_add. reflexivity.
  - reflexivity.
Qed.

Lemma shr_1_m r : 0 <= shr_m r -> shr_m (shr_1 r) = shr_m r / 2.
Proof.
  destruct r as [m rb sb]. cbn [shr_m]. intros Hm.
  destruct m as [|[p|p|]|]; cbn [shr_1 shr_m]; try lia.
  - reflexivity.
  - apply Z.div_unique with (r := 1); lia.
  - apply Z.div_unique with (r := 0); lia.
  - reflexivity.
Qed.

Lemma shr_1_even m :
  0 <= m -> m mod 2 = 0 ->
  shr_1 (Build_shr_record m false false) = Build_shr_record (m / 2) false false.
Proof.
  intros Hm Heven. destruct m as [|[p|p|]|]; cbn [shr_1 orb]; try lia.
  - reflexivity.
  - exfalso. rewrite Pos2Z.inj_xI in Heven.
    rewrite Z.add_comm, Z.mul_comm, Z.mod_add in Heven by lia. discriminate.
  - f_equal. apply Z.div_unique with (r := 0); lia.
  - discriminate.
Qed.

Lemma shr_iter_m n r :
  0 <= shr_m r -> shr_m (Nat.iter n shr_1 r) = shr_m r / 2 ^ Z.of_nat n.
Proof.
  intros Hm. induction n as [|n IH].
  - cbn. now rewrite Z.div_1_r.
  - cbn [Nat.iter nat_rect]. rewrite shr_1_m.
    + change (nat_rect _ r (fun _ => shr_1) n) with (Nat.iter n shr_1 r).
      rewrite IH, Z.div_div by lia.
      f_equal. rewrite Nat2Z.inj_succ, Z.pow_succ_r; lia.
    + change (nat_rect _ r (fun _ => shr_1) n) with (Nat.iter n shr_1 r).
      rewrite IH. apply Z.div_pos; lia.
Qed.

Lemma shr_iter_exact n m :
  0 <= m -> m mod 2 ^ Z.of_nat n = 0 ->
  Nat.iter n shr_1 (Build_shr_record m false false)
  = Build_shr_record (m / 2 ^ Z.of_nat n) false false.
Proof.
  intros Hm. induction n as [|n IH]; intros Hdiv.
  - cbn. now rewrite Z.div_1_r.
  - rewrite Nat2Z.inj_succ, Z.pow_succ_r in * by lia.
    assert (0 < 2 ^ Z.of_nat n) as Hpos by (apply Z.pow_pos_nonneg; lia).
    apply Z.mod_divide in Hdiv; [| lia]. destruct Hdiv as [k Hk].
    cbn [Nat.iter nat_rect].
    change (nat_rect _ ?r (fun _ => shr_1) n) with (Nat.iter n shr_1 r).
    rewrite IH.
    + assert (m / 2 ^ Z.of_nat n = 2 * k) as Hq.
      { subst m. replace (k * (2 * 2 ^ Z.of_nat n)) with (2 * k * 2 ^ Z.of_nat n) by lia.
        apply Z.div_mul. lia. }
      rewrite shr_1_even.
      * f_equal. rewrite Hq. subst m.
        replace (2 * k) with (k * 2) by lia. rewrite Z.div_mul by lia.
        symmetry. apply Z.div_mul. lia.
      * apply Z.div_pos; lia.
      * rewrite Hq. rewrite Z.mul_comm. apply Z.mod_mul. lia.
    + apply Z.mod_divide; [lia |]. exists (2 * k). lia.
Qed.

Lemma round_nearest_even_bounds m l :
  m <= round_nearest_even m l <= m + 1.
Proof. destruct l as [|[]]; cbn; try destruct (Z.even m); lia. Qed.

Lemma fexp_eq e : fexp prec emax e = Z.max (e - 53) (-1074).
Proof. reflexivity. Qed.

Lemma Zdigits2_nonneg m : 0 <= Zdigits2 m.
Proof. destruct m; cbn; lia. Qed.

Lemma Zdigits2_bounds m :
  0 < m -> 2 ^ (Zdigits2 m - 1) <= m < 2 ^ Zdigits2 m.
Proof. destruct m as [|p|p]; try lia. intros _. apply digits2_bounds. Qed.

Lemma Zdigits2_le m k : 0 <= k -> 0 <= m < 2 ^ k -> Zdigits2 m <= k.
Proof.
  intros Hk [Hm Hlt]. destruct (Z.eq_dec m 0) as [-> | Hne]; [cbn; lia |].
  pose proof (Zdigits2_bounds m ltac:(lia)) as [Hlo _].
  pose proof (Zdigits2_nonneg m).
  destruct (Z.le_gt_cases (Zdigits2 m) k) as [|Hgt]; [assumption | exfalso].
  assert (2 ^ k <= 2 ^ (Zdigits2 m - 1)) by (apply Z.pow_le_mono_r; lia).
  lia.
Qed.

Lemma Zdigits2_ge m k : 0 <= k -> 2 ^ k <= m -> k + 1 <= Zdigits2 m.
Proof.
  intros Hk Hle. assert (0 < 2 ^ k) by (apply Z.pow_pos_nonneg; lia).
  pose proof (Zdigits2_bounds m ltac:(lia)) as [_ Hhi].
  pose proof (Zdigits2_nonneg m).
  destruct (Z.le_gt_cases (k + 1) (Zdigits2 m)) as [|Hgt]; [assumption | exfalso].
  assert (2 ^ Zdigits2 m <= 2 ^ k) by (apply Z.pow_le_mono_r; lia).
  lia.
Qed.

Lemma shr_spec r e n :
  0 <= shr_m r ->
  snd (shr r e n) = e + Z.max n 0
  /\ shr_m (fst (shr r e n)) = shr_m r / 2 ^ Z.max n 0.
Proof.
  intros Hm. destruct n as [|p|p]; cbn [shr fst snd].
  - cbn. rewrite Z.div_1_r. lia.
  - rewrite iter_pos_nat, shr_iter_m by assumption.
    rewrite positive_nat_Z. replace (Z.max (Z.pos p) 0) with (Z.pos p) by lia.
    split; reflexivity.
  - cbn. rewrite Z.div_1_r. lia.
Qed.

Lemma shr_exact m e n :
  0 <= m -> m mod 2 ^ Z.max n 0 = 0 ->
  fst (shr (Build_shr_record m false false) e n)
  = Build_shr_record (m / 2 ^ Z.max n 0) false false.
Proof.
  intros Hm Hdiv. destruct n as [|p|p]; cbn [shr fst].
  - cbn. now rewrite Z.div_1_r.
  - rewrite iter_pos_nat. replace (Z.max (Z.pos p) 0) with (Z.of_nat (Pos.to_nat p)) in * by lia.
    now apply shr_iter_exact.
  - cbn. now rewrite Z.div_1_r.
Qed.

Lemma shr_record_of_loc_m m l : shr_m (shr_record_of_loc m l) = m.
Proof. now destruct l as [|[]]. Qed.

(** Rounding never passes a bound that the format can hold. *)
Lemma binary_round_aux_bound sx m e l bound eB :
  0 <= m -> e <= eB -> -1074 <= eB <= 971 ->
  (2 ^ (eB - e) | bound) -> bound < 2 ^ (53 + eB - e) ->
  (l = loc_Exact /\ m <= bound) \/ m < bound ->
  match binary_round_aux prec emax sx m e l with
  | S754_zero s => s = sx
  | S754_finite s p e3 => s = sx /\ e <= e3 /\ Zpos p * 2 ^ (e3 - e) <= bound
  | _ => False
  end.
Proof.
  intros Hm HeB Hrange [c Hc] Hsmall Hbound.
  unfold binary_round_aux, shr_fexp.
  set (s1 := fexp prec emax (Zdigits2 m + e) - e).
  pose proof (shr_spec (shr_record_of_loc m l) e s1) as Hshr1.
  rewrite shr_record_of_loc_m in Hshr1. specialize (Hshr1 Hm).
  destruct (shr (shr_record_of_loc m l) e s1) as [r1 e1] eqn:E1.
  cbn [fst snd] in Hshr1. destruct Hshr1 as [He1 Hm1].
  set (m2 := round_nearest_even (shr_m r1) (loc_of_shr_record r1)).
  assert (0 < 2 ^ Z.max s1 0) as Hp1 by (apply Z.pow_pos_nonneg; lia).
  assert (0 <= shr_m r1) as Hm1pos by (rewrite Hm1; apply Z.div_pos; lia).
  pose proof (round_nearest_even_bounds (shr_m r1) (loc_of_shr_record r1)) as Hrne.
  fold m2 in Hrne.
  assert (m < 2 ^ (53 + eB - e)) as Hmsmall by lia.
  assert (Zdigits2 m <= 53 + eB - e) as Hd by (apply Zdigits2_le; lia).
  assert (e1 <= eB) as He1B.
  { rewrite He1. subst s1. rewrite fexp_eq. lia. }
  assert (Z.max s1 0 <= eB - e) as Hs1 by lia.
  set (X := c * 2 ^ (eB - e1)).
  assert (bound = X * 2 ^ Z.max s1 0) as HX.
  { subst X. rewrite Hc, <- Z.mul_assoc, <- Z.pow_add_r by lia.
    f_equal. f_equal. lia. }
  assert (m2 * 2 ^ Z.max s1 0 <= bound) as Hm2.
  { assert (m < bound \/ (l = loc_Exact /\ m = bound)) as [Hlt | [-> Heq]].
    { destruct Hbound as [[-> Hle] | Hlt]; [| now left].
      destruct (Z.eq_dec m bound); [now right | left; lia]. }
    - rewrite HX in Hlt. rewrite Z.mul_comm in Hlt.
      apply Z.div_lt_upper_bound in Hlt; [| lia].
      rewrite HX. apply Z.mul_le_mono_nonneg_r; lia.
    - assert (m mod 2 ^ Z.max s1 0 = 0) as Hdiv.
      { rewrite Heq, HX. apply Z.mod_mul. lia. }
      pose proof (shr_exact m e s1 Hm Hdiv) as Hex.
      cbn [shr_record_of_loc] in E1. rewrite E1 in Hex. cbn [fst] in Hex.
      subst m2. rewrite Hex. cbn [shr_m loc_of_shr_record round_nearest_even].
      rewrite HX, Heq, HX, Z.div_mul by lia. lia. }
  set (s2 := fexp prec emax (Zdigits2 m2 + e1) - e1).
  pose proof (shr_spec (shr_record_of_loc m2 loc_Exact) e1 s2) as Hshr2.
  rewrite shr_record_of_loc_m in Hshr2. specialize (Hshr2 ltac:(lia)).
  destruct (shr (shr_record_of_loc m2 loc_Exact) e1 s2) as [r3 e3] eqn:E3.
  cbn [fst snd] in Hshr2. destruct Hshr2 as [He3 Hm3].
  assert (0 < 2 ^ Z.max s2 0) as Hp2 by (apply Z.pow_pos_nonneg; lia).
  assert (0 <= shr_m r3) as Hm3pos by (rewrite Hm3; apply Z.div_pos; lia).
  assert (shr_m r3 * 2 ^ Z.max s2 0 <= m2) as Hm3le.
  { rewrite Hm3, Z.mul_comm. apply Z.mul_div_le. lia. }
  assert (m2 < 2 ^ (53 + eB - e1)) as Hm2small.
  { assert (m2 * 2 ^ Z.max s1 0 < 2 ^ (53 + eB - e1) * 2 ^ Z.max s1 0) as Hlt.
    { rewrite <- Z.pow_add_r by lia. replace (53 + eB - e1 + Z.max s1 0) with (53 + eB - e) by lia.
      lia. }
    apply Z.mul_lt_mono_pos_r in Hlt; lia. }
  assert (Zdigits2 m2 <= 53 + eB - e1) as Hd2 by (apply Zdigits2_le; lia).
  assert (e3 <= eB) as He3B.
  { rewrite He3. subst s2. rewrite fexp_eq. lia. }
  destruct (shr_m r3) as [|p|p] eqn:Ep; [reflexivity | | lia].
  assert ((e3 <=? emax - prec) = true) as -> by (apply Z.leb_le; unfold emax, prec; lia).
  split; [reflexivity |]. split; [lia |].
  replace (e3 - e) with (Z.max s2 0 + Z.max s1 0) by lia.
  rewrite Z.pow_add_r by lia.
  assert (Z.pos p * 2 ^ Z.max s2 0 * 2 ^ Z.max s1 0 <= m2 * 2 ^ Z.max s1 0)
    by (apply Z.mul_le_mono_nonneg_r; lia).
  lia.
Qed.

Lemma iter_xO m d : Zpos (Pos.iter xO m d) = Zpos m * 2 ^ Zpos d.
Proof.
  induction d as [|d IH] using Pos.peano_ind.
  - cbn. lia.
  - rewrite Pos.iter_succ, Pos2Z.inj_xO, IH, Pos2Z.inj_succ, Z.pow_succ_r; lia.
Qed.

Lemma shl_align_spec mx ex e :
  snd (shl_align mx ex e) = Z.min ex e
  /\ Zpos (fst (shl_align mx ex e)) = Zpos mx * 2 ^ (ex - Z.min ex e).
Proof.
  unfold shl_align. destruct (e - ex) as [|d|d] eqn:E; cbn [fst snd].
  - replace (Z.min ex e) with ex by lia. rewrite Z.sub_diag. cbn. lia.
  - replace (Z.min ex e) with ex by lia. rewrite Z.sub_diag. cbn. lia.
  - replace (Z.min ex e) with e by lia. rewrite iter_xO.
    split; [reflexivity |]. f_equal. f_equal. lia.
Qed.

Lemma Zdigits2_mul_pow2 m k :
  0 < m -> 0 <= k -> Zdigits2 (m * 2 ^ k) = Zdigits2 m + k.
Proof.
  intros Hm Hk. pose proof (Zdigits2_bounds m Hm) as [Hlo Hhi].
  pose proof (Zdigits2_nonneg m).
  assert (0 < 2 ^ k) by (apply Z.pow_pos_nonneg; lia).
  assert (1 <= Zdigits2 m).
  { destruct m; try lia. cbn. lia. }
  apply Z.le_antisymm.
  - apply Zdigits2_le; [lia |]. split; [nia |].
    rewrite Z.pow_add_r by lia. nia.
  - replace (Zdigits2 m + k) with ((Zdigits2 m - 1 + k) + 1) by lia.
    apply Zdigits2_ge; [lia |]. rewrite Z.pow_add_r by lia. nia.
Qed.

Lemma Zdigits2_div_pow2 m k :
  0 < m -> 0 <= k -> 2 ^ k <= m -> Zdigits2 (m / 2 ^ k) = Zdigits2 m - k.
Proof.
  intros Hm Hk Hle. pose proof (Zdigits2_bounds m Hm) as [Hlo Hhi].
  assert (0 < 2 ^ k) by (apply Z.pow_pos_nonneg; lia).
  assert (k + 1 <= Zdigits2 m) by (apply Zdigits2_ge; lia).
  apply Z.le_antisymm.
  - apply Zdigits2_le; [lia |]. split; [apply Z.div_pos; lia |].
    apply Z.div_lt_upper_bound; [lia |].
    rewrite <- Z.pow_add_r by lia. replace (k + (Zdigits2 m - k)) with (Zdigits2 m) by lia.
    lia.
  - replace (Zdigits2 m - k) with ((Zdigits2 m - 1 - k) + 1) by lia.
    apply Zdigits2_ge; [lia |]. apply Z.div_le_lower_bound; [lia |].
    rewrite <- Z.pow_add_r by lia. replace (k + (Zdigits2 m - 1 - k)) with (Zdigits2 m - 1) by lia.
    lia.
Qed.

(** Rounding leaves a mantissa that needs no rounding as it is. *)
Lemma binary_round_aux_exact sx m e :
  0 < m ->
  Z.max (fexp prec emax (Zdigits2 m + e) - e) 0 = 0 ->
  e <= 971 ->
  binary_round_aux prec emax sx m e loc_Exact = S754_finite sx (Z.to_pos m) e.
Proof.
  intros Hm Hs He. unfold binary_round_aux, shr_fexp.
  assert (forall n, Z.max n 0 = 0 ->
            shr (shr_record_of_loc m loc_Exact) e n
            = (Build_shr_record m false false, e)) as Hshr.
  { intros n Hn. destruct n; try reflexivity. lia. }
  rewrite Hshr by assumption.
  cbn [shr_m loc_of_shr_record round_nearest_even].
  rewrite Hshr by assumption. cbn [shr_m].
  destruct m as [|p|p]; try lia.
  assert ((e <=? emax - prec) = true) as -> by (apply Z.leb_le; unfold emax, prec; lia).
  reflexivity.
Qed.

Lemma binary_round_aux_shift sx m e :
  0 < m ->
  let s := fexp prec emax (Zdigits2 m + e) - e in
  0 < s -> m mod 2 ^ s = 0 -> e + s <= 971 ->
  binary_round_aux prec emax sx m e loc_Exact
  = S754_finite sx (Z.to_pos (m / 2 ^ s)) (e + s).
Proof.
  intros Hm s Hs Hdiv He. unfold binary_round_aux, shr_fexp. fold s.
  assert (0 < 2 ^ s) as Hp by (apply Z.pow_pos_nonneg; lia).
  pose proof (shr_spec (shr_record_of_loc m loc_Exact) e s) as Hshr1.
  pose proof (shr_exact m e s ltac:(lia)) as Hex.
  replace (Z.max s 0) with s in * by lia. specialize (Hex Hdiv).
  cbn [shr_record_of_loc shr_m] in *. specialize (Hshr1 ltac:(lia)).
  destruct (shr {| shr_m := m; shr_r := false; shr_s := false |} e s) as [r1 e1].
  cbn [fst snd] in *. destruct Hshr1 as [-> _]. subst r1.
  cbn [shr_m loc_of_shr_record round_nearest_even].
  assert (2 ^ s <= m) as Hle.
  { apply Z.mod_divide in Hdiv; [| lia]. destruct Hdiv as [k Hk].
    assert (0 < k) by nia.
    rewrite Hk. replace (2 ^ s) with (1 * 2 ^ s) at 1 by lia.
    apply Z.mul_le_mono_nonneg_r; lia. }
  assert (0 < m / 2 ^ s) as Hq by (apply Z.div_str_pos; lia).
  assert (Z.max (fexp prec emax (Zdigits2 (m / 2 ^ s) + (e + s)) - (e + s)) 0 = 0) as Hs2.
  { rewrite Zdigits2_div_pow2 by lia.
    replace (Zdigits2 m - s + (e + s)) with (Zdigits2 m + e) by lia. lia. }
  assert (forall n, Z.max n 0 = 0 ->
            shr (shr_record_of_loc (m / 2 ^ s) loc_Exact) (e + s) n
            = (Build_shr_record (m / 2 ^ s) false false, e + s)) as Hshr.
  { intros n Hn. destruct n; try reflexivity. lia. }
  rewrite Hshr by assumption. cbn [shr_m].
  destruct (m / 2 ^ s) as [|p|p]; try lia.
  assert ((e + s <=? emax - prec) = true) as -> by (apply Z.leb_le; unfold emax, prec; lia).
  reflexivity.
Qed.

Lemma binary_round_integer sx p k :
  Zpos p < 2 ^ 53 -> 0 <= k ->
  binary_round prec emax sx (Z.to_pos (Zpos p * 2 ^ k)) (- k)
  = S754_finite sx (Z.to_pos (Zpos p * 2 ^ (53 - Zpos (digits2_pos p))))
      (Zpos (digits2_pos p) - 53).
Proof.
  intros Hsmall Hk. unfold binary_round.
  assert (0 < 2 ^ k) as Hpk by (apply Z.pow_pos_nonneg; lia).
  set (M := Z.to_pos (Zpos p * 2 ^ k)).
  assert (Zpos M = Zpos p * 2 ^ k) as HM by (subst M; rewrite Z2Pos.id; lia).
  set (d := Zpos (digits2_pos p)).
  assert (1 <= d <= 53) as Hd.
  { subst d. split; [lia |]. apply (Zdigits2_le (Zpos p)); lia. }
  assert (Zpos (digits2_pos M) = d + k) as HdM.
  { change (Zpos (digits2_pos M)) with (Zdigits2 (Zpos M)).
    rewrite HM. apply (Zdigits2_mul_pow2 (Zpos p)); lia. }
  rewrite HdM. replace (d + k + - k) with d by lia.
  assert (fexp prec emax d = d - 53) as Ht by (rewrite fexp_eq; lia).
  rewrite Ht.
  pose proof (shl_align_spec M (- k) (d - 53)) as [Hez Hmz].
  destruct (shl_align M (- k) (d - 53)) as [mz ez]. cbn [fst snd] in *.
  destruct (Z.le_gt_cases (d - 53) (- k)) as [Hcase | Hcase].
  - (* the mantissa is shifted to the left *)
    replace (Z.min (- k) (d - 53)) with (d - 53) in * by lia. subst ez.
    assert (Zpos mz = Zpos p * 2 ^ (53 - d)) as Hmz'.
    { rewrite Hmz, HM, <- Z.mul_assoc, <- Z.pow_add_r by lia. f_equal. f_equal. lia. }
    rewrite binary_round_aux_exact; [| lia | | lia].
    + f_equal. rewrite <- Hmz'. reflexivity.
    + rewrite Hmz'. rewrite (Zdigits2_mul_pow2 (Zpos p)) by lia.
      change (Zdigits2 (Z.pos p)) with d. replace (d + (53 - d) + (d - 53)) with d by lia. rewrite Ht. lia.
  - (* the mantissa is shifted to the right, the bits that leave are 0 *)
    replace (Z.min (- k) (d - 53)) with (- k) in * by lia. subst ez.
    replace (- k - - k) with 0 in Hmz by lia. rewrite Z.mul_1_r in Hmz.
    assert (Zdigits2 (Zpos mz) + - k = d) as Hdz.
    { rewrite Hmz. change (Zdigits2 (Zpos M)) with (Zpos (digits2_pos M)). lia. }
    assert (fexp prec emax (Zdigits2 (Zpos mz) + - k) - - k = k - (53 - d)) as Hs.
    { rewrite Hdz, Ht. lia. }
    rewrite binary_round_aux_shift; rewrite ?Hs; try lia.
    + f_equal; [| lia]. f_equal. rewrite Hmz, HM.
      replace k with ((53 - d) + (k - (53 - d))) at 1 by lia.
      rewrite Z.pow_add_r, Z.mul_assoc by lia. apply Z.div_mul.
      assert (0 < 2 ^ (k - (53 - d))) by (apply Z.pow_pos_nonneg; lia). lia.
    + rewrite Hmz, HM.
      replace k with ((53 - d) + (k - (53 - d))) at 1 by lia.
      rewrite Z.pow_add_r, Z.mul_assoc by lia. apply Z.mod_mul.
      assert (0 < 2 ^ (k - (53 - d))) by (apply Z.pow_pos_nonneg; lia). lia.
Qed.

Lemma binary_normalize_integer N k sz :
  Z.abs N < 2 ^ 53 -> 0 <= k -> N <> 0 ->
  binary_normalize prec emax (N * 2 ^ k) (- k) sz = Zcanon N.
Proof.
  intros Hsmall Hk Hne.
  assert (0 < 2 ^ k) as Hpk by (apply Z.pow_pos_nonneg; lia).
  destruct N as [|p|p]; [lia | |].
  - destruct (Z.pos p * 2 ^ k) as [|M|M] eqn:E; try lia.
    cbn [binary_normalize Zcanon].
    replace M with (Z.to_pos (Zpos p * 2 ^ k)) by (rewrite E; reflexivity).
    apply binary_round_integer; lia.
  - destruct (Z.neg p * 2 ^ k) as [|M|M] eqn:E; try lia.
    cbn [binary_normalize Zcanon].
    replace M with (Z.to_pos (Zpos p * 2 ^ k)) by lia.
    apply binary_round_integer; lia.
Qed.

Lemma SFadd_finite sx mx ex sy my ey :
  SFadd prec emax (S754_finite sx mx ex) (S754_finite sy my ey)
  = binary_normalize prec emax
      (cond_Zopp sx (Zpos mx * 2 ^ (ex - Z.min ex ey))
       + cond_Zopp sy (Zpos my * 2 ^ (ey - Z.min ex ey)))
      (Z.min ex ey) false.
Proof.
  cbn [SFadd].
  pose proof (shl_align_spec mx ex (Z.min ex ey)) as [_ ->].
  pose proof (shl_align_spec my ey (Z.min ex ey)) as [_ ->].
  replace (Z.min ex (Z.min ex ey)) with (Z.min ex ey) by lia.
  replace (Z.min ey (Z.min ex ey)) with (Z.min ex ey) by lia.
  reflexivity.
Qed.

Lemma SFsub_finite sx mx ex sy my ey :
  SFsub prec emax (S754_finite sx mx ex) (S754_finite sy my ey)
  = binary_normalize prec emax
      (cond_Zopp sx (Zpos mx * 2 ^ (ex - Z.min ex ey))
       - cond_Zopp sy (Zpos my * 2 ^ (ey - Z.min ex ey)))
      (Z.min ex ey) false.
Proof.
  cbn [SFsub].
  pose proof (shl_align_spec mx ex (Z.min ex ey)) as [_ ->].
  pose proof (shl_align_spec my ey (Z.min ex ey)) as [_ ->].
  replace (Z.min ex (Z.min ex ey)) with (Z.min ex ey) by lia.
  replace (Z.min ey (Z.min ex ey)) with (Z.min ex ey) by lia.
  reflexivity.
Qed.

Lemma Zcanon_finite N :
  N <> 0 -> Z.abs N < 2 ^ 53 ->
  Zcanon N
  = S754_finite (N <? 0) (Z.to_pos (Z.abs N * 2 ^ (53 - Zdigits2 N))) (Zdigits2 N - 53)
  /\ 1 <= Zdigits2 N <= 53.
Proof.
  intros Hne Hsmall. destruct N as [|p|p]; [lia | |]; cbn [Zcanon Zdigits2 Z.abs Z.ltb Z.compare];
    (split; [reflexivity |]); (split; [lia |]); apply (Zdigits2_le (Zpos p)); lia.
Qed.

Lemma Zcanon_aligned N k :
  N <> 0 -> Z.abs N < 2 ^ 53 -> 53 - Zdigits2 N <= k ->
  cond_Zopp (N <? 0)
    (Zpos (Z.to_pos (Z.abs N * 2 ^ (53 - Zdigits2 N))) * 2 ^ (Zdigits2 N - 53 - - k))
  = N * 2 ^ k.
Proof.
  intros Hne Hsmall Hk.
  pose proof (Zcanon_finite N Hne Hsmall) as [_ Hd].
  assert (0 < 2 ^ (53 - Zdigits2 N)) by (apply Z.pow_pos_nonneg; lia).
  assert (0 < Z.abs N * 2 ^ (53 - Zdigits2 N)) by (apply Z.mul_pos_pos; lia).
  rewrite Z2Pos.id by lia.
  rewrite <- Z.mul_assoc, <- Z.pow_add_r by lia.
  replace (53 - Zdigits2 N + (Zdigits2 N - 53 - - k)) with k by lia.
  unfold cond_Zopp. destruct (Z.ltb_spec N 0); lia.
Qed.

Lemma Zcanon_add a b :
  Z.abs a < 2 ^ 53 -> Z.abs b < 2 ^ 53 -> Z.abs (a + b) < 2 ^ 53 ->
  SFadd prec emax (Zcanon a) (Zcanon b) = Zcanon (a + b).
Proof.
  intros Ha Hb Hab.
  destruct (Z.eq_dec a 0) as [-> | Hane].
  { cbn [Z.add]. destruct b; reflexivity. }
  destruct (Z.eq_dec b 0) as [-> | Hbne].
  { rewrite Z.add_0_r. destruct a; reflexivity. }
  destruct (Zcanon_finite a Hane Ha) as [-> Hda].
  destruct (Zcanon_finite b Hbne Hb) as [-> Hdb].
  rewrite SFadd_finite.
  set (k := - Z.min (Zdigits2 a - 53) (Zdigits2 b - 53)).
  replace (Z.min (Zdigits2 a - 53) (Zdigits2 b - 53)) with (- k) by lia.
  rewrite !Zcanon_aligned by lia.
  rewrite <- Z.mul_add_distr_r.
  destruct (Z.eq_dec (a + b) 0) as [-> | Hne]; [reflexivity |].
  apply binary_normalize_integer; lia.
Qed.

Lemma Zcanon_sub a b :
  Z.abs a < 2 ^ 53 -> Z.abs b < 2 ^ 53 -> Z.abs (a - b) < 2 ^ 53 ->
  SFsub prec emax (Zcanon a) (Zcanon b) = Zcanon (a - b).
Proof.
  intros Ha Hb Hab.
  destruct (Z.eq_dec b 0) as [-> | Hbne].
  { rewrite Z.sub_0_r. destruct a; reflexivity. }
  destruct (Z.eq_dec a 0) as [-> | Hane].
  { destruct b; reflexivity. }
  destruct (Zcanon_finite a Hane Ha) as [-> Hda].
  destruct (Zcanon_finite b Hbne Hb) as [-> Hdb].
  rewrite SFsub_finite.
  set (k := - Z.min (Zdigits2 a - 53) (Zdigits2 b - 53)).
  replace (Z.min (Zdigits2 a - 53) (Zdigits2 b - 53)) with (- k) by lia.
  rewrite !Zcanon_aligned by lia.
  rewrite <- Z.mul_sub_distr_r.
  destruct (Z.eq_dec (a - b) 0) as [-> | Hne]; [reflexivity |].
  apply binary_normalize_integer; lia.
Qed.

Lemma Prim2SF_of_Z z : Z.abs z < 2 ^ 53 -> Prim2SF (Binary64.of_Z z) = Zcanon z.
Proof.
  intros Hz. unfold Binary64.of_Z.
  assert (forall n, 0 <= n < 2 ^ 53 -> Uint63.to_Z (Uint63.of_Z n) = n) as Hto.
  { intros n Hn. rewrite Uint63.of_Z_spec. apply Z.mod_small.
    change wB with (2 ^ 63). split; [lia |].
    assert (2 ^ 53 < 2 ^ 63) by reflexivity. lia. }
  assert (forall n, 0 <= n < 2 ^ 53 ->
            binary_normalize prec emax n 0 false = Zcanon n) as Hnorm.
  { intros n Hn. destruct (Z.eq_dec n 0) as [-> | Hne]; [reflexivity |].
    replace n with (n * 2 ^ 0) at 1 by (cbn; lia).
    change 0 with (- 0) at 2. apply binary_normalize_integer; lia. }
  destruct (Z.ltb_spec z 0).
  - rewrite FloatAxioms.opp_spec, of_uint63_spec, Hto, Hnorm by lia.
    destruct z as [|p|p]; try lia. reflexivity.
  - rewrite of_uint63_spec, Hto, Hnorm by lia. reflexivity.
Qed.

Lemma of_Z_add a b :
  Z.abs a < 2 ^ 53 -> Z.abs b < 2 ^ 53 -> Z.abs (a + b) < 2 ^ 53 ->
  (Binary64.of_Z a + Binary64.of_Z b)%float = Binary64.of_Z (a + b).
Proof.
  intros Ha Hb Hab. apply Prim2SF_inj.
  rewrite FloatAxioms.add_spec, !Prim2SF_of_Z by assumption. now apply Zcanon_add.
Qed.

Lemma of_Z_sub a b :
  Z.abs a < 2 ^ 53 -> Z.abs b < 2 ^ 53 -> Z.abs (a - b) < 2 ^ 53 ->
  (Binary64.of_Z a - Binary64.of_Z b)%float = Binary64.of_Z (a - b).
Proof.
  intros Ha Hb Hab. apply Prim2SF_inj.
  rewrite FloatAxioms.sub_spec, !Prim2SF_of_Z by assumption. now apply Zcanon_sub.
Qed.

Lemma valid_finite s m e :
  valid_binary (S754_finite s m e) = true ->
  -1074 <= e <= 971
  /\ Zpos (digits2_pos m) <= 53
  /\ (-1074 < e -> Zpos (digits2_pos m) = 53).
Proof.
  unfold SpecFloat.valid_binary, bounded, canonical_mantissa.
  intros [Hc He]%andb_prop. apply Z.eqb_eq in Hc. apply Z.leb_le in He.
  rewrite fexp_eq in Hc. unfold emax, prec in He. lia.
Qed.

Lemma pow2_pos k : 0 <= k -> 0 < 2 ^ k.
Proof. intros. apply Z.pow_pos_nonneg; lia. Qed.

Lemma pow2_lt_inv a b : 0 <= b -> 2 ^ a < 2 ^ b -> a < b.
Proof.
  intros Hb Hlt. destruct (Z.lt_ge_cases a b) as [|Hge]; [assumption | exfalso].
  assert (2 ^ b <= 2 ^ a) by (apply Z.pow_le_mono_r; lia). lia.
Qed.

Lemma valid_expo_bound s m e c eB :
  valid_binary (S754_finite s m e) = true ->
  0 <= c < 2 ^ 53 -> -1074 <= eB ->
  Zpos m * 2 ^ (e + 1074) <= c * 2 ^ (eB + 1074) ->
  e <= eB.
Proof.
  intros Hvalid Hc HeB Hle.
  destruct (valid_finite _ _ _ Hvalid) as (He & Hd & Hnormal).
  destruct (Z.le_gt_cases e eB) as [|Hgt]; [assumption | exfalso].
  specialize (Hnormal ltac:(lia)).
  pose proof (digits2_bounds m) as [Hlo _]. rewrite Hnormal in Hlo.
  change (2 ^ (53 - 1)) with (2 ^ 52) in Hlo.
  pose proof (pow2_pos (e + 1074) ltac:(lia)).
  pose proof (pow2_pos (eB + 1074) ltac:(lia)).
  assert (2 ^ (52 + (e + 1074)) < 2 ^ (53 + (eB + 1074))) as Hlt.
  { rewrite (Z.pow_add_r 2 52), (Z.pow_add_r 2 53) by lia.
    assert (2 ^ 52 * 2 ^ (e + 1074) <= Zpos m * 2 ^ (e + 1074))
      by (apply Z.mul_le_mono_nonneg_r; lia).
    assert (c * 2 ^ (eB + 1074) < 2 ^ 53 * 2 ^ (eB + 1074))
      by (apply Z.mul_lt_mono_pos_r; lia).
    lia. }
  apply pow2_lt_inv in Hlt; lia.
Qed.

Lemma binary_normalize_bound N ez c eB :
  -1074 <= ez -> ez <= eB -> eB <= 971 -> 0 <= c < 2 ^ 53 ->
  Z.abs N <= c * 2 ^ (eB - ez) ->
  SF_is_finite (binary_normalize prec emax N ez false)
  /\ Z.abs (SF_scaled (binary_normalize prec emax N ez false)) <= c * 2 ^ (eB + 1074)
  /\ (0 <= N -> 0 <= SF_scaled (binary_normalize prec emax N ez false))
  /\ (N <= 0 -> SF_scaled (binary_normalize prec emax N ez false) <= 0).
Proof.
  intros Hez HeB Hmax Hc Hle.
  assert (forall sx M, Zpos M <= c * 2 ^ (eB - ez) ->
            match binary_round prec emax sx M ez with
            | S754_zero s => True
            | S754_finite s p e3 => s = sx /\ Zpos p * 2 ^ (e3 + 1074) <= c * 2 ^ (eB + 1074)
            | _ => False
            end) as Hround.
  { intros sx M HM. unfold binary_round.
    pose proof (shl_align_spec M ez (fexp prec emax (Zpos (digits2_pos M) + ez)))
      as [He' Hmz].
    destruct (shl_align M ez (fexp prec emax (Zpos (digits2_pos M) + ez))) as [mz e'].
    cbn [fst snd] in *.
    assert (-1074 <= e' <= ez) as He'r by (rewrite He', fexp_eq; lia).
    rewrite <- He' in Hmz.
    pose proof (pow2_pos (ez - e') ltac:(lia)).
    pose proof (pow2_pos (eB - ez) ltac:(lia)).
    pose proof (pow2_pos (eB - e') ltac:(lia)).
    pose proof (pow2_pos (e' + 1074) ltac:(lia)).
    assert (2 ^ (eB - e') = 2 ^ (eB - ez) * 2 ^ (ez - e')) as Hsplit.
    { rewrite <- Z.pow_add_r by lia. f_equal. lia. }
    assert (c * 2 ^ (eB - e') < 2 ^ (53 + eB - e')) as Hsm.
    { replace (53 + eB - e') with (53 + (eB - e')) by lia.
      rewrite (Z.pow_add_r 2 53) by lia. apply Z.mul_lt_mono_pos_r; lia. }
    assert (Zpos mz <= c * 2 ^ (eB - e')) as Hm.
    { rewrite Hmz, Hsplit, Z.mul_assoc. apply Z.mul_le_mono_nonneg_r; lia. }
    pose proof (binary_round_aux_bound sx (Zpos mz) e' loc_Exact
                  (c * 2 ^ (eB - e')) eB ltac:(lia) ltac:(lia) ltac:(lia)
                  (Z.divide_factor_r _ _) Hsm (or_introl (conj eq_refl Hm))) as Hb.
    destruct (binary_round_aux prec emax sx (Z.pos mz) e' loc_Exact) as [s|s| |s p e3];
      try contradiction; [exact I |].
    destruct Hb as (-> & He3 & Hp). split; [reflexivity |].
    replace (e3 + 1074) with ((e3 - e') + (e' + 1074)) by lia.
    replace (eB + 1074) with ((eB - e') + (e' + 1074)) by lia.
    rewrite (Z.pow_add_r 2 (e3 - e')), (Z.pow_add_r 2 (eB - e')) by lia.
    rewrite !Z.mul_assoc. apply Z.mul_le_mono_nonneg_r; lia. }
  assert (0 <= c * 2 ^ (eB + 1074)) as Hnonneg.
  { apply Z.mul_nonneg_nonneg; [lia |]. apply Z.pow_nonneg. lia. }
  destruct N as [|M|M]; cbn [binary_normalize].
  - cbn. lia.
  - specialize (Hround false M ltac:(lia)).
    destruct (binary_round prec emax false M ez) as [s|s| |s p e3]; cbn [SF_is_finite SF_scaled];
      try contradiction; try (cbn; lia).
    destruct Hround as [-> Hp]. cbn [cond_Zopp]. lia.
  - specialize (Hround true M ltac:(lia)).
    destruct (binary_round prec emax true M ez) as [s|s| |s p e3]; cbn [SF_is_finite SF_scaled];
      try contradiction; try (cbn; lia).
    destruct Hround as [-> Hp]. cbn [cond_Zopp]. lia.
Qed.

Lemma cond_Zopp_mul s a b : cond_Zopp s (a * b) = cond_Zopp s a * b.
Proof. destruct s; cbn; lia. Qed.

Lemma SF_scaled_aligned s m e ez :
  -1074 <= ez <= e ->
  SF_scaled (S754_finite s m e) = cond_Zopp s (Zpos m * 2 ^ (e - ez)) * 2 ^ (ez + 1074).
Proof.
  intros He. cbn [SF_scaled]. rewrite <- cond_Zopp_mul, <- Z.mul_assoc, <- Z.pow_add_r by lia.
  do 3 f_equal. lia.
Qed.

Lemma normalize_sum_bound (op : Z -> Z -> Z) x y N ez c eB :
  -1074 <= ez -> ez <= eB -> eB <= 971 -> 0 <= c < 2 ^ 53 ->
  op (SF_scaled x) (SF_scaled y) = N * 2 ^ (ez + 1074) ->
  Z.abs (op (SF_scaled x) (SF_scaled y)) <= c * 2 ^ (eB + 1074) ->
  let r := binary_normalize prec emax N ez false in
  SF_is_finite r
  /\ Z.abs (SF_scaled r) <= c * 2 ^ (eB + 1074)
  /\ (0 <= op (SF_scaled x) (SF_scaled y) -> 0 <= SF_scaled r)
  /\ (op (SF_scaled x) (SF_scaled y) <= 0 -> SF_scaled r <= 0).
Proof.
  intros Hez HeB Hmax Hc HN Hle r.
  pose proof (pow2_pos (ez + 1074) ltac:(lia)) as HP.
  pose proof (pow2_pos (eB - ez) ltac:(lia)) as HQ.
  assert (Z.abs N <= c * 2 ^ (eB - ez)) as Hle'.
  { rewrite HN, Z.abs_mul, (Z.abs_eq (2 ^ _)) in Hle by lia.
    replace (eB + 1074) with ((eB - ez) + (ez + 1074)) in Hle by lia.
    rewrite (Z.pow_add_r 2 (eB - ez)), Z.mul_assoc in Hle by lia.
    apply Z.mul_le_mono_pos_r in Hle; assumption. }
  destruct (binary_normalize_bound N ez c eB Hez HeB Hmax Hc Hle') as (Hf & Hb & Hpos & Hneg).
  repeat split; try assumption.
  - intros H. apply Hpos. rewrite HN in H. nia.
  - intros H. apply Hneg. rewrite HN in H. nia.
Qed.

Lemma SFadd_bound x y c eB :
  valid_binary x = true -> valid_binary y = true -> SF_is_finite x -> SF_is_finite y ->
  0 <= c < 2 ^ 53 -> -1074 <= eB <= 971 ->
  Z.abs (SF_scaled y) <= c * 2 ^ (eB + 1074) ->
  Z.abs (SF_scaled x + SF_scaled y) <= c * 2 ^ (eB + 1074) ->
  SF_is_finite (SFadd prec emax x y)
  /\ Z.abs (SF_scaled (SFadd prec emax x y)) <= c * 2 ^ (eB + 1074)
  /\ (0 <= SF_scaled x + SF_scaled y -> 0 <= SF_scaled (SFadd prec emax x y))
  /\ (SF_scaled x + SF_scaled y <= 0 -> SF_scaled (SFadd prec emax x y) <= 0).
Proof.
  intros Hvx Hvy Hfx Hfy Hc HeB Hy Hsum.
  destruct x as [sx|sx| |sx mx ex]; try contradiction;
    destruct y as [sy|sy| |sy my ey]; try contradiction.
  - destruct sx, sy; cbn; lia.
  - cbn [SFadd]. cbn [SF_scaled] in Hsum |- *. rewrite Z.add_0_l in *. cbn [SF_is_finite]. lia.
  - cbn [SFadd]. cbn [SF_scaled] in Hsum |- *. rewrite Z.add_0_r in *. cbn [SF_is_finite]. lia.
  - rewrite SFadd_finite.
    destruct (valid_finite _ _ _ Hvx) as (Hex & _).
    destruct (valid_finite _ _ _ Hvy) as (Hey & _).
    assert (ey <= eB) as HeyB.
    { apply (valid_expo_bound sy my ey c eB); try assumption; try lia.
      cbn [SF_scaled] in Hy. destruct sy; cbn [cond_Zopp] in Hy; lia. }
    apply (normalize_sum_bound Z.add); try lia.
    rewrite (SF_scaled_aligned sx mx ex (Z.min ex ey)), (SF_scaled_aligned sy my ey (Z.min ex ey)) by lia.
    lia.
Qed.

Lemma SFsub_bound x y c eB :
  valid_binary x = true -> valid_binary y = true -> SF_is_finite x -> SF_is_finite y ->
  0 <= c < 2 ^ 53 -> -1074 <= eB <= 971 ->
  Z.abs (SF_scaled y) <= c * 2 ^ (eB + 1074) ->
  Z.abs (SF_scaled x - SF_scaled y) <= c * 2 ^ (eB + 1074) ->
  SF_is_finite (SFsub prec emax x y)
  /\ Z.abs (SF_scaled (SFsub prec emax x y)) <= c * 2 ^ (eB + 1074)
  /\ (0 <= SF_scaled x - SF_scaled y -> 0 <= SF_scaled (SFsub prec emax x y))
  /\ (SF_scaled x - SF_scaled y <= 0 -> SF_scaled (SFsub prec emax x y) <= 0).
Proof.
  intros Hvx Hvy Hfx Hfy Hc HeB Hy Hsum.
  destruct x as [sx|sx| |sx mx ex]; try contradiction;
    destruct y as [sy|sy| |sy my ey]; try contradiction.
  - destruct sx, sy; cbn; lia.
  - cbn [SFsub]. cbn [SF_scaled] in Hsum |- *. rewrite Z.sub_0_l in *. cbn [SF_is_finite].
    destruct sy; cbn [negb cond_Zopp] in *; lia.
  - cbn [SFsub]. cbn [SF_scaled] in Hsum |- *. rewrite Z.sub_0_r in *. cbn [SF_is_finite]. lia.
  - rewrite SFsub_finite.
    destruct (valid_finite _ _ _ Hvx) as (Hex & _).
    destruct (valid_finite _ _ _ Hvy) as (Hey & _).
    assert (ey <= eB) as HeyB.
    { apply (valid_expo_bound sy my ey c eB); try assumption; try lia.
      cbn [SF_scaled] in Hy. destruct sy; cbn [cond_Zopp] in Hy; lia. }
    apply (normalize_sum_bound Z.sub); try lia.
    rewrite (SF_scaled_aligned sx mx ex (Z.min ex ey)), (SF_scaled_aligned sy my ey (Z.min ex ey)) by lia.
    lia.
Qed.

Lemma SFdiv_core_spec mx ex my ey :
  let e' := Z.min (fexp prec emax (Zpos (digits2_pos mx) + ex - (Zpos (digits2_pos my) + ey)))
              (ex - ey) in
  exists loc,
    SFdiv_core_binary prec emax (Zpos mx) ex (Zpos my) ey
    = (Zpos mx * 2 ^ (ex - ey - e') / Zpos my, e', loc).
Proof.
  intros e'. unfold SFdiv_core_binary. cbn [Zdigits2]. fold e'.
  assert (0 <= ex - ey - e') as Hs by lia.
  assert (match ex - ey - e' with
          | Z0 => Zpos mx
          | Zpos _ => Z.shiftl (Zpos mx) (ex - ey - e')
          | Zneg _ => 0
          end = Zpos mx * 2 ^ (ex - ey - e')) as ->.
  { destruct (ex - ey - e') as [|s|s] eqn:E; [cbn; lia | | lia].
    apply Z.shiftl_mul_pow2. lia. }
  unfold Z.div. destruct (Z.div_eucl _ _) as [q r]. eexists. reflexivity.
Qed.

Lemma SF_scaled_finite_abs s m e : Z.abs (SF_scaled (S754_finite s m e)) = Zpos m * 2 ^ (e + 1074).
Proof.
  cbn [SF_scaled]. assert (0 <= Zpos m * 2 ^ (e + 1074)).
  { apply Z.mul_nonneg_nonneg; [lia |]. apply Z.pow_nonneg. lia. }
  destruct s; cbn [cond_Zopp]; lia.
Qed.

Lemma SFdiv_bound x y bb :
  valid_binary x = true -> valid_binary y = true -> SF_is_finite x ->
  0 <= bb <= 971 ->
  0 < Z.abs (SF_scaled y) ->
  Z.abs (SF_scaled x) < 2 ^ bb * Z.abs (SF_scaled y) ->
  SF_is_finite (SFdiv prec emax x y)
  /\ Z.abs (SF_scaled (SFdiv prec emax x y)) <= 2 ^ (bb + 1074)
  /\ (0 <= SF_scaled x -> 0 < SF_scaled y -> 0 <= SF_scaled (SFdiv prec emax x y)).
Proof.
  intros Hvx Hvy Hfx Hbb Hy Hlt.
  assert (0 <= 2 ^ (bb + 1074)) as Hnonneg by (apply Z.pow_nonneg; lia).
  destruct y as [sy|sy| |sy my ey]; try (cbn in Hy; lia).
  destruct x as [sx|sx| |sx mx ex]; try contradiction.
  { cbn. lia. }
  destruct (valid_finite _ _ _ Hvx) as (Hex & _).
  destruct (valid_finite _ _ _ Hvy) as (Hey & _).
  rewrite !SF_scaled_finite_abs in Hlt. clear Hy.
  cbn [SFdiv].
  pose proof (SFdiv_core_spec mx ex my ey) as Hcore. cbn zeta in Hcore.
  set (d1 := Zpos (digits2_pos mx)) in *. set (d2 := Zpos (digits2_pos my)) in *.
  set (e' := Z.min (fexp prec emax (d1 + ex - (d2 + ey))) (ex - ey)) in *.
  destruct Hcore as [loc ->].
  set (q := Zpos mx * 2 ^ (ex - ey - e') / Zpos my).
  pose proof (digits2_bounds mx) as [Hmxlo _]. fold d1 in Hmxlo.
  pose proof (digits2_bounds my) as [_ Hmyhi]. fold d2 in Hmyhi.
  assert (1 <= d1 /\ 1 <= d2) as [Hd1 Hd2] by (subst d1 d2; lia).
  pose proof (pow2_pos (ex + 1074) ltac:(lia)) as HPx.
  pose proof (pow2_pos (ey + 1074) ltac:(lia)) as HPy.
  assert (-2045 <= e' <= ex - ey) as He'.
  { subst e'. rewrite fexp_eq. lia. }
  assert (e' <= bb) as He'bb.
  { assert (2 ^ (d1 - 1 + (ex + 1074)) < 2 ^ (bb + d2 + (ey + 1074))) as Hpow.
    { rewrite (Z.pow_add_r 2 (d1 - 1)), (Z.pow_add_r 2 (bb + d2)), (Z.pow_add_r 2 bb) by lia.
      pose proof (pow2_pos bb ltac:(lia)).
      assert (2 ^ (d1 - 1) * 2 ^ (ex + 1074) <= Zpos mx * 2 ^ (ex + 1074))
        by (apply Z.mul_le_mono_nonneg_r; lia).
      assert (2 ^ bb * (Zpos my * 2 ^ (ey + 1074)) < 2 ^ bb * (2 ^ d2 * 2 ^ (ey + 1074))).
      { apply Z.mul_lt_mono_pos_l; [lia |]. apply Z.mul_lt_mono_pos_r; lia. }
      lia. }
    apply pow2_lt_inv in Hpow; [| lia].
    subst e'. rewrite fexp_eq. lia. }
  assert (0 <= ex - ey - e') as Hs by lia.
  pose proof (pow2_pos (ex - ey - e') Hs) as HPs.
  pose proof (pow2_pos (bb - e') ltac:(lia)) as HPb.
  assert (0 <= q) as Hq.
  { subst q. apply Z.div_pos; [| lia]. apply Z.mul_nonneg_nonneg; lia. }
  assert (q < 2 ^ (bb - e')) as Hqlt.
  { subst q. apply Z.div_lt_upper_bound; [lia |].
    set (K := ey + e' + 3222).
    pose proof (pow2_pos K ltac:(lia)) as HPK.
    apply (Z.mul_lt_mono_pos_r (2 ^ K)); [assumption |].
    rewrite <- !Z.mul_assoc, <- !Z.pow_add_r by lia.
    replace (ex - ey - e' + K) with ((ex + 1074) + 2148) by lia.
    replace (bb - e' + K) with (bb + ((ey + 1074) + 2148)) by lia.
    rewrite (Z.pow_add_r 2 (ex + 1074)), (Z.pow_add_r 2 bb), (Z.pow_add_r 2 (ey + 1074)) by lia.
    assert (0 < 2 ^ 2148) by (apply pow2_pos; lia).
    rewrite !Z.mul_assoc.
    apply Z.mul_lt_mono_pos_r; [assumption |]. lia. }
  pose proof (binary_round_aux_bound (xorb sx sy) q e' loc (2 ^ (bb - e')) bb
                Hq He'bb ltac:(lia) (Z.divide_refl _)
                ltac:(apply Z.pow_lt_mono_r; lia) (or_intror Hqlt)) as Hb.
  destruct (binary_round_aux prec emax (xorb sx sy) q e' loc) as [s|s| |s p e3];
    try contradiction.
  { cbn. lia. }
  destruct Hb as (-> & He3 & Hp). cbn [SF_is_finite]. split; [exact I |].
  rewrite SF_scaled_finite_abs. split.
  - destruct (Z.lt_ge_cases (e3 + 1074) 0) as [Hneg | Hge].
    { rewrite (Z.pow_neg_r 2 (e3 + 1074)) by assumption. lia. }
    destruct (Z.le_gt_cases (-1074) e') as [Hcase | Hcase].
    + replace (e3 + 1074) with ((e3 - e') + (e' + 1074)) by lia.
      replace (bb + 1074) with ((bb - e') + (e' + 1074)) by lia.
      rewrite (Z.pow_add_r 2 (e3 - e')), (Z.pow_add_r 2 (bb - e')) by lia.
      pose proof (pow2_pos (e' + 1074) ltac:(lia)).
      rewrite Z.mul_assoc. apply Z.mul_le_mono_nonneg_r; lia.
    + replace (e3 - e') with ((e3 + 1074) + (-1074 - e')) in Hp by lia.
      replace (bb - e') with ((bb + 1074) + (-1074 - e')) in Hp by lia.
      rewrite (Z.pow_add_r 2 (e3 + 1074)), (Z.pow_add_r 2 (bb + 1074)), Z.mul_assoc in Hp by lia.
      pose proof (pow2_pos (-1074 - e') ltac:(lia)).
      apply Z.mul_le_mono_pos_r in Hp; assumption.
  - intros Hx Hy. cbn [SF_scaled] in Hx, Hy |- *.
    assert (0 < Zpos mx * 2 ^ (ex + 1074)) by (apply Z.mul_pos_pos; lia).
    assert (0 < Zpos my * 2 ^ (ey + 1074)) by (apply Z.mul_pos_pos; lia).
    destruct sx, sy; cbn [cond_Zopp xorb] in *; lia.
Qed.

Lemma SF_scaled_Zcanon N :
  Z.abs N < 2 ^ 53 -> SF_is_finite (Zcanon N) /\ SF_scaled (Zcanon N) = N * 2 ^ 1074.
Proof.
  intros Hsmall. destruct (Z.eq_dec N 0) as [-> | Hne]; [cbn; lia |].
  destruct (Zcanon_finite N Hne Hsmall) as [-> Hd]. split; [exact I |].
  cbn [SF_scaled].
  assert (0 < 2 ^ (53 - Zdigits2 N)) by (apply pow2_pos; lia).
  assert (0 < Z.abs N * 2 ^ (53 - Zdigits2 N)) by (apply Z.mul_pos_pos; lia).
  rewrite Z2Pos.id by lia.
  rewrite <- Z.mul_assoc, <- Z.pow_add_r by lia.
  replace (53 - Zdigits2 N + (Zdigits2 N - 53 + 1074)) with 1074 by lia.
  unfold cond_Zopp. destruct (Z.ltb_spec N 0); lia.
Qed.

Lemma scaled_of_Z z :
  Z.abs z < 2 ^ 53 -> is_finite (Binary64.of_Z z) /\ scaled (Binary64.of_Z z) = z * 2 ^ 1074.
Proof.
  intros Hz. unfold is_finite, scaled. rewrite Prim2SF_of_Z by assumption.
  now apply SF_scaled_Zcanon.
Qed.

Lemma add_bound x y c eB :
  is_finite x -> is_finite y -> 0 <= c < 2 ^ 53 -> -1074 <= eB <= 971 ->
  Z.abs (scaled y) <= c * 2 ^ (eB + 1074) ->
  Z.abs (scaled x + scaled y) <= c * 2 ^ (eB + 1074) ->
  is_finite (x + y)%float
  /\ Z.abs (scaled (x + y)%float) <= c * 2 ^ (eB + 1074)
  /\ (0 <= scaled x + scaled y -> 0 <= scaled (x + y)%float)
  /\ (scaled x + scaled y <= 0 -> scaled (x + y)%float <= 0).
Proof.
  unfold is_finite, scaled. rewrite FloatAxioms.add_spec.
  apply SFadd_bound; apply Prim2SF_valid.
Qed.

Lemma sub_bound x y c eB :
  is_finite x -> is_finite y -> 0 <= c < 2 ^ 53 -> -1074 <= eB <= 971 ->
  Z.abs (scaled y) <= c * 2 ^ (eB + 1074) ->
  Z.abs (scaled x - scaled y) <= c * 2 ^ (eB + 1074) ->
  is_finite (x - y)%float
  /\ Z.abs (scaled (x - y)%float) <= c * 2 ^ (eB + 1074)
  /\ (0 <= scaled x - scaled y -> 0 <= scaled (x - y)%float)
  /\ (scaled x - scaled y <= 0 -> scaled (x - y)%float <= 0).
Proof.
  unfold is_finite, scaled. rewrite FloatAxioms.sub_spec.
  apply SFsub_bound; apply Prim2SF_valid.
Qed.

Lemma div_bound x y bb :
  is_finite x -> 0 <= bb <= 971 ->
  0 < Z.abs (scaled y) ->
  Z.abs (scaled x) < 2 ^ bb * Z.abs (scaled y) ->
  is_finite (x / y)%float
  /\ Z.abs (scaled (x / y)%float) <= 2 ^ (bb + 1074)
  /\ (0 <= scaled x -> 0 < scaled y -> 0 <= scaled (x / y)%float).
Proof.
  unfold is_finite, scaled. rewrite FloatAxioms.div_spec.
  apply SFdiv_bound; apply Prim2SF_valid.
Qed.

End Binary64Arithmetic.

(** ** The incident tracker: [calculateMTTR] *)

Section Binary64Facts.
Import JsString JsNumber IncidentTracker Binary64.
Local Open Scope list_scope.

Lemma delays_binary64_cons (inc : Incident) (incidents : list Incident) :
  delays_binary64 (inc :: incidents) =
  match resolutionTime inc with
  | Some r =>
      (Binary64.of_Z r - Binary64.of_Z (detectionTime inc))%float
      :: delays_binary64 incidents
  | None => delays_binary64 incidents
  end.
Proof.
  change (delays_binary64 (inc :: incidents))
    with (match delay_binary64 inc with
          | Some d => d :: delays_binary64 incidents
          | None => delays_binary64 incidents
          end).
  unfold delay_binary64. now destruct (resolutionTime inc).
Qed.

(** One double per resolved incident. *)
Lemma delays_binary64_length (incidents : list Incident) :
  length (delays_binary64 incidents) = length (delays incidents).
Proof.
  induction incidents as [|inc incidents IH]; [reflexivity |].
  rewrite delays_binary64_cons, delays_cons. unfold delay.
  destruct (resolutionTime inc); cbn [length]; [f_equal |]; exact IH.
Qed.

Lemma filter_resolved_binary64 (incidents : list Incident) (start : float) :
  fold_left
    (fun sum inc =>
       (sum + date_minus (resolutionTime inc) (detectionTime inc))%float)
    (List.filter (fun inc => truthy_date (resolutionTime inc)) incidents) start
  = fold_left (fun sum d => (sum + d)%float) (delays_binary64 incidents) start.
Proof.
  revert start; induction incidents as [|inc incidents IH]; intros start.
  - reflexivity.
  - cbn [List.filter]. rewrite delays_binary64_cons.
    destruct (resolutionTime inc) as [r|] eqn:Hr; cbn [truthy_date fold_left].
    + now rewrite IH, Hr.
    + apply IH.
Qed.

(** The double [calculateMTTR] computes, in terms of the doubles of the
    delays. *)
Lemma calculateMTTR_binary64_delays (incidents : list Incident) :
  calculateMTTR incidents =
  match delays_binary64 incidents with
  | [] => 0%float
  | ds =>
      (sum_binary64 ds / Binary64.of_Z (Z.of_nat (length ds))
       / Binary64.of_Z 3600000)%float
  end.
Proof.
  unfold calculateMTTR.
  rewrite filter_resolved_length, <- delays_binary64_length, filter_resolved_binary64.
  destruct (delays_binary64 incidents) as [|d ds]; reflexivity.
Qed.

Lemma calculateMTTR_binary64_nothing_resolved (incidents : list Incident) :
  delays incidents = [] -> calculateMTTR incidents = 0%float.
Proof.
  intros Hnone. rewrite calculateMTTR_binary64_delays.
  pose proof (delays_binary64_length incidents) as Hlen.
  rewrite Hnone in Hlen. now destruct (delays_binary64 incidents).
Qed.

End Binary64Facts.

(** ** The incident tracker: the value of [calculateMTTR] *)

Section Binary64Values.
Import JsString JsNumber IncidentTracker Binary64.
Local Open Scope list_scope.
Local Open Scope Z_scope.

Lemma dates_valid_cons (inc : Incident) (incidents : list Incident) :
  dates_valid (inc :: incidents) -> dates_valid incidents.
Proof. intros H x Hx. apply H. now right. Qed.

(** A valid time value is an integer that a double holds. *)
Lemma valid_small (t : Z) : JsDate.valid t -> Z.abs t < 2 ^ 53.
Proof.
  unfold JsDate.valid, JsDate.maxTime. change (2 ^ 53) with 9007199254740992. lia.
Qed.

Lemma Zsum_abs_nonneg (ds : list Z) : 0 <= Zsum (map Z.abs ds).
Proof. induction ds as [|d ds IH]; unfold Zsum in *; cbn [map foldr]; lia. Qed.

Lemma Zsum_abs_each (ds : list Z) (bound : Z) :
  Zsum (map Z.abs ds) < bound -> Forall (fun d => Z.abs d < bound) ds.
Proof.
  induction ds as [|d ds IH]; intros Hsum; [constructor |].
  unfold Zsum in *. cbn [map foldr] in Hsum.
  pose proof (Zsum_abs_nonneg ds) as Hpos. unfold Zsum in Hpos.
  constructor; [lia | apply IH; lia].
Qed.

(** With valid time values, a delay of magnitude below 2^53 ms is computed
    without rounding. *)
Lemma delays_binary64_exact (incidents : list Incident) :
  dates_valid incidents ->
  Forall (fun d => Z.abs d < 2 ^ 53) (delays incidents) ->
  delays_binary64 incidents = map Binary64.of_Z (delays incidents).
Proof.
  induction incidents as [|inc incidents IH]; intros Hvalid Hsmall; [reflexivity |].
  destruct (Hvalid inc ltac:(left)) as [Hd Hr].
  specialize (IH (dates_valid_cons _ _ Hvalid)).
  rewrite delays_binary64_cons. rewrite delays_cons in Hsmall |- *. unfold delay in *.
  destruct (resolutionTime inc) as [r|]; [| now apply IH].
  apply Forall_cons in Hsmall as [Hdelay Hrest].
  cbn [map]. rewrite IH by assumption. f_equal.
  apply of_Z_sub; [apply valid_small; now apply Hr | now apply valid_small | assumption].
Qed.

(** Integers add without rounding as long as the sums stay below 2^53. *)
Lemma sum_of_Z_exact (ds : list Z) (a : Z) :
  Z.abs a + Zsum (map Z.abs ds) < 2 ^ 53 ->
  fold_left (fun sum d => (sum + d)%float) (map Binary64.of_Z ds) (Binary64.of_Z a)
  = Binary64.of_Z (a + Zsum ds).
Proof.
  revert a; induction ds as [|d ds IH]; intros a Hsum.
  - cbn. now rewrite Z.add_0_r.
  - unfold Zsum in *. cbn [map foldr fold_left] in *.
    pose proof (Zsum_abs_nonneg ds) as Hpos. unfold Zsum in Hpos.
    rewrite of_Z_add by lia. rewrite IH by lia. f_equal. lia.
Qed.

Lemma sum_binary64_exact (ds : list Z) :
  Zsum (map Z.abs ds) < 2 ^ 53 ->
  sum_binary64 (map Binary64.of_Z ds) = Binary64.of_Z (Zsum ds).
Proof.
  intros Hsum. unfold sum_binary64. change 0%float with (Binary64.of_Z 0).
  rewrite sum_of_Z_exact by (cbn [Z.abs]; lia). reflexivity.
Qed.

(** With valid time values and delays that add up to less than 2^53 ms, the
    sum [calculateMTTR] accumulates is the exact total of the delays; only
    the two divisions round. *)
Lemma calculateMTTR_binary64_exact_sum (incidents : list Incident) :
  dates_valid incidents ->
  Zsum (map Z.abs (delays incidents)) < 2 ^ 53 ->
  delays incidents <> [] ->
  calculateMTTR incidents
  = (Binary64.of_Z (Zsum (delays incidents))
     / Binary64.of_Z (Z.of_nat (length (delays incidents)))
     / Binary64.of_Z 3600000)%float.
Proof.
  intros Hvalid Hsum Hsome.
  rewrite calculateMTTR_binary64_delays.
  rewrite delays_binary64_exact by (try assumption; now apply Zsum_abs_each).
  remember (delays incidents) as ds eqn:E. destruct ds as [|d ds]; [congruence |].
  change (match map Binary64.of_Z (d :: ds) with
          | [] => 0%float
          | _ :: _ =>
              (sum_binary64 (map Binary64.of_Z (d :: ds))
               / Binary64.of_Z (Z.of_nat (length (map Binary64.of_Z (d :: ds))))
               / Binary64.of_Z 3600000)%float
          end
          = (Binary64.of_Z (Zsum (d :: ds)) / Binary64.of_Z (Z.of_nat (length (d :: ds)))
             / Binary64.of_Z 3600000)%float).
  cbn [map]. change (Binary64.of_Z d :: map Binary64.of_Z ds)
    with (map Binary64.of_Z (d :: ds)).
  now rewrite sum_binary64_exact, length_map by assumption.
Qed.

Lemma delays_le_length (incidents : list Incident) :
  (length (delays incidents) <= length incidents)%nat.
Proof.
  induction incidents as [|inc incidents IH]; [reflexivity |].
  rewrite delays_cons. destruct (delay inc); cbn [length]; lia.
Qed.

(** With valid time values every delay is a number of magnitude at most
    2^54 (ms). *)
Lemma delays_binary64_bound (incidents : list Incident) :
  dates_valid incidents ->
  Forall (fun d => is_finite d /\ Z.abs (scaled d) <= 2 ^ (54 + 1074))
    (delays_binary64 incidents).
Proof.
  induction incidents as [|inc incidents IH]; intros Hvalid; [constructor |].
  destruct (Hvalid inc ltac:(left)) as [Hd Hr].
  specialize (IH (dates_valid_cons _ _ Hvalid)).
  rewrite delays_binary64_cons.
  destruct (resolutionTime inc) as [r|]; [| exact IH].
  specialize (Hr r eq_refl). constructor; [| exact IH].
  destruct (scaled_of_Z r (valid_small r Hr)) as [Hfr Hsr].
  destruct (scaled_of_Z (detectionTime inc) (valid_small _ Hd)) as [Hfd Hsd].
  pose proof (pow2_pos 1074 ltac:(lia)) as HP.
  assert (2 ^ (54 + 1074) = 18014398509481984 * 2 ^ 1074) as HX
    by (rewrite Z.pow_add_r by lia; reflexivity).
  unfold JsDate.valid, JsDate.maxTime in Hd, Hr.
  assert (0 <= 1 < 2 ^ 53) as Hc by (split; [lia | reflexivity]).
  assert (Z.abs (scaled (Binary64.of_Z (detectionTime inc))) <= 1 * 2 ^ (54 + 1074)) as Hy.
  { rewrite Hsd, Z.mul_1_l, HX, Z.abs_mul, (Z.abs_eq (2 ^ 1074)) by lia.
    apply Z.mul_le_mono_nonneg_r; lia. }
  assert (Z.abs (scaled (Binary64.of_Z r) - scaled (Binary64.of_Z (detectionTime inc)))
          <= 1 * 2 ^ (54 + 1074)) as Hdiff.
  { rewrite Hsr, Hsd, <- Z.mul_sub_distr_r, Z.mul_1_l, HX, Z.abs_mul,
      (Z.abs_eq (2 ^ 1074)) by lia.
    apply Z.mul_le_mono_nonneg_r; lia. }
  destruct (sub_bound (Binary64.of_Z r) (Binary64.of_Z (detectionTime inc)) 1 54
              Hfr Hfd Hc ltac:(lia) Hy Hdiff) as (Hf & Hb & _).
  split; [exact Hf | lia].
Qed.

(** A delay that is not negative is not negative as a double. *)
Lemma delays_binary64_nonneg (incidents : list Incident) :
  dates_valid incidents ->
  Forall (fun d => 0 <= d) (delays incidents) ->
  Forall (fun d => 0 <= scaled d) (delays_binary64 incidents).
Proof.
  induction incidents as [|inc incidents IH]; intros Hvalid Hpos; [constructor |].
  destruct (Hvalid inc ltac:(left)) as [Hd Hr].
  specialize (IH (dates_valid_cons _ _ Hvalid)).
  rewrite delays_binary64_cons. rewrite delays_cons in Hpos. unfold delay in Hpos.
  destruct (resolutionTime inc) as [r|]; [| now apply IH].
  apply Forall_cons in Hpos as [Hdelay Hrest].
  specialize (Hr r eq_refl). constructor; [| now apply IH].
  destruct (scaled_of_Z r (valid_small r Hr)) as [Hfr Hsr].
  destruct (scaled_of_Z (detectionTime inc) (valid_small _ Hd)) as [Hfd Hsd].
  pose proof (pow2_pos 1074 ltac:(lia)) as HP.
  assert (2 ^ (54 + 1074) = 18014398509481984 * 2 ^ 1074) as HX
    by (rewrite Z.pow_add_r by lia; reflexivity).
  unfold JsDate.valid, JsDate.maxTime in Hd, Hr.
  assert (0 <= 1 < 2 ^ 53) as Hc by (split; [lia | reflexivity]).
  assert (Z.abs (scaled (Binary64.of_Z (detectionTime inc))) <= 1 * 2 ^ (54 + 1074)) as Hy.
  { rewrite Hsd, Z.mul_1_l, HX, Z.abs_mul, (Z.abs_eq (2 ^ 1074)) by lia.
    apply Z.mul_le_mono_nonneg_r; lia. }
  assert (Z.abs (scaled (Binary64.of_Z r) - scaled (Binary64.of_Z (detectionTime inc)))
          <= 1 * 2 ^ (54 + 1074)) as Hdiff.
  { rewrite Hsr, Hsd, <- Z.mul_sub_distr_r, Z.mul_1_l, HX, Z.abs_mul,
      (Z.abs_eq (2 ^ 1074)) by lia.
    apply Z.mul_le_mono_nonneg_r; lia. }
  destruct (sub_bound (Binary64.of_Z r) (Binary64.of_Z (detectionTime inc)) 1 54
              Hfr Hfd Hc ltac:(lia) Hy Hdiff) as (_ & _ & Hsign & _).
  apply Hsign. rewrite Hsr, Hsd, <- Z.mul_sub_distr_r. apply Z.mul_nonneg_nonneg; lia.
Qed.

(** The sum of [n] such delays is a number of magnitude at most n * 2^54,
    and not negative when no delay is. *)
Lemma sum_binary64_bound (ds : list float) (acc : float) (j : Z) :
  Forall (fun d => is_finite d /\ Z.abs (scaled d) <= 2 ^ (54 + 1074)) ds ->
  is_finite acc -> 0 <= j -> Z.abs (scaled acc) <= j * 2 ^ (54 + 1074) ->
  j + Z.of_nat (length ds) < 2 ^ 53 ->
  is_finite (fold_left (fun sum d => (sum + d)%float) ds acc)
  /\ Z.abs (scaled (fold_left (fun sum d => (sum + d)%float) ds acc))
     <= (j + Z.of_nat (length ds)) * 2 ^ (54 + 1074)
  /\ (Forall (fun d => 0 <= scaled d) ds -> 0 <= scaled acc ->
      0 <= scaled (fold_left (fun sum d => (sum + d)%float) ds acc)).
Proof.
  intros Hall. revert acc j.
  induction Hall as [|d ds [Hfd Hd] _ IH]; intros acc j Hfacc Hj Hacc Hlen.
  - cbn. rewrite Z.add_0_r. now repeat split.
  - cbn [fold_left length] in *. rewrite Nat2Z.inj_succ in *.
    pose proof (pow2_pos (54 + 1074) ltac:(lia)) as HX.
    assert (Z.abs (scaled d) <= (j + 1) * 2 ^ (54 + 1074)) as Hy by nia.
    assert (Z.abs (scaled acc + scaled d) <= (j + 1) * 2 ^ (54 + 1074)) as Hsum by nia.
    destruct (add_bound acc d (j + 1) 54 Hfacc Hfd ltac:(lia) ltac:(lia) Hy Hsum)
      as (Hf & Hb & Hsign & _).
    replace (j + Z.succ (Z.of_nat (length ds)))
      with ((j + 1) + Z.of_nat (length ds)) by lia.
    destruct (IH (acc + d)%float (j + 1) Hf ltac:(lia) Hb ltac:(lia))
      as (Hf' & Hb' & Hsign').
    split; [exact Hf' |]. split; [exact Hb' |].
    intros [Hd0 Hds]%Forall_cons Hacc0. apply Hsign'; [exact Hds |].
    apply Hsign. lia.
Qed.

(** With valid time values and an array of less than 2^32 incidents (every
    JavaScript array is), [calculateMTTR] is a number of magnitude at most
    2^56, and not negative when no delay is. *)
Lemma calculateMTTR_binary64_bound (incidents : list Incident) :
  dates_valid incidents -> Z.of_nat (length incidents) < 2 ^ 32 ->
  is_finite (calculateMTTR incidents)
  /\ Z.abs (scaled (calculateMTTR incidents)) <= 2 ^ (56 + 1074)
  /\ (Forall (fun d => 0 <= d) (delays incidents) ->
      0 <= scaled (calculateMTTR incidents)).
Proof.
  intros Hvalid Hlen. rewrite calculateMTTR_binary64_delays.
  pose proof (delays_binary64_bound incidents Hvalid) as Hall.
  pose proof (delays_binary64_nonneg incidents Hvalid) as Hsigns.
  pose proof (delays_binary64_length incidents) as Hn.
  pose proof (delays_le_length incidents) as Hle.
  pose proof (pow2_pos 1074 ltac:(lia)) as HP.
  destruct (delays_binary64 incidents) as [|d ds] eqn:E.
  { split; [exact I |]. change (scaled 0%float) with 0.
    pose proof (pow2_pos (56 + 1074) ltac:(lia)). cbn [Z.abs]. lia. }
  set (n := Z.of_nat (length (d :: ds))).
  assert (1 <= n < 2 ^ 32) as Hnr by (subst n; cbn [length] in *; lia).
  assert (2 ^ 32 < 2 ^ 53) as H32 by reflexivity.
  destruct (sum_binary64_bound (d :: ds) 0%float 0 Hall I ltac:(lia))
    as (Hfs & Hs & Hs0); [cbn; lia | fold n; lia |].
  fold n in Hs. rewrite Z.add_0_l in Hs.
  change (fold_left (fun sum d => (sum + d)%float) (d :: ds) 0%float)
    with (sum_binary64 (d :: ds)) in *.
  destruct (scaled_of_Z n ltac:(lia)) as [Hfn Hsn].
  assert (2 ^ (54 + 1074) = 2 ^ 54 * 2 ^ 1074) as H54 by (apply Z.pow_add_r; lia).
  assert (2 ^ (55 + 1074) = 2 ^ 55 * 2 ^ 1074) as H55 by (apply Z.pow_add_r; lia).
  assert (2 ^ 55 = 2 * 2 ^ 54) as Hdouble by reflexivity.
  assert (0 < 2 ^ 54) as HP54 by reflexivity.
  assert (0 < Z.abs (scaled (Binary64.of_Z n))) as Hn0 by (rewrite Hsn; nia).
  assert (Z.abs (scaled (sum_binary64 (d :: ds)))
          < 2 ^ 55 * Z.abs (scaled (Binary64.of_Z n))) as Hq1.
  { rewrite Hsn, Z.abs_mul, (Z.abs_eq n), (Z.abs_eq (2 ^ 1074)) by lia.
    rewrite H54 in Hs. rewrite Hdouble. nia. }
  destruct (div_bound (sum_binary64 (d :: ds)) (Binary64.of_Z n) 55
              Hfs ltac:(lia) Hn0 Hq1) as (Hf1 & Hb1 & Hsign1).
  destruct (scaled_of_Z 3600000 ltac:(reflexivity)) as [Hfc Hsc].
  assert (0 < Z.abs (scaled (Binary64.of_Z 3600000))) as Hc0 by (rewrite Hsc; nia).
  assert (Z.abs (scaled (sum_binary64 (d :: ds) / Binary64.of_Z n)%float)
          < 2 ^ 56 * Z.abs (scaled (Binary64.of_Z 3600000))) as Hq2.
  { rewrite Hsc, Z.abs_mul, (Z.abs_eq 3600000), (Z.abs_eq (2 ^ 1074)) by lia.
    rewrite H55 in Hb1. assert (0 < 2 ^ 55) by reflexivity.
    assert (2 ^ 56 = 2 * 2 ^ 55) as -> by reflexivity. nia. }
  destruct (div_bound (sum_binary64 (d :: ds) / Binary64.of_Z n)%float
              (Binary64.of_Z 3600000) 56 Hf1 ltac:(lia) Hc0 Hq2) as (Hf2 & Hb2 & Hsign2).
  split; [assumption |]. split; [assumption |].
  intros Hpos. apply Hsign2; [| rewrite Hsc; nia].
  apply Hsign1; [| rewrite Hsn; nia].
  apply Hs0; [now apply Hsigns | reflexivity].
Qed.

(** A double that is a number, as a [JsNumber.number]. *)
Lemma to_number_scaled (x : float) (B : Z) :
  is_finite x -> Z.abs (scaled x) <= B * 2 ^ 1074 ->
  exists q, to_number x = Finite q /\ (Qabs q <= inject_Z B)%Q
            /\ (0 <= scaled x -> (0 <= q)%Q).
Proof.
  unfold is_finite, scaled, to_number. intros Hfin Hle.
  pose proof (Prim2SF_valid x) as Hvalid.
  pose proof (pow2_pos 1074 ltac:(lia)) as HP.
  destruct (Prim2SF x) as [s|s| |s m e]; try contradiction.
  - exists 0%Q. split; [reflexivity |]. cbn [SF_scaled Z.abs] in Hle.
    split; [unfold Qle; cbn; nia | intros _; discriminate].
  - destruct (valid_finite _ _ _ Hvalid) as (He & _).
    rewrite SF_scaled_finite_abs in Hle.
    eexists. split; [reflexivity |].
    unfold pow2. destruct (Z.leb_spec 0 e) as [Hpos | Hneg].
    + pose proof (pow2_pos e Hpos) as HPe.
      rewrite (Z.pow_add_r 2 e 1074), Z.mul_assoc in Hle by lia.
      apply Z.mul_le_mono_pos_r in Hle; [| assumption].
      assert (0 < Zpos m * 2 ^ (e + 1074)) as Hmpos by (apply Z.mul_pos_pos; lia).
      unfold Qle, Qabs, Qmult, inject_Z. cbn [Qnum Qden Pos.mul].
      rewrite !Z.mul_1_r, Z.abs_mul, (Z.abs_eq (2 ^ e)) by lia.
      split; [destruct s; cbn [Z.abs]; lia |].
      cbn [SF_scaled]. destruct s; cbn [cond_Zopp]; [lia | intros _; nia].
    + pose proof (pow2_pos (- e) ltac:(lia)) as HPe.
      pose proof (pow2_pos (e + 1074) ltac:(lia)) as HPs.
      assert (2 ^ 1074 = 2 ^ (- e) * 2 ^ (e + 1074)) as Hsplit.
      { rewrite <- Z.pow_add_r by lia. f_equal. lia. }
      rewrite Hsplit, Z.mul_assoc in Hle.
      apply Z.mul_le_mono_pos_r in Hle; [| assumption].
      assert (0 < Zpos m * 2 ^ (e + 1074)) as Hmpos by (apply Z.mul_pos_pos; lia).
      unfold Qle, Qabs, Qmult, inject_Z. cbn [Qnum Qden Pos.mul].
      rewrite Pos.mul_1_l, !Z.mul_1_r, Z2Pos.id by assumption.
      split; [destruct s; cbn [Z.abs]; lia |].
      cbn [SF_scaled]. destruct s; cbn [cond_Zopp]; [lia | intros _; lia].
Qed.

End Binary64Values.

Section Binary64Theorems.
Import JsString JsNumber IncidentTracker Binary64.
Local Open Scope list_scope.

(** C4, as the specification states it, fails: the code adds and divides in
    binary64, rounding after each operation.  For the three incidents of
    [one_two_four_seconds], resolved 1 s, 2 s and 4 s after their detection,
    the double [calculateMTTR] returns is not the mean 7/10800 of the delays
    in hours (which no double is), and it is not the double nearest to that
    mean either: the next double below it is nearer. *)
Lemma calculateMTTR_binary64_not_mean :
  delays (run one_two_four_seconds constructor) = [1000; 2000; 4000]%Z
  /\ exists q below : Q,
       to_number (calculateMTTR (run one_two_four_seconds constructor))
       = Finite q
       /\ to_number
            (next_down (calculateMTTR (run one_two_four_seconds constructor)))
          = Finite below
       /\ ~ q == mean (map hours (delays (run one_two_four_seconds constructor)))
       /\ (Qabs (below - mean (map hours (delays (run one_two_four_seconds constructor))))
           < Qabs (q - mean (map hours (delays (run one_two_four_seconds constructor)))))%Q.
Proof.
  split; [vm_compute; reflexivity |].
  eexists _, _. split; [vm_compute; reflexivity |].
  split; [vm_compute; reflexivity |].
  split; [intros H; vm_compute in H; discriminate | vm_compute; reflexivity].
Qed.

(** C4 (amended): [calculateMTTR()] is 0 when no incident is resolved (no
    division takes place).  Otherwise it is the double obtained by adding to
    0, one after the other and in the order of the array, the doubles
    (resolution time - detection time) of the incidents with a resolution
    time, then dividing the sum by the number of these incidents and the
    quotient by 3,600,000, every operation in binary64.  When the time
    values are valid Date values and the delays add up, in absolute value,
    to less than 2^53 ms, the differences and the sum are exact: the result
    is the exact total of the delays, divided by their number and then by
    3,600,000, the two divisions rounded.  With valid time values and less
    than 2^32 incidents the result is a number (neither [NaN] nor an
    infinity).  With two resolved incidents whose delays are one hour and
    three hours it is 2. *)
Theorem calculateMTTR_binary64_value (incidents : list Incident) :
  (delays incidents = [] -> calculateMTTR incidents = 0%float)
  /\ (delays incidents <> [] ->
      calculateMTTR incidents
      = (sum_binary64 (delays_binary64 incidents)
         / Binary64.of_Z (Z.of_nat (length (delays incidents)))
         / Binary64.of_Z 3600000)%float)
  /\ (dates_valid incidents ->
      (Zsum (map Z.abs (delays incidents)) < 2 ^ 53)%Z ->
      delays incidents <> [] ->
      calculateMTTR incidents
      = (Binary64.of_Z (Zsum (delays incidents))
         / Binary64.of_Z (Z.of_nat (length (delays incidents)))
         / Binary64.of_Z 3600000)%float)
  /\ (dates_valid incidents ->
      (Z.of_nat (length incidents) < 2 ^ 32)%Z ->
      exists q : Q, to_number (calculateMTTR incidents) = Finite q)
  /\ (dates_valid incidents ->
      delays incidents = [3600000; 10800000]%Z
      \/ delays incidents = [10800000; 3600000]%Z ->
      calculateMTTR incidents = 2%float).
Proof.
  split; [apply calculateMTTR_binary64_nothing_resolved |].
  split; [| split; [apply calculateMTTR_binary64_exact_sum | split]].
  - rewrite calculateMTTR_binary64_delays.
    intros Hsome. rewrite <- delays_binary64_length.
    destruct (delays_binary64 incidents) as [|d ds] eqn:E; [| reflexivity].
    exfalso. apply Hsome. pose proof (delays_binary64_length incidents) as Hlen.
    rewrite E in Hlen. now destruct (delays incidents).
  - intros Hvalid Hlen.
    destruct (calculateMTTR_binary64_bound incidents Hvalid Hlen) as (Hfin & Hbound & _).
    rewrite Z.pow_add_r in Hbound by lia.
    destruct (to_number_scaled _ _ Hfin Hbound) as (q & Hq & _). now exists q.
  - intros Hvalid Hdelays.
    rewrite calculateMTTR_binary64_exact_sum; try assumption.
    + destruct Hdelays as [-> | ->]; vm_compute; reflexivity.
    + destruct Hdelays as [-> | ->]; vm_compute; reflexivity.
    + destruct Hdelays as [-> | ->]; discriminate.
Qed.

(** The theorem at three arrays: the empty one; that of
    [one_and_three_hours], with delays of one and three hours; and that of
    [one_two_four_seconds], whose total delay of 7000 ms is exact. *)
Lemma calculateMTTR_binary64_value_witness :
  calculateMTTR constructor = 0%float
  /\ dates_valid (run one_and_three_hours constructor)
  /\ calculateMTTR (run one_and_three_hours constructor) = 2%float
  /\ dates_valid (run one_two_four_seconds constructor)
  /\ calculateMTTR (run one_two_four_seconds constructor)
     = (7000 / 3 / 3600000)%float.
Proof.
  assert (dates_valid (run one_and_three_hours constructor)) as Hvalid.
  { intros inc Hin. unfold JsDate.valid, JsDate.maxTime.
    repeat (apply elem_of_cons in Hin as [-> | Hin];
            [split; [| intros r [= <-]]; cbn; lia |]).
    now apply elem_of_nil in Hin. }
  assert (dates_valid (run one_two_four_seconds constructor)) as Hvalid'.
  { intros inc Hin. unfold JsDate.valid, JsDate.maxTime.
    repeat (apply elem_of_cons in Hin as [-> | Hin];
            [split; [| intros r [= <-]]; cbn; lia |]).
    now apply elem_of_nil in Hin. }
  split; [| split; [exact Hvalid | split; [| split; [exact Hvalid' |]]]].
  - exact (proj1 (calculateMTTR_binary64_value constructor) eq_refl).
  - exact (proj2 (proj2 (proj2 (proj2
             (calculateMTTR_binary64_value (run one_and_three_hours constructor)))))
             Hvalid (or_introl eq_refl)).
  - refine (eq_trans
      (proj1 (proj2 (proj2
         (calculateMTTR_binary64_value (run one_two_four_seconds constructor))))
         Hvalid' _ _) _).
    + vm_compute. reflexivity.
    + vm_compute. discriminate.
    + vm_compute. reflexivity.
Defined.

End Binary64Theorems.

(** ** Printing numbers *)

Section NumberFacts.
Import JsString JsNumber.

Lemma all_digits_app (a b : string) :
  all_digits (a ++ b) = all_digits a && all_digits b.
Proof.
  induction a as [|c a IH]; [reflexivity |]. cbn. now rewrite IH, andb_assoc.
Qed.

Lemma length_app_string (a b : string) :
  String.length (a ++ b) = (String.length a + String.length b)%nat.
Proof. induction a as [|c a IH]; cbn; [reflexivity | now rewrite IH]. Qed.

Lemma all_digits_zeros (k : nat) : all_digits (zeros k) = true.
Proof. induction k as [|k IH]; [reflexivity | exact IH]. Qed.

Lemma length_zeros (k : nat) : String.length (zeros k) = k.
Proof. induction k as [|k IH]; cbn; [reflexivity | now rewrite IH]. Qed.

Lemma all_digits_uint (d : Decimal.uint) :
  all_digits (NilEmpty.string_of_uint d) = true.
Proof. induction d; cbn; try reflexivity; exact IHd. Qed.

Lemma all_digits_decimal (n : N) : all_digits (decimal n) = true.
Proof. apply all_digits_uint. Qed.

Lemma decimal_nonempty (n : N) : (1 <= String.length (decimal n))%nat.
Proof.
  unfold decimal. destruct n as [|p]; [cbn; lia |].
  cbn [N.to_uint]. pose proof (DecimalPos.Unsigned.to_uint_nonnil p) as Hnil.
  destruct (Pos.to_uint p); [congruence | cbn; lia ..].
Qed.

(** Cutting a string at [n] gives back the string, and a first part of
    length [n]. *)
Lemma substring_cut (s : string) (n : nat) :
  (n <= String.length s)%nat ->
  substring 0 n s ++ substring n (String.length s - n) s = s
  /\ String.length (substring 0 n s) = n.
Proof.
  revert s; induction n as [|n IH]; intros s Hn.
  - rewrite Nat.sub_0_r. split; [| now destruct s].
    assert (forall t, substring 0 (String.length t) t = t) as Hall.
    { induction t as [|c t IHt]; cbn; [reflexivity | now rewrite IHt]. }
    destruct s; cbn; [reflexivity |]. now rewrite Hall.
  - destruct s as [|c s]; [cbn in Hn; lia |]. cbn in Hn.
    destruct (IH s ltac:(lia)) as [Hcut Hlen]. cbn. now rewrite Hcut, Hlen.
Qed.

Context {platform : Platform}.

(** Below 10^21 in magnitude, [toFixed(2)] prints two decimals. *)
Lemma toFixed2_two_decimals (q : Q) :
  (Qabs q < inject_Z ten21)%Q -> two_decimals (toFixed2 (Finite q)).
Proof.
  intros Hsmall. cbn [toFixed2].
  assert (Qle_bool (inject_Z ten21) (Qabs q) = false) as ->.
  { apply not_true_is_false. intros H%Qle_bool_iff. now apply Qlt_not_le in Hsmall. }
  set (n := Qfloor (Qabs q * 100 + (1 # 2))).
  set (m0 := if (n =? 0)%Z then "0" else decimal (Z.to_N n)).
  set (m := if (String.length m0 <=? 2)%nat then pad 3 m0 else m0).
  assert (all_digits m0 = true /\ (1 <= String.length m0)%nat) as [Hd0 Hl0].
  { subst m0. destruct (n =? 0)%Z; [now cbn |].
    split; [apply all_digits_decimal | apply decimal_nonempty]. }
  assert (all_digits m = true /\ (3 <= String.length m)%nat) as [Hd Hl].
  { subst m. destruct (Nat.leb_spec (String.length m0) 2) as [Hle | Hgt].
    - unfold pad. rewrite all_digits_app, length_app_string, all_digits_zeros,
        length_zeros, Hd0. split; [reflexivity | lia].
    - split; [assumption | lia]. }
  destruct (substring_cut m (String.length m - 2)) as [Hcut Hlen]; [lia |].
  replace (String.length m - (String.length m - 2))%nat with 2%nat in Hcut by lia.
  set (a := substring 0 (String.length m - 2) m) in *.
  set (b := substring (String.length m - 2) 2 m) in *.
  assert (String.length b = 2%nat) as Hb.
  { apply (f_equal String.length) in Hcut. rewrite length_app_string in Hcut. lia. }
  assert (all_digits a = true /\ all_digits b = true) as [Ha Hb'].
  { rewrite <- Hcut, all_digits_app in Hd. now apply andb_prop in Hd. }
  exists (if is_negative (Finite q) then "-" else ""), a, b.
  split; [reflexivity |]. split; [destruct (is_negative _); auto |].
  split; [| now repeat split].
  intros Hempty. rewrite Hempty in Hlen. cbn in Hlen. lia.
Qed.

End NumberFacts.

(** ** The incident tracker: [generateMarkdownReport] *)

Section ReportFacts.
Import JsString JsNumber IncidentTracker.
Context {platform : Platform}.

Lemma unlines_app (a b : list string) :
  unlines (a ++ b)%list = unlines a ++ unlines b.
Proof.
  induction a as [|l a IH]; [reflexivity |].
  cbn [app unlines foldr]. fold (unlines (a ++ b)%list). fold (unlines a).
  now rewrite IH, !append_assoc.
Qed.

Lemma rca_shown_truthy (inc : Incident) :
  (if truthy_string (rca inc)
   then match rca inc with Some text => text | None => "" end
   else "Pending") = rca_shown inc.
Proof.
  unfold rca_shown. now destruct (rca inc) as [[|c text]|].
Qed.

Lemma incident_section_lines (inc : Incident) :
  incident_section inc = unlines (section_lines inc).
Proof.
  unfold incident_section, section_lines, section_lines_with, unlines.
  rewrite rca_shown_truthy. cbn [foldr]. now rewrite !append_assoc.
Qed.

Lemma fold_sections (incidents : list Incident) (report : string) :
  fold_left (fun report inc => report ++ incident_section inc) incidents report
  = report ++ unlines (concat (map section_lines incidents)).
Proof.
  revert report; induction incidents as [|inc incidents IH]; intros report.
  - cbn. now rewrite append_empty_r.
  - cbn [fold_left map concat]. rewrite IH, unlines_app, incident_section_lines.
    now rewrite append_assoc.
Qed.

(** The report without rounding, line by line. *)
Lemma report_lines_exact_eq (incidents : list Incident) :
  generateMarkdownReport_exact incidents
  = unlines (report_lines_exact rca_shown incidents).
Proof.
  unfold generateMarkdownReport_exact, report_lines_exact.
  rewrite fold_sections, !unlines_app. fold section_lines.
  cbn [unlines foldr]. now rewrite !append_assoc.
Qed.

(** The report, line by line. *)
Lemma report_lines_eq (incidents : list Incident) :
  generateMarkdownReport incidents
  = unlines (report_lines_with rca_shown incidents).
Proof.
  unfold generateMarkdownReport, report_lines_with.
  rewrite fold_sections, !unlines_app. fold section_lines.
  cbn [unlines foldr]. now rewrite !append_assoc.
Qed.

End ReportFacts.

Section ReportTheorems.
Import JsString JsNumber IncidentTracker.

(** C6, as the specification states it, fails: for the incident of
    [empty_rca_calls], whose rca is the empty string, the report does not
    show the rca text in the RCA field (it shows [Pending]). *)
Lemma report_empty_rca_not_as_specified :
  generateMarkdownReport (platform := example_platform)
    (run empty_rca_calls constructor)
  <> unlines (report_lines_with (platform := example_platform) rca_as_specified
                (run empty_rca_calls constructor)).
Proof. vm_compute. discriminate. Qed.

Context {platform : Platform}.

(** C6 (amended): for every array, the report is the title line and an empty
    line, then one section per incident in the order of the array (the
    identifier and the title, the severity, the affected services joined by
    [", "], the detection time in ISO 8601, the resolution time in ISO 8601
    or [Unresolved], and the rca text when it is present and not empty or
    [Pending] otherwise, then an empty line), then the line
    [**MTTR:** X hours] with [X] the double [calculateMTTR()] returns,
    printed by [toFixed(2)].  [X] is [0.00] when no incident is resolved;
    and when all times of the array are valid Date values and the array has
    less than 2^32 incidents (as every JavaScript array has), [X] is an
    optional minus sign, digits, a point and exactly two digits. *)
Theorem generateMarkdownReport_binary64_layout (incidents : list Incident) :
  generateMarkdownReport incidents
  = unlines
      (["# Incident Report"; ""]
       ++ concat (map (section_lines_with rca_shown) incidents)
       ++ [("**MTTR:** "
            ++ toFixed2 (Binary64.to_number (calculateMTTR incidents))
            ++ " hours")%string])%list
  /\ (delays incidents = []
      -> toFixed2 (Binary64.to_number (calculateMTTR incidents))
         = "0.00")
  /\ (dates_valid incidents ->
      (Z.of_nat (length incidents) < 2 ^ 32)%Z ->
      two_decimals
        (toFixed2 (Binary64.to_number (calculateMTTR incidents)))).
Proof.
  split; [apply report_lines_eq | split].
  - intros Hnone. now rewrite calculateMTTR_binary64_nothing_resolved.
  - intros Hvalid Hlen.
    destruct (calculateMTTR_binary64_bound incidents Hvalid Hlen) as (Hfin & Hbound & _).
    rewrite Z.pow_add_r in Hbound by lia.
    destruct (to_number_scaled _ _ Hfin Hbound) as (q & -> & Hq & _).
    apply toFixed2_two_decimals.
    eapply Qle_lt_trans; [exact Hq |]. reflexivity.
Qed.

(** C10: when an unresolved incident is resolved with the empty string as
    rca, its section of the report shows the resolution time in ISO 8601 and
    [Pending] in the RCA field; the other sections are those of the other
    incidents.  This holds with the MTTR line taken without rounding and
    with the MTTR line of the code's double. *)
Theorem generateMarkdownReport_empty_rca (before after : list Incident)
    (inc : Incident) (now : Z) (ident : Value) :
  (forall other, other ∈ before -> strict_equals (id other) ident = false) ->
  strict_equals (id inc) ident = true ->
  resolutionTime inc = None ->
  let incidents := snd (resolveIncident now ident "" (before ++ inc :: after)%list) in
  generateMarkdownReport_exact incidents
  = unlines
      (["# Incident Report"; ""]
       ++ concat (map section_lines before)
       ++ [ "## Incident #" ++ toString (inject_Z (id inc)) ++ ": " ++ title inc;
            "- **Severity:** " ++ severity inc;
            "- **Affected Services:** " ++ join ", " (affectedServices inc);
            "- **Detection Time:** " ++ JsDate.toISOString (detectionTime inc);
            "- **Resolution Time:** " ++ JsDate.toISOString now;
            "- **RCA:** Pending";
            "" ]%string
       ++ concat (map section_lines after)
       ++ [("**MTTR:** " ++ toFixed2 (calculateMTTR_exact incidents) ++ " hours")%string])%list
  /\ generateMarkdownReport incidents
     = unlines
         (["# Incident Report"; ""]
          ++ concat (map section_lines before)
          ++ [ "## Incident #" ++ toString (inject_Z (id inc)) ++ ": " ++ title inc;
               "- **Severity:** " ++ severity inc;
               "- **Affected Services:** " ++ join ", " (affectedServices inc);
               "- **Detection Time:** " ++ JsDate.toISOString (detectionTime inc);
               "- **Resolution Time:** " ++ JsDate.toISOString now;
               "- **RCA:** Pending";
               "" ]%string
          ++ concat (map section_lines after)
          ++ [("**MTTR:** "
               ++ toFixed2 (Binary64.to_number (calculateMTTR incidents))
               ++ " hours")%string])%list.
Proof.
  intros Hbefore Hinc Hres incidents. subst incidents.
  rewrite resolveIncident_unresolved by assumption. cbn [snd].
  rewrite report_lines_exact_eq, report_lines_eq.
  unfold report_lines_exact, report_lines_with.
  rewrite map_app, concat_app. cbn [map concat]. rewrite <- !app_assoc.
  split; reflexivity.
Qed.

End ReportTheorems.

Section ReportWitnesses.
Import JsString JsNumber IncidentTracker.

(** The layout theorem at the array of [fifty_four_seconds], whose times
    are valid: the double [calculateMTTR()] returns for a delay of 54 s lies
    just below 0.015, and the report shows 0.01. *)
Lemma generateMarkdownReport_binary64_layout_witness :
  generateMarkdownReport (platform := example_platform)
    (run fifty_four_seconds constructor)
  = unlines
      [ "# Incident Report"; "";
        "## Incident #1: origin down";
        "- **Severity:** high";
        "- **Affected Services:** cdn";
        "- **Detection Time:** 2023-11-14T22:13:20.000Z";
        "- **Resolution Time:** 2023-11-14T22:14:14.000Z";
        "- **RCA:** restarted";
        "";
        "**MTTR:** 0.01 hours" ]
  /\ dates_valid (run fifty_four_seconds constructor)
  /\ two_decimals
       (toFixed2 (platform := example_platform)
          (Binary64.to_number
             (calculateMTTR (run fifty_four_seconds constructor)))).
Proof.
  assert (dates_valid (run fifty_four_seconds constructor)) as Hvalid.
  { intros inc [-> | Hin]%elem_of_cons; [| now apply elem_of_nil in Hin].
    split; [| intros r [= <-]]; unfold JsDate.valid, JsDate.maxTime; cbn; lia. }
  split; [| split; [exact Hvalid |]].
  - refine (eq_trans
      (proj1 (generateMarkdownReport_binary64_layout (platform := example_platform)
                (run fifty_four_seconds constructor))) _).
    vm_compute. reflexivity.
  - refine (proj2 (proj2 (generateMarkdownReport_binary64_layout
                            (platform := example_platform)
                            (run fifty_four_seconds constructor))) Hvalid _).
    vm_compute. reflexivity.
Defined.

(** The whole report after one incident is created and resolved with the
    empty string as rca. *)
Lemma generateMarkdownReport_empty_rca_witness :
  let inc := {| id := 1; title := "origin down"; severity := "high";
                affectedServices := ["cdn"; "origin"];
                detectionTime := 1700000000000;
                resolutionTime := None; rca := None |} in
  let incidents := snd (resolveIncident 1700003600000 (VNumber 1) "" [inc]) in
  generateMarkdownReport_exact (platform := example_platform) incidents
  = unlines
      [ "# Incident Report"; "";
        "## Incident #1: origin down";
        "- **Severity:** high";
        "- **Affected Services:** cdn, origin";
        "- **Detection Time:** 2023-11-14T22:13:20.000Z";
        "- **Resolution Time:** 2023-11-14T23:13:20.000Z";
        "- **RCA:** Pending";
        "";
        "**MTTR:** 1.00 hours" ]
  /\ generateMarkdownReport (platform := example_platform) incidents
     = unlines
         [ "# Incident Report"; "";
           "## Incident #1: origin down";
           "- **Severity:** high";
           "- **Affected Services:** cdn, origin";
           "- **Detection Time:** 2023-11-14T22:13:20.000Z";
           "- **Resolution Time:** 2023-11-14T23:13:20.000Z";
           "- **RCA:** Pending";
           "";
           "**MTTR:** 1.00 hours" ].
Proof.
  intros inc incidents.
  assert (forall other : Incident,
            other ∈ [] -> strict_equals (id other) (VNumber 1) = false) as Hnone
    by (intros other Hother; now apply elem_of_nil in Hother).
  split.
  - refine (eq_trans
      (proj1 (generateMarkdownReport_empty_rca (platform := example_platform)
                [] [] inc 1700003600000 (VNumber 1) Hnone eq_refl eq_refl)) _).
    vm_compute. reflexivity.
  - refine (eq_trans
      (proj2 (generateMarkdownReport_empty_rca (platform := example_platform)
                [] [] inc 1700003600000 (VNumber 1) Hnone eq_refl eq_refl)) _).
    vm_compute. reflexivity.
Defined.

End ReportWitnesses.

(** ** The health check *)

Section HealthFacts.
Import HealthCheck.
Local Open Scope list_scope.
Local Open Scope Z_scope.

Lemma race_no_rejection {A} (ps : list (promise A)) :
  Forall (fun p => exists v, fulfilled_with p v) ps ->
  race (map rejection_of ps) = Pending.
Proof.
  induction 1 as [|p ps (v & t & ->) _ IH]; [reflexivity |].
  cbn [map race foldr rejection_of first_settled]. exact IH.
Qed.

Lemma fulfilments_all {A} (t0 : Z) (ps : list (promise A)) :
  Forall (fun p => exists v, fulfilled_with p v) ps ->
  exists t vs, fulfilments t0 ps = Some (t, vs) /\ Forall2 fulfilled_with ps vs.
Proof.
  induction 1 as [|p ps (v & t & ->) _ (t' & vs & IH & Hvs)].
  - exists t0, []. split; [reflexivity | constructor].
  - exists (Z.max t t'), (v :: vs). cbn [fulfilments]. rewrite IH.
    split; [reflexivity |]. constructor; [now exists t | assumption].
Qed.

(** [Promise.all] of promises that are all fulfilled is fulfilled, with
    their values in the same order. *)
Lemma all_fulfilled {A} (t0 : Z) (ps : list (promise A)) :
  Forall (fun p => exists v, fulfilled_with p v) ps ->
  exists t vs, all t0 ps = Settled t (Fulfilled vs) /\ Forall2 fulfilled_with ps vs.
Proof.
  intros Hps. destruct (fulfilments_all t0 ps Hps) as (t & vs & Hf & Hvs).
  exists t, vs. unfold all. now rewrite race_no_rejection, Hf.
Qed.

Context (w : World).

(** A probe never stays pending and is never rejected: the timer settles the
    race when [fetch] does not, and the [catch] branch turns a rejection into
    a result. *)
Lemma probe_fulfilled (timeout : Z) (k : nat) (u : string) :
  exists r, fulfilled_with (probe w timeout k u) r.
Proof.
  unfold probe, fetchWithTimeout, timeout_promise.
  cbn [race foldr first_settled].
  destruct (fetch w k u) as [|t [response | e]]; cbn [first_settled].
  - eexists; eexists; reflexivity.
  - destruct (t <=? _); eexists; eexists; reflexivity.
  - destruct (t <=? _); eexists; eexists; reflexivity.
Qed.

(** C7: for every list of URLs, the empty one included, and however each
    [fetch] ends (fulfilled, rejected or never settled), the promise
    [checkAPIHealth] returns is fulfilled, never rejected, with one result
    per URL in the order of the URLs.  When the GET of a URL settles before
    its timer fires: if it is fulfilled, the result has the response's
    status, the elapsed time, [healthy] true exactly for a status from 200 to
    299, and no error; if it is rejected, the result has status [null],
    [healthy] false, the elapsed time and the error's message.  When the
    timer fires before the GET settles, or the GET never settles, the result
    has status [null], [healthy] false, the elapsed time and the error
    [Timeout]. *)
Theorem checkAPIHealth_results (urls : list string) (timeout : option Z) :
  exists t results,
    checkAPIHealth w urls timeout = Settled t (Fulfilled results)
    /\ length results = length urls
    /\ forall k u, urls !! k = Some u ->
         exists r,
           results !! k = Some r
           /\ url r = u
           /\ let fires := timer_fires w k (default 5000 timeout) in
              let elapsed := fun t => clock w t - clock w (start_instant w k) in
              (forall tf response,
                 fetch w k u = Settled tf (Fulfilled response) -> tf < fires ->
                 status r = Some (response_status response)
                 /\ responseTime r = elapsed tf
                 /\ healthy r = bool_decide (200 <= response_status response <= 299)
                 /\ error r = None)
              /\ (forall tf e,
                    fetch w k u = Settled tf (Rejected e) -> tf < fires ->
                    status r = None /\ healthy r = false
                    /\ responseTime r = elapsed tf
                    /\ error r = Some (message e))
              /\ (fetch w k u = Pending
                  \/ (exists tf o, fetch w k u = Settled tf o /\ fires < tf) ->
                  status r = None /\ healthy r = false
                  /\ responseTime r = elapsed fires
                  /\ error r = Some "Timeout"%string).
Proof.
  unfold checkAPIHealth. set (d := default 5000 timeout).
  destruct (all_fulfilled (call_instant w) (imap (probe w d) urls))
    as (t & results & Hall & Hvs).
  { apply Forall_lookup. intros k p. rewrite list_lookup_imap.
    destruct (urls !! k) as [u|]; [| discriminate]. intros [= <-].
    apply probe_fulfilled. }
  exists t, results. split; [exact Hall |].
  pose proof (Forall2_length _ _ _ Hvs) as Hlen. rewrite length_imap in Hlen.
  split; [now symmetry |]. intros k u Hk.
  destruct (Forall2_lookup_l _ _ _ k (probe w d k u) Hvs) as (r & Hr & tr & Hprobe).
  { rewrite list_lookup_imap, Hk. reflexivity. }
  exists r. split; [exact Hr |].
  revert Hprobe. unfold probe, fetchWithTimeout, timeout_promise.
  cbn [race foldr first_settled].
  destruct (fetch w k u) as [|tf [response | e]]; cbn [first_settled].
  - intros [= _ <-]. cbn. split; [reflexivity |]. split; [| split].
    + intros ? ? [=].
    + intros ? ? [=].
    + intros _. repeat split.
  - destruct (Z.leb_spec tf (timer_fires w k d)) as [Hle | Hgt];
      intros [= _ <-]; cbn; (split; [reflexivity |]); (split; [| split]).
    + intros ? ? [= <- <-] _. repeat split.
      unfold response_ok. destruct response as [s]. cbn.
      destruct (Z.leb_spec 200 s), (Z.leb_spec s 299); cbn;
        first [rewrite bool_decide_eq_false_2 by lia
              | rewrite bool_decide_eq_true_2 by lia];
        reflexivity.
    + intros ? ? [=].
    + intros [[=] | (tf' & o & [= <- <-] & Hlt)]. lia.
    + intros ? ? [= <- <-] Hlt. lia.
    + intros ? ? [=].
    + intros _. repeat split.
  - destruct (Z.leb_spec tf (timer_fires w k d)) as [Hle | Hgt];
      intros [= _ <-]; cbn; (split; [reflexivity |]); (split; [| split]).
    + intros ? ? [=].
    + intros ? ? [= <- <-] _. repeat split.
    + intros [[=] | (tf' & o & [= <- <-] & Hlt)]. lia.
    + intros ? ? [=].
    + intros ? ? [= <- <-] Hlt. lia.
    + intros _. repeat split.
Qed.

End HealthFacts.

Section HealthExample.
Import HealthCheck.
Local Open Scope Z_scope.

(** The result on the example of the specification, and on no URL at all. *)
Lemma checkAPIHealth_fast_and_slow :
  checkAPIHealth fast_and_slow ["http://fast"; "http://slow"]%string (Some 100)
  = Settled 100 (Fulfilled [
      {| url := "http://fast"; status := Some 200; responseTime := 10;
         healthy := true; error := None |};
      {| url := "http://slow"; status := None; responseTime := 100;
         healthy := false; error := Some "Timeout"%string |} ])
  /\ checkAPIHealth fast_and_slow [] (Some 100) = Settled 0 (Fulfilled []).
Proof. split; reflexivity. Qed.

End HealthExample.

(** * Further properties *)

(** ** Vocabulary *)

Section FurtherVocabulary.
Import JsString JsNumber LogParser IncidentTracker HealthCheck.
Local Open Scope list_scope.

(** The lines that count as a hit and those that count as a miss. *)
Definition hit_lines (logs : list string) : list string :=
  filter (contains "HIT") logs.

Definition miss_lines (logs : list string) : list string :=
  filter (fun l => ~ contains "HIT" l /\ contains "MISS" l) logs.

(** The invariant of the arrays a tracker goes through: the incident at
    index [i] has the identifier [i + 1], and it has an rca exactly when it
    has a resolution time. *)
Definition numbered (incidents : list Incident) : Prop :=
  forall i inc, incidents !! i = Some inc ->
    id inc = (Z.of_nat i + 1)%Z
    /\ (is_Some (resolutionTime inc) <-> is_Some (rca inc)).

(** Two records of the same incident: all fields but the resolution time and
    the rca agree. *)
Definition same_incident (a b : Incident) : Prop :=
  id a = id b /\ title a = title b /\ severity a = severity b
  /\ affectedServices a = affectedServices b
  /\ detectionTime a = detectionTime b.

Definition is_create (c : Z * call) : bool :=
  match c with
  | (_, Create _ _ _) => true
  | (_, Resolve _ _) => false
  end.

(** A result as the function builds them: with a status it has no error
    and is healthy exactly for a status from 200 to 299; without a status it
    is unhealthy and has an error. *)
Definition result_well_formed (r : ApiHealthResult) : Prop :=
  match status r with
  | Some s => error r = None /\ healthy r = bool_decide (200 <= s <= 299)%Z
  | None => healthy r = false /\ is_Some (error r)
  end.

(** The world of [fast_and_slow] with another second endpoint: it answers
    500 after 50 ms. *)
Definition fast_and_failing : World := {|
  call_instant := 0;
  start_instant := fun _ => 0%Z;
  clock := fun t => (1700000000000 + t)%Z;
  fetch := fun k _ =>
    match k with
    | O => Settled 10 (Fulfilled {| response_status := 200 |})
    | _ => Settled 50 (Fulfilled {| response_status := 500 |})
    end;
  timer_fires := fun _ delay => (0 + delay)%Z
|}.

End FurtherVocabulary.


(** ** The log parser, on every input *)

Section LogParserMore.
Import JsString Regex503 LogParser.
Local Open Scope list_scope.

Lemma split_app_sep (c : ascii) (a b : string) :
  split c (a ++ String c b)%string = split c a ++ split c b.
Proof.
  induction a as [|x a IH]; cbn [append split].
  - now rewrite Ascii.eqb_refl.
  - destruct (Ascii.eqb x c); [now rewrite IH |].
    rewrite IH. pose proof (split_nonempty c a) as Hne.
    destruct (split c a) as [|p ps]; [congruence | reflexivity].
Qed.

(** A string without the separator is a single piece. *)
Lemma split_no_sep (c : ascii) (s : string) :
  ~ contains (String c "") s -> split c s = [s].
Proof.
  induction s as [|x s IH]; intros Hfree; [reflexivity |].
  cbn [split]. destruct (Ascii.eqb_spec x c) as [-> | Hxc].
  - exfalso. apply Hfree. now exists ""%string, s.
  - rewrite IH; [reflexivity |]. intros (a & b & ->).
    apply Hfree. now exists (String x a), b.
Qed.

(** Joining pieces that hold no separator and splitting again gives the
    pieces back. *)
Lemma split_join (c : ascii) (pieces : list string) :
  pieces <> [] ->
  Forall (fun p => ~ contains (String c "") p) pieces ->
  split c (join (String c "") pieces) = pieces.
Proof.
  induction pieces as [|p pieces IH]; intros Hne Hfree; [congruence |].
  apply Forall_cons in Hfree as [Hp Hfree].
  destruct pieces as [|q pieces].
  - cbn. now apply split_no_sep.
  - rewrite join_cons by discriminate. cbn [append].
    rewrite split_app_sep, split_no_sep by assumption.
    now rewrite IH.
Qed.

(** The first piece of a split is a prefix of the string. *)
Lemma split_head_prefix (c : ascii) (s p : string) (ps : list string) :
  split c s = p :: ps -> exists b, s = (p ++ b)%string.
Proof.
  revert p ps; induction s as [|x s IH]; intros p ps.
  - intros [= <- _]. now exists ""%string.
  - cbn [split]. destruct (Ascii.eqb x c).
    + intros [= <- _]. now exists (String x s).
    + destruct (split c s) as [|p' ps'] eqn:E.
      * intros [= <- _]. pose proof (split_nonempty c s). congruence.
      * intros [= <- _]. destruct (IH p' ps' eq_refl) as [b ->]. now exists b.
Qed.

(** Every piece of a split is a part of the string. *)
Lemma split_piece_contains (c : ascii) (s piece : string) :
  In piece (split c s) -> contains piece s.
Proof.
  revert piece; induction s as [|x s IH]; intros piece.
  - intros [<- | []]. now exists ""%string, ""%string.
  - cbn [split]. destruct (Ascii.eqb x c).
    + intros [<- | Hin]; [now exists ""%string, (String x s) |].
      destruct (IH piece Hin) as (a & b & ->). now exists (String x a), b.
    + destruct (split c s) as [|p ps] eqn:E.
      * pose proof (split_nonempty c s). congruence.
      * intros [<- | Hin].
        -- destruct (split_head_prefix c s p ps E) as [b ->].
           now exists ""%string, b.
        -- destruct (IH piece) as (a & b & ->); [now right |].
           now exists (String x a), b.
Qed.

(** The two tests of the filter amount to the pattern alone. *)
Lemma origin_error_test (line : string) :
  includes line " 503 " || matches line = matches line.
Proof.
  destruct (includes line " 503 ") eqn:E; [| reflexivity].
  cbn. symmetry. now apply includes_503_matches.
Qed.

Lemma parseOriginErrors_filter (log : string) :
  parseOriginErrors log = List.filter matches (split lf log).
Proof.
  unfold parseOriginErrors. apply List.filter_ext. intros line. apply origin_error_test.
Qed.

Lemma filter_twice {A} (f : A -> bool) (l : list A) :
  List.filter f (List.filter f l) = List.filter f l.
Proof.
  induction l as [|x l IH]; [reflexivity |]. cbn.
  destruct (f x) eqn:E; cbn; rewrite ?E, IH; reflexivity.
Qed.

(** X1: a line is returned by [parseOriginErrors] exactly when it is one of
    the pieces of the log between line feeds and holds [503] with no word
    character right before it and none right after it; the test for
    [" 503 "] never adds a line to those the pattern finds. *)
Theorem parseOriginErrors_member (log line : string) :
  (In line (parseOriginErrors log) <->
   In line (split lf log)
   /\ exists pre post,
        line = (pre ++ "503" ++ post)%string
        /\ side_is_word (last_char None pre) = false
        /\ side_is_word (first_char post) = false)
  /\ parseOriginErrors log = List.filter matches (split lf log).
Proof.
  split; [| apply parseOriginErrors_filter].
  rewrite parseOriginErrors_filter, List.filter_In. unfold matches.
  now rewrite match_from_spec.
Qed.

(** X2: the lines returned by [parseOriginErrors] come in the order of the
    log, each as often as it matches there (they form a subsequence of the
    lines of the log), and none of them holds a line feed. *)
Theorem parseOriginErrors_order (log : string) :
  sublist (parseOriginErrors log) (split lf log)
  /\ Forall (fun line => ~ contains nl line) (parseOriginErrors log).
Proof.
  split.
  - unfold parseOriginErrors. induction (split lf log) as [|l ls IH]; cbn.
    + constructor.
    + destruct (_ || _); now constructor.
  - apply List.Forall_forall. intros line Hin.
    apply List.filter_In in Hin as [Hin _]. now apply split_pieces in Hin.
Qed.

(** X3: a log that nowhere holds [503] gives no line at all. *)
Theorem parseOriginErrors_without_503 (log : string) :
  ~ contains "503" log -> parseOriginErrors log = [].
Proof.
  intros Hno. rewrite parseOriginErrors_filter.
  destruct (List.filter matches (split lf log)) as [|line rest] eqn:E; [reflexivity |].
  exfalso. assert (In line (List.filter matches (split lf log))) as Hin
    by (rewrite E; now left).
  apply List.filter_In in Hin as [Hin Hm].
  apply match_from_spec in Hm as (pre & post & -> & _).
  apply split_piece_contains in Hin as (a & b & ->).
  apply Hno. exists (a ++ pre)%string, (post ++ b)%string.
  now rewrite !append_assoc.
Qed.

(** X4: the lines of a log are judged one by one: for two logs put one after
    the other with a line feed between them, [parseOriginErrors] returns the
    lines of the first followed by the lines of the second. *)
Theorem parseOriginErrors_app (log1 log2 : string) :
  parseOriginErrors (log1 ++ nl ++ log2)%string
  = parseOriginErrors log1 ++ parseOriginErrors log2.
Proof.
  unfold parseOriginErrors, nl. cbn [append].
  now rewrite split_app_sep, List.filter_app.
Qed.

(** X5: the result can be parsed again: joined with line feeds and passed to
    [parseOriginErrors], the returned lines come back unchanged. *)
Theorem parseOriginErrors_again (log : string) :
  parseOriginErrors (join nl (parseOriginErrors log)) = parseOriginErrors log.
Proof.
  destruct (parseOriginErrors log) as [|line rest] eqn:E; [reflexivity |].
  rewrite <- E. rewrite (parseOriginErrors_filter (join _ _)). unfold nl.
  rewrite split_join.
  - rewrite parseOriginErrors_filter. apply filter_twice.
  - rewrite E. discriminate.
  - apply List.Forall_forall. intros l Hin. unfold parseOriginErrors in Hin.
    apply List.filter_In in Hin as [Hin _]. now apply split_pieces in Hin.
Qed.

(** A log of three requests, none of them answered with 503. *)
Lemma parseOriginErrors_without_503_witness :
  ~ contains "503" ("GET /a 200" ++ nl ++ "GET /b 404" ++ nl ++ "GET /c 500")%string
  /\ parseOriginErrors ("GET /a 200" ++ nl ++ "GET /b 404" ++ nl ++ "GET /c 500")%string
     = [].
Proof.
  assert (~ contains "503"
            ("GET /a 200" ++ nl ++ "GET /b 404" ++ nl ++ "GET /c 500")%string) as Hno.
  { intros H%includes_spec. vm_compute in H. discriminate H. }
  split; [exact Hno |]. exact (parseOriginErrors_without_503 _ Hno).
Defined.

End LogParserMore.

(** ** The cache statistics, on every input *)

Section CacheMore.
Import JsString JsNumber LogParser.
Local Open Scope list_scope.

(** The record [analyzeCachePerformance] returns, in terms of the lines that
    count. *)
Lemma analyzeCachePerformance_eq (logs : list string) :
  analyzeCachePerformance logs =
  let h := length (hit_lines logs) in
  let m := length (miss_lines logs) in
  {| hitRate :=
       if (0 <? h + m)%nat
       then Finite (inject_Z (Z.of_nat h) / inject_Z (Z.of_nat (h + m)))
       else Finite 0;
     hitCount := h;
     missCount := m |}.
Proof.
  unfold analyzeCachePerformance. rewrite fold_tally. cbn [Nat.add].
  fold (hit_lines logs) (miss_lines logs). cbn zeta.
  destruct (Nat.ltb_spec 0 (length (hit_lines logs) + length (miss_lines logs)))
    as [Hlt | Hge]; [| reflexivity].
  unfold div, of_Z.
  destruct (Qeq_bool (inject_Z (Z.of_nat _)) 0) eqn:Hz; [| reflexivity].
  apply Qeq_bool_eq in Hz. unfold Qeq in Hz. cbn in Hz. lia.
Qed.

(** A hit line is not a miss line: the two counts never exceed the number of
    lines. *)
Lemma hit_miss_length (logs : list string) :
  (length (hit_lines logs) + length (miss_lines logs) <= length logs)%nat.
Proof.
  unfold hit_lines, miss_lines. induction logs as [|l logs IH]; [cbn; lia |].
  rewrite !filter_cons. destruct (decide (contains "HIT" l)) as [Hh | Hh].
  - rewrite decide_False by tauto. cbn [length]. lia.
  - destruct (decide _); cbn [length]; lia.
Qed.

Lemma quotient_of_counts (h t : nat) (k : Z) :
  (0 < t)%nat ->
  (inject_Z (Z.of_nat h) / inject_Z (Z.of_nat t) == inject_Z k)%Q
  <-> Z.of_nat h = (k * Z.of_nat t)%Z.
Proof.
  intros Ht. assert (~ (inject_Z (Z.of_nat t) == 0)%Q) as Hnz
    by (unfold Qeq; cbn; lia).
  rewrite <- inject_Z_injective, inject_Z_mult. split.
  - intros H. rewrite <- H. field. exact Hnz.
  - intros H. rewrite H. field. exact Hnz.
Qed.

(** X6: the hit rate is always a finite number between 0 and 1; it is 0
    exactly when no line counts as a hit and 1 exactly when some line counts
    as a hit and none as a miss; and the two counts together never exceed
    the number of lines. *)
Theorem analyzeCachePerformance_rate (logs : list string) :
  let r := analyzeCachePerformance logs in
  (hitCount r + missCount r <= length logs)%nat
  /\ exists q,
       hitRate r = Finite q
       /\ (0 <= q <= 1)%Q
       /\ ((q == 0)%Q <-> hitCount r = 0%nat)
       /\ ((q == 1)%Q <-> (0 < hitCount r)%nat /\ missCount r = 0%nat).
Proof.
  intros r. subst r. rewrite analyzeCachePerformance_eq. cbn zeta.
  cbn [hitCount missCount hitRate].
  split; [apply hit_miss_length |].
  set (h := length (hit_lines logs)). set (m := length (miss_lines logs)).
  destruct (Nat.ltb_spec 0 (h + m)) as [Hlt | Hge].
  - eexists. split; [reflexivity |].
    assert (0 < inject_Z (Z.of_nat (h + m)))%Q as Hpos by (unfold Qlt; cbn; lia).
    split; [split |]; [| | split].
    + apply Qle_shift_div_l; [exact Hpos |]. rewrite Qmult_0_l.
      unfold Qle; cbn; lia.
    + apply Qle_shift_div_r; [exact Hpos |]. rewrite Qmult_1_l.
      rewrite <- Zle_Qle. lia.
    + change 0%Q with (inject_Z 0). rewrite quotient_of_counts by exact Hlt. lia.
    + change 1%Q with (inject_Z 1). rewrite quotient_of_counts by exact Hlt. lia.
  - exists 0%Q. split; [reflexivity |]. split; [split; discriminate |].
    split; [split; [lia | reflexivity] |].
    split; [discriminate | lia].
Qed.

(** X7: the counts of two lists of lines put one after the other are the
    sums of the counts of each. *)
Theorem analyzeCachePerformance_app (logs1 logs2 : list string) :
  hitCount (analyzeCachePerformance (logs1 ++ logs2))
  = (hitCount (analyzeCachePerformance logs1)
     + hitCount (analyzeCachePerformance logs2))%nat
  /\ missCount (analyzeCachePerformance (logs1 ++ logs2))
     = (missCount (analyzeCachePerformance logs1)
        + missCount (analyzeCachePerformance logs2))%nat.
Proof.
  rewrite !analyzeCachePerformance_eq. cbn zeta. cbn [hitCount missCount].
  unfold hit_lines, miss_lines. now rewrite !filter_app, !length_app.
Qed.

(** X8: the order of the lines does not matter: two lists with the same
    lines, each as often, give the same counts and the same rate. *)
Theorem analyzeCachePerformance_permutation (logs logs' : list string) :
  Permutation logs logs' ->
  analyzeCachePerformance logs = analyzeCachePerformance logs'.
Proof.
  intros Hperm. rewrite !analyzeCachePerformance_eq. cbn zeta.
  unfold hit_lines, miss_lines.
  now rewrite !(Permutation_length (filter_Permutation _ _ _ Hperm)).
Qed.

(** The lines of the specification's example, in another order. *)
Lemma analyzeCachePerformance_permutation_witness :
  Permutation ["HIT"; "MISS"; "HIT"; "other"]%string ["other"; "HIT"; "HIT"; "MISS"]%string
  /\ analyzeCachePerformance ["HIT"; "MISS"; "HIT"; "other"]%string
     = analyzeCachePerformance ["other"; "HIT"; "HIT"; "MISS"]%string.
Proof.
  assert (Permutation ["HIT"; "MISS"; "HIT"; "other"]%string
            ["other"; "HIT"; "HIT"; "MISS"]%string) as Hperm.
  { apply (Permutation_cons_app ["other"%string; "HIT"%string] ["MISS"%string]).
    apply (Permutation_cons_app ["other"%string; "HIT"%string] []).
    apply (Permutation_cons_app ["other"%string] []). reflexivity. }
  split; [exact Hperm |]. exact (analyzeCachePerformance_permutation _ _ Hperm).
Defined.

End CacheMore.

(** ** The incident tracker, under any interleaving of calls *)

Section TrackerMore.
Import JsString JsNumber IncidentTracker.
Local Open Scope list_scope.
Local Open Scope Z_scope.

Lemma numbered_step (incidents : list Incident) (c : Z * call) :
  numbered incidents -> numbered (step incidents c).
Proof.
  intros Hnum i inc' Hi. destruct c as [now [t s a | ident text]]; cbn [step] in Hi.
  - cbn in Hi. apply lookup_app_Some in Hi as [Hi | [Hge Hi]]; [now apply Hnum |].
    apply list_lookup_singleton_Some in Hi as [Hz <-]. cbn.
    split; [lia |]. split; intros [? [=]].
  - unfold resolveIncident in Hi.
    destruct (list_find _ incidents) as [[j found]|] eqn:E;
      [| cbn in Hi; now apply Hnum].
    apply list_find_Some in E as (Hj & _ & _).
    destruct (resolutionTime found) as [r|] eqn:Hres;
      cbn [truthy_date negb snd] in Hi; [now apply Hnum |].
    apply list_lookup_insert_Some in Hi as [(-> & <- & _) | (Hne & Hi)];
      [| now apply Hnum].
    destruct (Hnum _ _ Hj) as [Hid _]. cbn. split; [exact Hid |].
    split; intros _; eauto.
Qed.

Lemma numbered_run (calls : list (Z * call)) (incidents : list Incident) :
  numbered incidents -> numbered (run calls incidents).
Proof.
  revert incidents; induction calls as [|c calls IH]; intros incidents Hnum;
    [assumption |].
  cbn. apply IH. now apply numbered_step.
Qed.

Lemma numbered_fresh : numbered constructor.
Proof. intros i inc Hi. discriminate Hi. Qed.

Lemma step_length (incidents : list Incident) (c : Z * call) :
  length (step incidents c)
  = (length incidents + (if is_create c then 1 else 0))%nat.
Proof.
  destruct c as [now [t s a | ident text]]; cbn [step is_create].
  - cbn. rewrite length_app. reflexivity.
  - unfold resolveIncident.
    destruct (list_find _ incidents) as [[j found]|]; [| cbn; lia].
    destruct (negb _); cbn [snd]; rewrite ?length_insert; lia.
Qed.

Lemma run_length (calls : list (Z * call)) (incidents : list Incident) :
  length (run calls incidents)
  = (length incidents + length (List.filter is_create calls))%nat.
Proof.
  revert incidents; induction calls as [|c calls IH]; intros incidents;
    [cbn; lia |].
  cbn [run fold_left List.filter]. fold (run calls (step incidents c)).
  rewrite IH, step_length. destruct (is_create c); cbn [length]; lia.
Qed.

(** In a numbered array the identifier [n] is held by the incident at index
    [n - 1] and by no other. *)
Lemma numbered_find (incidents : list Incident) (n : Z) :
  numbered incidents ->
  list_find (fun inc => Is_true (strict_equals (id inc) (VNumber n))) incidents
  = if decide (1 <= n <= Z.of_nat (length incidents))
    then (fun inc => (Z.to_nat (n - 1), inc)) <$> incidents !! Z.to_nat (n - 1)
    else None.
Proof.
  intros Hnum. destruct (decide _) as [Hin | Hout].
  - destruct (lookup_lt_is_Some_2 incidents (Z.to_nat (n - 1))) as [inc Hinc];
      [lia |].
    rewrite Hinc. cbn. apply list_find_Some. split; [exact Hinc |].
    destruct (Hnum _ _ Hinc) as [Hid _]. split.
    + cbn. rewrite Hid. apply Is_true_true. apply Z.eqb_eq. lia.
    + intros j y Hj Hlt Hy. destruct (Hnum _ _ Hj) as [Hidy _].
      cbn in Hy. apply Is_true_true, Z.eqb_eq in Hy. lia.
  - apply list_find_None, Forall_lookup. intros j y Hj Hy.
    destruct (Hnum _ _ Hj) as [Hidy _]. apply lookup_lt_Some in Hj.
    cbn in Hy. apply Is_true_true, Z.eqb_eq in Hy. lia.
Qed.

(** X9: whatever [createIncident] and [resolveIncident] calls a fresh
    tracker receives, in whatever order, the incident at position [i] of the
    array (counted from 0) has the identifier [i + 1], it has an rca exactly
    when it has a resolution time, the array holds one incident per
    [createIncident] call, and no two incidents share an identifier. *)
Theorem run_numbered (calls : list (Z * call)) :
  let incidents := run calls constructor in
  (forall i inc, incidents !! i = Some inc ->
     id inc = Z.of_nat i + 1
     /\ (is_Some (resolutionTime inc) <-> is_Some (rca inc)))
  /\ length incidents = length (List.filter is_create calls)
  /\ NoDup (map id incidents).
Proof.
  intros incidents. pose proof (numbered_run calls _ numbered_fresh) as Hnum.
  fold incidents in Hnum. split; [exact Hnum |]. split.
  - subst incidents. now rewrite run_length.
  - apply NoDup_alt. intros i j v. rewrite !list_lookup_fmap.
    destruct (incidents !! i) as [x|] eqn:Hi; [| discriminate].
    destruct (incidents !! j) as [y|] eqn:Hj; [| discriminate].
    cbn. intros [= <-] [= Hv].
    destruct (Hnum _ _ Hi) as [Hx _], (Hnum _ _ Hj) as [Hy _]. lia.
Qed.

(** X10: on the array of a tracker (after any calls), [resolveIncident] with
    the number [n] finds the incident at position [n - 1] when
    [1 <= n <= length], resolving it when it is unresolved and returning it
    unchanged otherwise; with any other number it returns [undefined] and
    changes nothing. *)
Theorem resolveIncident_by_number (calls : list (Z * call)) (now n : Z)
    (rca : string) :
  let incidents := run calls constructor in
  (1 <= n <= Z.of_nat (length incidents) ->
   exists inc,
     incidents !! Z.to_nat (n - 1) = Some inc
     /\ id inc = n
     /\ resolveIncident now (VNumber n) rca incidents
        = match resolutionTime inc with
          | None =>
              (Some (resolved_at now rca inc),
               <[Z.to_nat (n - 1) := resolved_at now rca inc]> incidents)
          | Some _ => (Some inc, incidents)
          end)
  /\ (n < 1 \/ Z.of_nat (length incidents) < n ->
      resolveIncident now (VNumber n) rca incidents = (None, incidents)).
Proof.
  intros incidents. pose proof (numbered_run calls _ numbered_fresh) as Hnum.
  fold incidents in Hnum. pose proof (numbered_find incidents n Hnum) as Hfind.
  split.
  - intros Hin. rewrite decide_True in Hfind by exact Hin.
    destruct (lookup_lt_is_Some_2 incidents (Z.to_nat (n - 1))) as [inc Hinc];
      [lia |].
    exists inc. split; [exact Hinc |]. destruct (Hnum _ _ Hinc) as [Hid _].
    split; [lia |]. unfold resolveIncident. rewrite Hfind, Hinc. cbn.
    now destruct (resolutionTime inc).
  - intros Hout. rewrite decide_False in Hfind by lia.
    unfold resolveIncident. now rewrite Hfind.
Qed.

(** X11: an incident just created is the one its identifier finds: after
    any calls, [createIncident] followed by [resolveIncident] with the
    identifier of the returned record resolves that very record, at the end
    of the array, and leaves the incidents before it as they were. *)
Theorem create_then_resolve (calls : list (Z * call)) (now now' : Z)
    (title severity rca : string) (services : list string) :
  let incidents := run calls constructor in
  let created := fst (createIncident now title severity services incidents) in
  resolveIncident now' (VNumber (id created)) rca
    (snd (createIncident now title severity services incidents))
  = (Some (resolved_at now' rca created),
     incidents ++ [resolved_at now' rca created]).
Proof.
  intros incidents created.
  pose proof (numbered_run calls _ numbered_fresh) as Hnum. fold incidents in Hnum.
  subst created. cbn [createIncident fst snd].
  apply (resolveIncident_unresolved incidents []); [| | reflexivity].
  - intros other (j & Hj)%list_elem_of_lookup. destruct (Hnum _ _ Hj) as [Hid _].
    apply lookup_lt_Some in Hj. cbn. apply Z.eqb_neq. lia.
  - cbn. apply Z.eqb_refl.
Qed.

End TrackerMore.

(** ** The incident tracker: what a call leaves alone, and the mean *)

Section MttrMore.
Import JsString JsNumber IncidentTracker.
Local Open Scope list_scope.
Local Open Scope Z_scope.

(** X12: on any array, [resolveIncident] never adds, removes or reorders
    incidents, never changes an identifier, a title, a severity, the
    affected services or a detection time, and changes at most one
    incident. *)
Theorem resolveIncident_frame (incidents : list Incident) (now : Z)
    (ident : Value) (rca : string) :
  let incidents' := snd (resolveIncident now ident rca incidents) in
  Forall2 same_incident incidents incidents'
  /\ (forall i j a b,
       incidents !! i = Some a -> incidents' !! i <> Some a ->
       incidents !! j = Some b -> incidents' !! j <> Some b ->
       i = j).
Proof.
  assert (forall l : list Incident, Forall2 same_incident l l) as Hrefl.
  { intros l. apply Forall2_same_length_lookup_2; [reflexivity |].
    intros i x y Hx Hy. assert (x = y) as -> by congruence. now repeat split. }
  cbn zeta. unfold resolveIncident.
  destruct (list_find _ incidents) as [[k found]|] eqn:E;
    [| cbn; split; [apply Hrefl | congruence]].
  apply list_find_Some in E as (Hk & _ & _).
  destruct (negb _); cbn [snd]; [| split; [apply Hrefl | congruence]].
  split.
  - apply Forall2_same_length_lookup_2; [now rewrite length_insert |].
    intros i x y Hx Hy.
    apply list_lookup_insert_Some in Hy as [(-> & <- & _) | (Hne & Hy)].
    + assert (x = found) as -> by congruence. now repeat split.
    + assert (x = y) as -> by congruence. now repeat split.
  - intros i j a b Hi Hi' Hj Hj'.
    destruct (decide (k = i)) as [-> | Hki];
      [| exfalso; apply Hi'; now rewrite list_lookup_insert_ne].
    destruct (decide (i = j)) as [-> | Hij]; [reflexivity |].
    exfalso. apply Hj'. now rewrite list_lookup_insert_ne.
Qed.

Lemma delays_app (a b : list Incident) : delays (a ++ b) = delays a ++ delays b.
Proof.
  induction a as [|inc a IH]; [reflexivity |].
  cbn [app]. rewrite !delays_cons, IH. now destruct (delay inc).
Qed.

Lemma createIncident_delays (incidents : list Incident) (now : Z)
    (title severity : string) (services : list string) :
  delays (snd (createIncident now title severity services incidents))
  = delays incidents.
Proof.
  cbn [createIncident snd]. rewrite delays_app. cbn. now rewrite app_nil_r.
Qed.

Lemma delays_binary64_app (a b : list Incident) :
  delays_binary64 (a ++ b) = delays_binary64 a ++ delays_binary64 b.
Proof.
  induction a as [|inc a IH]; [reflexivity |].
  cbn [app]. rewrite !delays_binary64_cons, IH. now destruct (resolutionTime inc).
Qed.

Lemma createIncident_delays_binary64 (incidents : list Incident) (now : Z)
    (title severity : string) (services : list string) :
  delays_binary64 (snd (createIncident now title severity services incidents))
  = delays_binary64 incidents.
Proof.
  cbn [createIncident snd]. rewrite delays_binary64_app. cbn. now rewrite app_nil_r.
Qed.

(** X13: creating an incident leaves the mean time to recovery as it was,
    the new incident being unresolved; without rounding, and for the double
    the code computes. *)
Theorem createIncident_keeps_MTTR (incidents : list Incident) (now : Z)
    (title severity : string) (services : list string) :
  calculateMTTR_exact (snd (createIncident now title severity services incidents))
  = calculateMTTR_exact incidents
  /\ calculateMTTR
       (snd (createIncident now title severity services incidents))
     = calculateMTTR incidents.
Proof.
  split.
  - now rewrite !calculateMTTR_delays, createIncident_delays.
  - now rewrite !calculateMTTR_binary64_delays, createIncident_delays_binary64.
Qed.

Lemma Zsum_between (ds : list Z) (lo hi : Z) :
  Forall (fun d => lo <= d <= hi) ds ->
  Z.of_nat (length ds) * lo <= Zsum ds <= Z.of_nat (length ds) * hi.
Proof.
  induction 1 as [|d ds Hd _ IH]; [cbn; lia |].
  unfold Zsum in *. cbn [foldr length]. lia.
Qed.

Lemma quotient_between (total n lo hi : Z) :
  0 < n -> n * lo <= total <= n * hi ->
  (hours lo <= inject_Z total / inject_Z n / inject_Z 3600000 <= hours hi)%Q.
Proof.
  intros Hn [Hlo Hhi]. unfold hours.
  assert (0 < inject_Z n)%Q as Hn' by (unfold Qlt; cbn; lia).
  assert (0 < inject_Z 3600000)%Q as Hc by reflexivity.
  assert (0 < / inject_Z 3600000)%Q as Hc' by now apply Qinv_lt_0_compat.
  split; unfold Qdiv at 1 3; apply Qmult_le_compat_r; try now apply Qlt_le_weak.
  - apply Qle_shift_div_l; [exact Hn' |].
    rewrite <- inject_Z_mult, <- Zle_Qle. lia.
  - apply Qle_shift_div_r; [exact Hn' |].
    rewrite <- inject_Z_mult, <- Zle_Qle. lia.
Qed.

Lemma step_dates_valid (incidents : list Incident) (c : Z * call) :
  JsDate.valid (fst c) -> dates_valid incidents -> dates_valid (step incidents c).
Proof.
  intros Hc Hinv inc' Hin.
  apply step_elem_of in Hin as [Hin | [(inc & rca & Hin & Hres & ->) | [Hd Hr]]].
  - now apply Hinv.
  - destruct (Hinv _ Hin) as [Hd _]. cbn. split; [assumption |].
    intros r [= <-]. assumption.
  - rewrite Hd. split; [assumption |]. intros r Hsome. congruence.
Qed.

(** With valid clock readings every time of the tracker is valid. *)
Lemma run_dates_valid (calls : list (Z * call)) (incidents : list Incident) :
  Forall (fun c => JsDate.valid (fst c)) calls ->
  dates_valid incidents -> dates_valid (run calls incidents).
Proof.
  intros Hcalls. revert incidents.
  induction Hcalls as [|c calls Hc _ IH]; intros incidents Hinv; [assumption |].
  cbn [run fold_left]. apply IH. now apply step_dates_valid.
Qed.

(** X15: as long as the clock readings of the calls never decrease, the mean
    time to recovery of a tracker is never negative: without rounding; and,
    when the clock readings are valid time values and there are less than
    2^32 calls, for the double the code computes, which is then a number
    that is not negative. *)
Theorem calculateMTTR_nonnegative (calls : list (Z * call)) :
  Sorted Z.le (map fst calls) ->
  (exists q, calculateMTTR_exact (run calls constructor) = Finite q /\ (0 <= q)%Q)
  /\ (Forall (fun c => JsDate.valid (fst c)) calls ->
      Z.of_nat (length calls) < 2 ^ 32 ->
      exists q,
        Binary64.to_number (calculateMTTR (run calls constructor))
        = Finite q
        /\ (0 <= q)%Q).
Proof.
  intros Hsorted.
  assert (Forall (fun d => 0 <= d) (delays (run calls constructor))) as Hpos.
  { destruct calls as [|c calls]; [constructor |].
    destruct (run_times_ordered calls (fst c) (step constructor c)) as [t' Hinv].
    - exact Hsorted.
    - apply (step_times_ordered (fst c)); [lia |].
      intros x Hx. now apply elem_of_nil in Hx.
    - change (run (c :: calls) constructor) with (run calls (step constructor c)).
      induction (run calls (step constructor c)) as [|inc l IH]; [constructor |].
      rewrite delays_cons. unfold delay.
      assert (Forall (fun d => 0 <= d) (delays l)) as Hl.
      { apply IH. intros x Hx. apply Hinv. now right. }
      destruct (resolutionTime inc) as [r|] eqn:Hr; [| exact Hl].
      constructor; [| exact Hl].
      destruct (Hinv inc ltac:(left)) as [_ Hd]. specialize (Hd r Hr). lia. }
  split.
  - assert (Forall (fun d => 0 <= d <= Zsum (delays (run calls constructor)))
              (delays (run calls constructor))) as Hall.
    { induction Hpos as [|d ds Hd Hds IH]; [constructor |].
      unfold Zsum in *. cbn [foldr]. constructor.
      - assert (0 <= foldr Z.add 0 ds).
        { clear IH. induction Hds; cbn; lia. }
        lia.
      - eapply Forall_impl; [exact IH |]. cbn. intros x Hx. lia. }
    rewrite calculateMTTR_delays.
    destruct (delays (run calls constructor)) as [|d ds] eqn:E.
    + exists 0%Q. split; [reflexivity | discriminate].
    + eexists. split; [reflexivity |].
      destruct (quotient_between (Zsum (d :: ds)) (Z.of_nat (length (d :: ds)))
                  0 (Zsum (d :: ds))) as [Hlo _];
        [cbn [length]; lia | now apply Zsum_between |].
      eapply Qle_trans; [| exact Hlo]. discriminate.
  - intros Hvalid Hlen.
    assert (dates_valid (run calls constructor)) as Hdates.
    { apply run_dates_valid; [assumption |]. intros x Hx. now apply elem_of_nil in Hx. }
    assert (Z.of_nat (length (run calls constructor)) < 2 ^ 32) as Hlen'.
    { rewrite run_length. cbn [constructor length].
      pose proof (List.filter_length_le is_create calls). lia. }
    destruct (calculateMTTR_binary64_bound _ Hdates Hlen') as (Hfin & Hbound & Hsign).
    rewrite Z.pow_add_r in Hbound by lia.
    destruct (to_number_scaled _ _ Hfin Hbound) as (q & Hq & _ & Hq0).
    exists q. split; [exact Hq |]. apply Hq0, Hsign, Hpos.
Qed.

Lemma Zsum_permutation (a b : list Z) : Permutation a b -> Zsum a = Zsum b.
Proof.
  induction 1 as [| x a b _ IH | x y a | a b c _ IH1 _ IH2]; unfold Zsum in *;
    cbn [foldr]; lia.
Qed.

(** X16: [calculateMTTR()] depends on the array only through the doubles
    (resolution time - detection time) of its resolved incidents, taken in
    the order of the array: two arrays with the same doubles in the same
    order give the same result, whatever their other fields and their
    unresolved incidents.  With valid time values and delays that add up, in
    absolute value, to less than 2^53 ms, the order does not count either:
    two arrays with the same delays in any order give the same result.
    Beyond that the order counts: the arrays of [long_delay_first] and
    [long_delay_last] hold the same delays, 2^53 ms, 1 ms and 1 ms, in
    different orders, and give different doubles. *)
Theorem calculateMTTR_binary64_delays_only :
  (forall incidents incidents' : list Incident,
     delays_binary64 incidents = delays_binary64 incidents' ->
     calculateMTTR incidents
     = calculateMTTR incidents')
  /\ (forall incidents incidents' : list Incident,
       dates_valid incidents -> dates_valid incidents' ->
       Zsum (map Z.abs (delays incidents)) < 2 ^ 53 ->
       Permutation (delays incidents) (delays incidents') ->
       calculateMTTR incidents
       = calculateMTTR incidents')
  /\ delays (run long_delay_first constructor) = [9007199254740992; 1; 1]
  /\ delays (run long_delay_last constructor) = [1; 1; 9007199254740992]
  /\ delays_binary64 (run long_delay_first constructor)
     = [9007199254740992; 1; 1]%float
  /\ delays_binary64 (run long_delay_last constructor)
     = [1; 1; 9007199254740992]%float
  /\ calculateMTTR (run long_delay_first constructor)
     <> calculateMTTR (run long_delay_last constructor).
Proof.
  split; [| split].
  - intros incidents incidents' Hsame.
    now rewrite !calculateMTTR_binary64_delays, Hsame.
  - intros incidents incidents' Hvalid Hvalid' Hsum Hperm.
    destruct (delays incidents) as [|d ds] eqn:E.
    + apply Permutation_nil in Hperm.
      now rewrite !calculateMTTR_binary64_nothing_resolved.
    + rewrite <- E in *.
      assert (delays incidents <> []) as Hsome by (rewrite E; discriminate).
      assert (delays incidents' <> []) as Hsome'.
      { intros Hnil. rewrite Hnil in Hperm. apply Permutation_sym, Permutation_nil in Hperm.
        contradiction. }
      assert (Zsum (map Z.abs (delays incidents')) < 2 ^ 53) as Hsum'.
      { rewrite <- (Zsum_permutation _ _ (Permutation_map Z.abs Hperm)). exact Hsum. }
      rewrite !calculateMTTR_binary64_exact_sum by assumption.
      now rewrite (Zsum_permutation _ _ Hperm), (Permutation_length Hperm).
  - repeat split; try (vm_compute; reflexivity).
    intros Hequal. apply (f_equal Prim2SF) in Hequal.
    vm_compute in Hequal. discriminate.
Qed.

End MttrMore.

Section MttrWitnesses.
Import JsString JsNumber IncidentTracker.
Local Open Scope list_scope.
Local Open Scope Z_scope.

Lemma delays_one_and_three_hours :
  delays (run one_and_three_hours constructor) = [3600000; 10800000].
Proof. vm_compute. reflexivity. Qed.

(** The clock readings of [one_and_three_hours] increase and are valid. *)
Lemma calculateMTTR_nonnegative_witness :
  Sorted Z.le (map fst one_and_three_hours)
  /\ (exists q,
        calculateMTTR_exact (run one_and_three_hours constructor) = Finite q /\ (0 <= q)%Q)
  /\ Forall (fun c => JsDate.valid (fst c)) one_and_three_hours
  /\ (exists q,
        Binary64.to_number
          (calculateMTTR (run one_and_three_hours constructor))
        = Finite q
        /\ (0 <= q)%Q).
Proof.
  assert (Sorted Z.le (map fst one_and_three_hours)) as Hs
    by (repeat constructor; cbn; lia).
  assert (Forall (fun c => JsDate.valid (fst c)) one_and_three_hours) as Hvalid
    by (repeat constructor; unfold JsDate.valid, JsDate.maxTime; cbn; lia).
  split; [exact Hs |].
  split; [exact (proj1 (calculateMTTR_nonnegative _ Hs)) |].
  split; [exact Hvalid |].
  refine (proj2 (calculateMTTR_nonnegative _ Hs) Hvalid _). vm_compute. reflexivity.
Defined.

(** The array of [one_and_three_hours], and its first two incidents in
    reverse order: the third incident is unresolved. *)
Lemma calculateMTTR_binary64_delays_only_witness :
  dates_valid (run one_and_three_hours constructor)
  /\ Permutation (delays (run one_and_three_hours constructor))
       (delays (rev (take 2 (run one_and_three_hours constructor))))
  /\ calculateMTTR (run one_and_three_hours constructor)
     = calculateMTTR (rev (take 2 (run one_and_three_hours constructor))).
Proof.
  assert (forall l : list Incident,
            (forall inc, inc ∈ l -> inc ∈ run one_and_three_hours constructor) ->
            dates_valid l) as Hsub.
  { intros l Hl inc Hin%Hl. unfold JsDate.valid, JsDate.maxTime.
    repeat (apply elem_of_cons in Hin as [-> | Hin];
            [split; [| intros r [= <-]]; cbn; lia |]).
    now apply elem_of_nil in Hin. }
  assert (dates_valid (run one_and_three_hours constructor)) as Hvalid
    by (apply Hsub; auto).
  assert (dates_valid (rev (take 2 (run one_and_three_hours constructor)))) as Hvalid'.
  { apply Hsub. intros inc Hin.
    repeat (apply elem_of_cons in Hin as [-> | Hin];
            [repeat first [apply list_elem_of_here | apply list_elem_of_further] |]).
    now apply elem_of_nil in Hin. }
  assert (Permutation
            (delays (run one_and_three_hours constructor))
            (delays (rev (take 2 (run one_and_three_hours constructor))))) as Hperm.
  { rewrite delays_one_and_three_hours.
    replace (delays (rev (take 2 (run one_and_three_hours constructor))))
      with [10800000; 3600000] by (vm_compute; reflexivity).
    apply perm_swap. }
  split; [exact Hvalid |]. split; [exact Hperm |].
  refine (proj1 (proj2 calculateMTTR_binary64_delays_only) _ _ Hvalid Hvalid' _ Hperm).
  vm_compute. reflexivity.
Defined.

End MttrWitnesses.

(** ** The report, after a call *)

Section ReportMore.
Import JsString JsNumber IncidentTracker.
Context {platform : Platform}.

Lemma unresolved_delays (incidents : list Incident) :
  Forall (fun inc => resolutionTime inc = None) incidents ->
  delays incidents = [].
Proof.
  induction 1 as [|inc incidents Hinc _ IH]; [reflexivity |].
  rewrite delays_cons. unfold delay. now rewrite Hinc.
Qed.

(** X17: [createIncident] adds one section at the end of the report, with
    the next identifier, the clock reading as detection time, [Unresolved]
    and [Pending]; the sections before it and the MTTR line stay as they
    were.  This holds with the MTTR line taken without rounding and with the
    MTTR line of the code's double. *)
Theorem generateMarkdownReport_after_create (incidents : list Incident)
    (now : Z) (title severity : string) (services : list string) :
  generateMarkdownReport_exact
    (snd (createIncident now title severity services incidents))
  = unlines
      (["# Incident Report"; ""]
       ++ concat (map section_lines incidents)
       ++ [ "## Incident #"
              ++ toString (inject_Z (Z.of_nat (length incidents) + 1)) ++ ": " ++ title;
            "- **Severity:** " ++ severity;
            "- **Affected Services:** " ++ join ", " services;
            "- **Detection Time:** " ++ JsDate.toISOString now;
            "- **Resolution Time:** Unresolved";
            "- **RCA:** Pending";
            "" ]%string
       ++ [("**MTTR:** " ++ toFixed2 (calculateMTTR_exact incidents) ++ " hours")%string])%list
  /\ generateMarkdownReport
       (snd (createIncident now title severity services incidents))
     = unlines
         (["# Incident Report"; ""]
          ++ concat (map section_lines incidents)
          ++ [ "## Incident #"
                 ++ toString (inject_Z (Z.of_nat (length incidents) + 1)) ++ ": " ++ title;
               "- **Severity:** " ++ severity;
               "- **Affected Services:** " ++ join ", " services;
               "- **Detection Time:** " ++ JsDate.toISOString now;
               "- **Resolution Time:** Unresolved";
               "- **RCA:** Pending";
               "" ]%string
          ++ [("**MTTR:** "
               ++ toFixed2 (Binary64.to_number (calculateMTTR incidents))
               ++ " hours")%string])%list.
Proof.
  split.
  - rewrite report_lines_exact_eq. unfold report_lines_exact.
    rewrite (calculateMTTR_delays (snd _)), createIncident_delays,
      <- calculateMTTR_delays.
    cbn [createIncident snd].
    rewrite map_app, concat_app. cbn [map concat]. rewrite <- !app_assoc.
    reflexivity.
  - rewrite report_lines_eq. unfold report_lines_with.
    rewrite (calculateMTTR_binary64_delays (snd _)), createIncident_delays_binary64,
      <- calculateMTTR_binary64_delays.
    cbn [createIncident snd].
    rewrite map_app, concat_app. cbn [map concat]. rewrite <- !app_assoc.
    reflexivity.
Qed.

(** X18: as long as no incident is resolved, the report ends with the line
    [**MTTR:** 0.00 hours]; without rounding, and with the MTTR line of the
    code's double. *)
Theorem generateMarkdownReport_nothing_resolved (incidents : list Incident) :
  Forall (fun inc => resolutionTime inc = None) incidents ->
  generateMarkdownReport_exact incidents
  = unlines
      (["# Incident Report"; ""]
       ++ concat (map section_lines incidents)
       ++ ["**MTTR:** 0.00 hours"%string])%list
  /\ generateMarkdownReport incidents
     = unlines
         (["# Incident Report"; ""]
          ++ concat (map section_lines incidents)
          ++ ["**MTTR:** 0.00 hours"%string])%list.
Proof.
  intros Hnone. split.
  - rewrite report_lines_exact_eq. unfold report_lines_exact.
    rewrite calculateMTTR_delays, (unresolved_delays _ Hnone). reflexivity.
  - rewrite report_lines_eq. unfold report_lines_with.
    rewrite calculateMTTR_binary64_nothing_resolved
      by exact (unresolved_delays _ Hnone).
    reflexivity.
Qed.

End ReportMore.

Section ReportMoreWitness.
Import JsString JsNumber IncidentTracker.

(** The report of a tracker with two incidents, none of them resolved. *)
Lemma generateMarkdownReport_nothing_resolved_witness :
  Forall (fun inc => resolutionTime inc = None)
    (run (take 2 sample_calls) constructor)
  /\ generateMarkdownReport_exact (platform := example_platform)
       (run (take 2 sample_calls) constructor)
     = unlines
         (["# Incident Report"; ""]
          ++ concat (map (section_lines (platform := example_platform))
                       (run (take 2 sample_calls) constructor))
          ++ ["**MTTR:** 0.00 hours"%string])%list
  /\ generateMarkdownReport (platform := example_platform)
       (run (take 2 sample_calls) constructor)
     = unlines
         (["# Incident Report"; ""]
          ++ concat (map (section_lines (platform := example_platform))
                       (run (take 2 sample_calls) constructor))
          ++ ["**MTTR:** 0.00 hours"%string])%list.
Proof.
  assert (Forall (fun inc => resolutionTime inc = None)
            (run (take 2 sample_calls) constructor)) as Hnone
    by (repeat constructor).
  split; [exact Hnone |].
  exact (generateMarkdownReport_nothing_resolved (platform := example_platform) _ Hnone).
Defined.

End ReportMoreWitness.

(** ** The health check: the race, the results, the instants *)

Section HealthMore.
Import HealthCheck.
Local Open Scope list_scope.
Local Open Scope Z_scope.

(** X19: [fetchWithTimeout] always settles, at the instant its timer fires
    at the latest; it is fulfilled only with the response of [fetch], and
    rejected only with the error of [fetch] or, at the instant the timer
    fires, with the error [Timeout]. *)
Theorem fetchWithTimeout_settles (w : World) (k : nat) (u : string) (timeout : Z) :
  exists t o,
    fetchWithTimeout w k u timeout = Settled t o
    /\ t <= timer_fires w k timeout
    /\ (forall response,
          o = Fulfilled response -> fetch w k u = Settled t (Fulfilled response))
    /\ (forall e,
          o = Rejected e ->
          fetch w k u = Settled t (Rejected e)
          \/ (message e = "Timeout"%string /\ t = timer_fires w k timeout)).
Proof.
  unfold fetchWithTimeout, timeout_promise. cbn [race foldr first_settled].
  destruct (fetch w k u) as [|tf o]; cbn [first_settled].
  - eexists _, _. split; [reflexivity |]. split; [lia |].
    split; [discriminate |]. intros e [= <-]. right. now split.
  - destruct (Z.leb_spec tf (timer_fires w k timeout)) as [Hle | Hgt].
    + exists tf, o. split; [reflexivity |]. split; [exact Hle |].
      split; [now intros response -> | intros e ->; now left].
    + eexists _, _. split; [reflexivity |]. split; [lia |].
      split; [discriminate |]. intros e [= <-]. right. now split.
Qed.

Lemma response_ok_range (response : Response) :
  response_ok response = bool_decide (200 <= response_status response <= 299).
Proof.
  unfold response_ok. destruct response as [s]. cbn.
  destruct (Z.leb_spec 200 s), (Z.leb_spec s 299); cbn;
    first [rewrite bool_decide_eq_false_2 by lia
          | rewrite bool_decide_eq_true_2 by lia];
    reflexivity.
Qed.

(** The instant at which a probe settles, and what it is fulfilled with. *)
Lemma probe_settles (w : World) (timeout : Z) (k : nat) (u : string) :
  exists t r,
    probe w timeout k u = Settled t (Fulfilled r)
    /\ t <= timer_fires w k timeout
    /\ result_well_formed r.
Proof.
  unfold probe, fetchWithTimeout, timeout_promise, result_well_formed.
  cbn [race foldr first_settled].
  destruct (fetch w k u) as [|tf [response | e]]; cbn [first_settled].
  - eexists _, _. split; [reflexivity |]. split; [lia |]. cbn. eauto.
  - destruct (Z.leb_spec tf (timer_fires w k timeout)); eexists _, _;
      (split; [reflexivity |]); (split; [lia |]); cbn;
      [split; [reflexivity | apply response_ok_range] | eauto].
  - destruct (Z.leb_spec tf (timer_fires w k timeout)); eexists _, _;
      (split; [reflexivity |]); (split; [lia |]); cbn; eauto.
Qed.

Lemma all_probes_fulfilled (w : World) (timeout : Z) (urls : list string) :
  Forall (fun p => exists v, fulfilled_with p v) (imap (probe w timeout) urls).
Proof.
  apply Forall_lookup. intros k p. rewrite list_lookup_imap.
  destruct (urls !! k) as [u|]; [| discriminate]. intros [= <-].
  destruct (probe_settles w timeout k u) as (t & r & Hp & _). now exists r, t.
Qed.

(** X20: every result of [checkAPIHealth] is well formed: one with a status
    has no error and is healthy exactly when the status is from 200 to 299;
    one without a status is unhealthy and has an error message. *)
Theorem checkAPIHealth_well_formed (w : World) (urls : list string)
    (timeout : option Z) :
  exists t results,
    checkAPIHealth w urls timeout = Settled t (Fulfilled results)
    /\ Forall result_well_formed results.
Proof.
  unfold checkAPIHealth. set (d := default 5000 timeout).
  destruct (all_fulfilled (call_instant w) _ (all_probes_fulfilled w d urls))
    as (t & results & Hall & Hvs).
  exists t, results. split; [exact Hall |].
  apply Forall_lookup. intros k r Hr.
  destruct (Forall2_lookup_r _ _ _ k r Hvs Hr) as (p & Hp & tr & ->).
  rewrite list_lookup_imap in Hp.
  destruct (urls !! k) as [u|]; [| discriminate]. injection Hp as Hp.
  destruct (probe_settles w d k u) as (t' & r' & Hp' & _ & Hwf).
  rewrite Hp' in Hp. now injection Hp as _ <-.
Qed.

(** X21: the result for one URL depends on nothing but its own request, its
    own timer and the clock: in two worlds that agree on these for the
    [k]-th URL, whatever the other requests do, [checkAPIHealth] gives the
    same [k]-th result. *)
Theorem checkAPIHealth_isolation (w1 w2 : World) (urls : list string)
    (timeout : option Z) (k : nat) (u : string) :
  urls !! k = Some u ->
  (forall t, clock w1 t = clock w2 t) ->
  start_instant w1 k = start_instant w2 k ->
  fetch w1 k u = fetch w2 k u ->
  timer_fires w1 k (default 5000 timeout) = timer_fires w2 k (default 5000 timeout) ->
  exists t1 t2 results1 results2 r,
    checkAPIHealth w1 urls timeout = Settled t1 (Fulfilled results1)
    /\ checkAPIHealth w2 urls timeout = Settled t2 (Fulfilled results2)
    /\ results1 !! k = Some r /\ results2 !! k = Some r.
Proof.
  intros Hk Hclock Hstart Hfetch Htimer.
  unfold checkAPIHealth. set (d := default 5000 timeout) in *.
  destruct (all_fulfilled (call_instant w1) _ (all_probes_fulfilled w1 d urls))
    as (t1 & rs1 & Hall1 & Hvs1).
  destruct (all_fulfilled (call_instant w2) _ (all_probes_fulfilled w2 d urls))
    as (t2 & rs2 & Hall2 & Hvs2).
  assert (probe w1 d k u = probe w2 d k u) as Hprobe.
  { unfold probe, fetchWithTimeout, timeout_promise.
    rewrite Hfetch, Htimer, Hstart.
    destruct (race _) as [|t [response | e]]; rewrite ?Hclock; reflexivity. }
  destruct (Forall2_lookup_l _ _ _ k (probe w1 d k u) Hvs1) as (r1 & Hr1 & tr1 & Hp1);
    [rewrite list_lookup_imap, Hk; reflexivity |].
  destruct (Forall2_lookup_l _ _ _ k (probe w2 d k u) Hvs2) as (r2 & Hr2 & tr2 & Hp2);
    [rewrite list_lookup_imap, Hk; reflexivity |].
  exists t1, t2, rs1, rs2, r1. split; [exact Hall1 |]. split; [exact Hall2 |].
  split; [exact Hr1 |]. rewrite Hr2. rewrite Hprobe, Hp2 in Hp1.
  now injection Hp1 as _ ->.
Qed.

Lemma fulfilments_instant {A} (t0 : Z) (ps : list (promise A)) (t : Z) (vs : list A) :
  fulfilments t0 ps = Some (t, vs) ->
  t0 <= t
  /\ (forall k tp o, ps !! k = Some (Settled tp o) -> tp <= t)
  /\ (forall T, t0 <= T ->
        (forall k tp o, ps !! k = Some (Settled tp o) -> tp <= T) -> t <= T).
Proof.
  revert t vs; induction ps as [|p ps IH]; intros t vs.
  - intros [= <- <-]. split; [lia |]. split; [intros k tp o [=] | intros; lia].
  - cbn [fulfilments]. destruct p as [|tp [v | e]]; try discriminate.
    destruct (fulfilments t0 ps) as [[t' vs']|]; [| discriminate].
    intros [= <- <-]. destruct (IH t' vs' eq_refl) as (H0 & Hps & Hmax).
    split; [lia |]. split.
    + intros [|k] tq o Hq; cbn in Hq.
      * injection Hq as <- _. lia.
      * specialize (Hps k tq o Hq). lia.
    + intros T HT Hall. apply Z.max_lub.
      * apply (Hall 0%nat tp (Fulfilled v)). reflexivity.
      * apply Hmax; [exact HT |]. intros k tq o Hq. now apply (Hall (S k) tq o).
Qed.

(** X22: the call is over exactly when the last probe is: the promise of
    [checkAPIHealth] is fulfilled at an instant that is not before the call,
    not before the instant any probe settles, and not after the last timer
    fires (nor after the call, when there is no URL); each probe settles
    when its timer fires at the latest. *)
Theorem checkAPIHealth_instant (w : World) (urls : list string)
    (timeout : option Z) :
  exists t results,
    checkAPIHealth w urls timeout = Settled t (Fulfilled results)
    /\ call_instant w <= t
    /\ (forall k u, urls !! k = Some u ->
          exists tk r,
            probe w (default 5000 timeout) k u = Settled tk (Fulfilled r)
            /\ tk <= t
            /\ tk <= timer_fires w k (default 5000 timeout))
    /\ (forall T,
          call_instant w <= T ->
          (forall k u, urls !! k = Some u ->
             timer_fires w k (default 5000 timeout) <= T) ->
          t <= T).
Proof.
  unfold checkAPIHealth. set (d := default 5000 timeout).
  pose proof (all_probes_fulfilled w d urls) as Hps.
  destruct (fulfilments_all (call_instant w) _ Hps) as (t & results & Hf & _).
  exists t, results. unfold all. rewrite race_no_rejection, Hf by exact Hps.
  split; [reflexivity |].
  destruct (fulfilments_instant _ _ _ _ Hf) as (H0 & Hle & Hmax).
  split; [exact H0 |]. split.
  - intros k u Hk. destruct (probe_settles w d k u) as (tk & r & Hp & Htimer & _).
    exists tk, r. split; [exact Hp |]. split; [| exact Htimer].
    apply (Hle k tk (Fulfilled r)). now rewrite list_lookup_imap, Hk, <- Hp.
  - intros T HT Htimers. apply Hmax; [exact HT |].
    intros k tp o. rewrite list_lookup_imap.
    destruct (urls !! k) as [u|] eqn:Hk; [| discriminate]. cbn. intros [= Hp].
    destruct (probe_settles w d k u) as (tk & r & Hp' & Htimer & _).
    rewrite Hp' in Hp. injection Hp as <- _. specialize (Htimers k u Hk). lia.
Qed.

(** The first endpoint answers alike in [fast_and_slow] and in
    [fast_and_failing]. *)
Lemma checkAPIHealth_isolation_witness :
  exists t1 t2 results1 results2 r,
    checkAPIHealth fast_and_slow ["http://fast"; "http://other"]%string (Some 100)
    = Settled t1 (Fulfilled results1)
    /\ checkAPIHealth fast_and_failing ["http://fast"; "http://other"]%string (Some 100)
       = Settled t2 (Fulfilled results2)
    /\ results1 !! 0%nat = Some r /\ results2 !! 0%nat = Some r.
Proof.
  apply (checkAPIHealth_isolation fast_and_slow fast_and_failing
           ["http://fast"; "http://other"]%string (Some 100) 0 "http://fast"%string);
    reflexivity.
Defined.

End HealthMore.

(** ** The incident tracker: what a resolution adds to the mean *)

Section ResolveMore.
Import JsString JsNumber IncidentTracker.
Local Open Scope list_scope.
Local Open Scope Z_scope.

(** X23: resolving an unresolved incident adds exactly one delay to those
    the mean time to recovery is taken over, the time from its detection to
    the clock reading of the call, at the place of the incident; the delays
    of the other incidents stay as they were. *)
Theorem resolveIncident_adds_delay (before after : list Incident)
    (inc : Incident) (now : Z) (ident : Value) (rca : string) :
  (forall other, other ∈ before -> strict_equals (id other) ident = false) ->
  strict_equals (id inc) ident = true ->
  resolutionTime inc = None ->
  delays (before ++ inc :: after) = delays before ++ delays after
  /\ delays (snd (resolveIncident now ident rca (before ++ inc :: after)))
     = delays before ++ (now - detectionTime inc) :: delays after.
Proof.
  intros Hbefore Hinc Hres.
  rewrite resolveIncident_unresolved by assumption. cbn [snd].
  rewrite !delays_app, !delays_cons. unfold delay. rewrite Hres. cbn.
  split; reflexivity.
Qed.

(** The first incident of [sample_calls], resolved an hour after its
    detection. *)
Lemma resolveIncident_adds_delay_witness :
  let incidents := run (take 2 sample_calls) constructor in
  delays incidents = []
  /\ delays (snd (resolveIncident 3601000 (VNumber 1) "bad deploy" incidents))
     = [3600000].
Proof.
  cbn zeta.
  assert (forall other : Incident,
            other ∈ [] -> strict_equals (id other) (VNumber 1) = false) as Hnone
    by (intros other Hother; now apply elem_of_nil in Hother).
  exact (resolveIncident_adds_delay []
           [created 1 {| at_time := 1500; with_title := "slow cache";
                         with_severity := "low";
                         with_services := ["cache"]%string |}]
           (created 0 {| at_time := 1000; with_title := "origin down";
                         with_severity := "high";
                         with_services := ["cdn"; "origin"]%string |})
           3601000 (VNumber 1) "bad deploy" Hnone eq_refl eq_refl).
Defined.

End ResolveMore.
